(** * Stockit: scoring engine, opportunity scanner, provider retry,
      subscription manager and update reconciler

    A shallow embedding of the parts of the repository that its
    specification talks about:

    - the stock controller, [src/unnamed/part_009] (scoring helpers and
      [scanBlueChipStocks]),
    - [src/services/data.service.js] (the Polygon response interceptor,
      [getHistoricalData] and [getBlueChipStocks]),
    - [frontend/src/services/websocket.service.ts] ([WebSocketManager]),
    - [frontend/src/hooks/useStockUpdates.ts] (the batching hook),
    - the scanner page, [src/unnamed/part_002] (the batches of a scan, the
      merge of its results and the page's [onUpdate]).

    JavaScript numbers are IEEE doubles.  They are modelled here by exact
    rationals together with the three non-finite values, so that division
    by zero, [0/0] and their propagation behave as in the source; rounding
    error of the double arithmetic and the sign of zero are not
    modelled. *)

From Stdlib Require Import QArith Qabs Qround Lqa ZArith Lia Sorted.
From stdpp Require Import gmap strings list pretty.

Local Open Scope Q_scope.

(** ** JavaScript numbers *)

Module JS.

Inductive num : Type :=
  | Fin (q : Q)
  | PInf
  | NInf
  | NaN.

Definition Qltb (a b : Q) : bool :=
  match a ?= b with Lt => true | _ => false end.

Definition Qis0 (a : Q) : bool := Qeq_bool a 0.

Definition zero : num := Fin 0.

Definition of_nat (n : nat) : num := Fin (inject_Z (Z.of_nat n)).

(** [a + b] *)
Definition add (a b : num) : num :=
  match a, b with
  | NaN, _ | _, NaN => NaN
  | Fin x, Fin y => Fin (x + y)
  | PInf, NInf | NInf, PInf => NaN
  | PInf, _ | _, PInf => PInf
  | NInf, _ | _, NInf => NInf
  end.

Definition neg (a : num) : num :=
  match a with
  | Fin x => Fin (- x)
  | PInf => NInf
  | NInf => PInf
  | NaN => NaN
  end.

(** [a - b] *)
Definition sub (a b : num) : num := add a (neg b).

(** The infinity of the given sign. *)
Definition inf_signed (negative : bool) : num :=
  if negative then NInf else PInf.

(** [a * b] *)
Definition mul (a b : num) : num :=
  match a, b with
  | NaN, _ | _, NaN => NaN
  | Fin x, Fin y => Fin (x * y)
  | Fin x, PInf | PInf, Fin x =>
      if Qis0 x then NaN else inf_signed (Qltb x 0)
  | Fin x, NInf | NInf, Fin x =>
      if Qis0 x then NaN else inf_signed (negb (Qltb x 0))
  | PInf, PInf | NInf, NInf => PInf
  | PInf, NInf | NInf, PInf => NInf
  end.

(** [a / b]: a finite non-zero number over zero is an infinity, [0/0] is
    [NaN]. *)
Definition div (a b : num) : num :=
  match a, b with
  | NaN, _ | _, NaN => NaN
  | Fin x, Fin y =>
      if Qis0 y then
        (if Qis0 x then NaN else inf_signed (Qltb x 0))
      else Fin (x / y)
  | Fin _, (PInf | NInf) => Fin 0
  | PInf, Fin y => inf_signed (Qltb y 0)
  | NInf, Fin y => inf_signed (negb (Qltb y 0))
  | (PInf | NInf), (PInf | NInf) => NaN
  end.

(** [a < b]; every comparison with [NaN] is false. *)
Definition lt (a b : num) : bool :=
  match a, b with
  | NaN, _ | _, NaN => false
  | Fin x, Fin y => Qltb x y
  | NInf, (Fin _ | PInf) => true
  | Fin _, PInf => true
  | _, _ => false
  end.

(** [a <= b] *)
Definition le (a b : num) : bool :=
  match a, b with
  | NaN, _ | _, NaN => false
  | Fin x, Fin y => Qle_bool x y
  | NInf, _ => true
  | _, PInf => true
  | _, _ => false
  end.

(** [a > b] and [a >= b] *)
Definition gt (a b : num) : bool := lt b a.
Definition ge (a b : num) : bool := le b a.

(** [Math.max(a, b)] *)
Definition Math_max (a b : num) : num :=
  match a, b with
  | NaN, _ | _, NaN => NaN
  | _, _ => if lt a b then b else a
  end.

(** [Math.abs(a)] *)
Definition Math_abs (a : num) : num :=
  match a with
  | Fin x => Fin (Qabs x)
  | PInf | NInf => PInf
  | NaN => NaN
  end.

(** Square root of a non-negative rational [n/d], as [sqrt (n*d) / d]
    with the integer square root taken at 16 further decimal digits: exact
    whenever the root is rational with such a denominator, rounded down
    otherwise. *)
Definition sqrt_scale : Z := 10 ^ 16.

Definition Qsqrt (x : Q) : Q :=
  let n := Qnum x in
  let d := Zpos (Qden x) in
  Qmake (Z.sqrt (n * d * sqrt_scale * sqrt_scale))
        (Qden x * Z.to_pos sqrt_scale).

(** [Math.sqrt(a)] *)
Definition Math_sqrt (a : num) : num :=
  match a with
  | Fin x => if Qltb x 0 then NaN else Fin (Qsqrt x)
  | PInf => PInf
  | NInf => NaN
  | NaN => NaN
  end.

(** [Math.pow(a, 2)] *)
Definition Math_pow2 (a : num) : num := mul a a.

(** [10^d] *)
Definition pow10 (d : nat) : Q := inject_Z (10 ^ Z.of_nat d).

(** Nearest multiple of [10^-d] to a non-negative [x], the larger one on a
    tie. *)
Definition round_half_up (d : nat) (x : Q) : Q :=
  inject_Z (Qfloor (x * pow10 d + (1 # 2))) / pow10 d.

(** The rounding of [toFixed]: the sign is split off first. *)
Definition round_signed (d : nat) (x : Q) : Q :=
  if Qltb x 0 then - round_half_up d (- x) else round_half_up d x.

(** [Number(a.toFixed(d))] for [d] in 0..100; numbers of magnitude
    [10^21] and above are printed in full and so read back unchanged. *)
Definition toFixed (d : nat) (a : num) : num :=
  match a with
  | Fin x =>
      if Qle_bool (inject_Z (10 ^ 21)) (Qabs x) then Fin x
      else Fin (round_signed d x)
  | _ => a
  end.

(** Numbers that denote the same value. *)
Definition equiv (a b : num) : Prop :=
  match a, b with
  | Fin x, Fin y => x == y
  | PInf, PInf | NInf, NInf | NaN, NaN => True
  | _, _ => False
  end.

Definition is_NaN (a : num) : bool :=
  match a with NaN => true | _ => false end.

End JS.

Abbreviation num := JS.num.
Abbreviation Fin := JS.Fin.
Abbreviation NaN := JS.NaN.
Abbreviation PInf := JS.PInf.
Abbreviation NInf := JS.NInf.

Declare Scope js_scope.
Delimit Scope js_scope with js.
Infix "+" := JS.add : js_scope.
Infix "-" := JS.sub : js_scope.
Infix "*" := JS.mul : js_scope.
Infix "/" := JS.div : js_scope.
Infix "<?" := JS.lt : js_scope.
Infix "<=?" := JS.le : js_scope.
Infix ">?" := JS.gt : js_scope.
Infix ">=?" := JS.ge : js_scope.
Infix "≈" := JS.equiv (at level 70) : js_scope.

(** ** Control flow helpers *)

(** [for (let i = start; cond(i); i++) body] over a loop state; the fuel
    bounds the number of iterations. *)
Fixpoint for_loop {S : Type} (fuel : nat) (i : nat) (cond : nat -> bool)
    (body : nat -> S -> S) (s : S) : S :=
  match fuel with
  | O => s
  | Datatypes.S fuel' =>
      if cond i then for_loop fuel' (Datatypes.S i) cond body (body i s)
      else s
  end.

(** [arr.reduce(f, init)] *)
Definition reduce {A B : Type} (f : B -> A -> B) (init : B) (arr : list A) : B :=
  fold_left f arr init.

(** [arr.push(x)] *)
Definition push {A : Type} (arr : list A) (x : A) : list A := arr ++ [x].

(** ** Scoring helpers of the stock controller *)

Module Scoring.

Local Open Scope js_scope.

(** [prices[i]]; an index past the end reads [undefined], which arithmetic
    turns into [NaN]. *)
Definition at_ (prices : list num) (i : nat) : num := nth i prices NaN.

Definition calculateVolatility (prices : list num) : num :=
  if (length prices =? 0)%nat then Fin 0 else
  let returns :=
    for_loop (length prices) 1 (fun i => (i <? length prices)%nat)
      (fun i returns =>
         push returns ((at_ prices i - at_ prices (i - 1)) / at_ prices (i - 1)))
      [] in
  let mean := reduce (fun a b => a + b) (Fin 0) returns / JS.of_nat (length returns) in
  let variance :=
    reduce (fun a b => a + JS.Math_pow2 (b - mean)) (Fin 0) returns
    / JS.of_nat (length returns) in
  JS.Math_sqrt variance.

Record corr_acc := { numerator : num; stockDenom : num; marketDenom : num }.

Definition calculateMarketCorrelation (stockPrices marketPrices : list num) : num :=
  if negb (length stockPrices =? length marketPrices)%nat
     || (length stockPrices =? 0)%nat
  then Fin 0 else
  let rets :=
    for_loop (length stockPrices) 1 (fun i => (i <? length stockPrices)%nat)
      (fun i '(stockReturns, marketReturns) =>
         (push stockReturns
            ((at_ stockPrices i - at_ stockPrices (i - 1)) / at_ stockPrices (i - 1)),
          push marketReturns
            ((at_ marketPrices i - at_ marketPrices (i - 1)) / at_ marketPrices (i - 1))))
      ([], []) in
  let stockReturns := fst rets in
  let marketReturns := snd rets in
  let stockMean :=
    reduce (fun a b => a + b) (Fin 0) stockReturns / JS.of_nat (length stockReturns) in
  let marketMean :=
    reduce (fun a b => a + b) (Fin 0) marketReturns / JS.of_nat (length marketReturns) in
  let acc :=
    for_loop (length stockReturns) 0 (fun i => (i <? length stockReturns)%nat)
      (fun i acc =>
         let stockDiff := at_ stockReturns i - stockMean in
         let marketDiff := at_ marketReturns i - marketMean in
         {| numerator := numerator acc + stockDiff * marketDiff;
            stockDenom := stockDenom acc + stockDiff * stockDiff;
            marketDenom := marketDenom acc + marketDiff * marketDiff |})
      {| numerator := Fin 0; stockDenom := Fin 0; marketDenom := Fin 0 |} in
  numerator acc / JS.Math_sqrt (stockDenom acc * marketDenom acc).

Definition calculateConsistency (prices : list num) : num :=
  if (length prices <? 3)%nat then Fin 0 else
  let consistentMoves :=
    for_loop (length prices) 2 (fun i => (i <? length prices)%nat)
      (fun i consistentMoves =>
         let currentMove := at_ prices i - at_ prices (i - 1) in
         let previousMove := at_ prices (i - 1) - at_ prices (i - 2) in
         if ((currentMove >? Fin 0) && (previousMove >? Fin 0))
            || ((currentMove <? Fin 0) && (previousMove <? Fin 0))
         then Datatypes.S consistentMoves else consistentMoves)
      O in
  JS.of_nat consistentMoves / JS.of_nat (length prices - 2).

Definition weights : list num :=
  [Fin 0.15; Fin 0.2; Fin 0.25; Fin 0.35; Fin 0.45].

Definition calculateTrendStrength (prices : list num) : num :=
  if (length prices <? 2)%nat then Fin 0 else
  let n := length prices in
  let changes :=
    for_loop (length prices) 1
      (fun i => (i <? length prices)%nat && (i <=? length weights)%nat)
      (fun i changes =>
         let change := (at_ prices (n - i) - at_ prices (n - i - 1))
                       / at_ prices (n - i - 1) in
         push changes (change * at_ weights (i - 1)))
      [] in
  let momentum :=
    if (3 <=? length prices)%nat then
      let lastChange := (at_ prices (n - 1) - at_ prices (n - 2)) / at_ prices (n - 2) in
      let prevChange := (at_ prices (n - 2) - at_ prices (n - 3)) / at_ prices (n - 3) in
      if lastChange >? prevChange then Fin 0.02 else Fin 0
    else Fin 0 in
  let weightedTrend := reduce (fun sum change => sum + change) (Fin 0) changes in
  JS.Math_max (weightedTrend * Fin 5 + momentum) (Fin 0).

Definition calculateConfidence (volatility correlation : num) (prices : list num) : num :=
  let volatilityScore := JS.Math_max (Fin 0) (Fin 1 - volatility * Fin 8) in
  let correlationScore := JS.Math_abs correlation in
  let trendScore := calculateTrendStrength prices in
  let consistencyScore := calculateConsistency prices in
  volatilityScore * Fin 0.2 + correlationScore * Fin 0.2
  + trendScore * Fin 0.4 + consistencyScore * Fin 0.2.

End Scoring.

(** ** Exceptions *)

Inductive exn : Type :=
  | TypeError (what : string).

Inductive result (A : Type) : Type :=
  | Return (a : A)
  | Throw (e : exn).
Arguments Return {A} a.
Arguments Throw {A} e.

Definition bind {A B : Type} (m : result A) (k : A -> result B) : result B :=
  match m with
  | Return a => k a
  | Throw e => Throw e
  end.

Notation "'let*' x ':=' m 'in' k" := (bind m (fun x => k))
  (at level 10, x pattern, m at level 100, k at level 200).

(** [try { body } catch (error) { handler }] *)
Definition try_catch {A : Type} (body : result A) (handler : exn -> A) : A :=
  match body with
  | Return a => a
  | Throw e => handler e
  end.

(** [arr.sort(cmp)]: the stable sort that [Array.prototype.sort] is for a
    consistent comparator; [a] is moved behind [b] exactly when
    [cmp(a, b) > 0]. *)
Fixpoint sort_insert {A : Type} (cmp : A -> A -> num) (x : A) (l : list A) : list A :=
  match l with
  | [] => [x]
  | y :: l' =>
      if JS.gt (cmp x y) (Fin 0) then y :: sort_insert cmp x l' else x :: l
  end.

Definition js_sort {A : Type} (cmp : A -> A -> num) (l : list A) : list A :=
  foldr (sort_insert cmp) [] l.

(** ** The opportunity scanner of the stock controller *)

Module Scanner.

Import Scoring.
Local Open Scope js_scope.

(** One entry of [historical_data]; a missing property is [None]. *)
Record HistoricalEntry : Type := {
  prices : option (list num);
  volume : option (list num);
  market_prices : option (list num)
}.

Record Opportunity : Type := {
  symbol : string;
  current_price : num;
  target_price : num;
  potential_gain : num;
  confidence : num;
  volatility : num;
  market_correlation : num
}.

(** [x.toFixed(d)] on a value that may be [undefined]. *)
Definition toFixed_of (x : option num) (d : nat) : result num :=
  match x with
  | Some v => Return (JS.toFixed d v)
  | None => Throw (TypeError "Cannot read properties of undefined (reading 'toFixed')")
  end.

(** The numbers computed for one symbol before the filter. *)
Record Analysis : Type := {
  a_currentPrice : num;
  a_trendPrediction : num;
  a_potentialGain : num;
  a_confidence : num;
  a_volatility : num;
  a_marketCorrelation : num
}.

(** The body of the per-symbol callback up to the filter; the
    [console.log] call is where an [undefined] current price throws. *)
Definition analyse (historical_data : gmap string HistoricalEntry)
    (symbol : string) : result Analysis :=
  let historicalPrices := default [] (historical_data !! symbol ≫= prices) in
  let currentPrice : option num :=
    nth_error historicalPrices (length historicalPrices - 1) in
  let volatility := calculateVolatility historicalPrices in
  let marketCorrelation :=
    calculateMarketCorrelation historicalPrices
      (default [] (historical_data !! symbol ≫= market_prices)) in
  let trendStrength := calculateTrendStrength historicalPrices in
  let trendPrediction :=
    if (2 <=? length historicalPrices)%nat
    then at_ historicalPrices (length historicalPrices - 1)
         * (Fin 1 + trendStrength * Fin 0.15)
    else default NaN currentPrice * Fin 1.05 in
  let* _ := toFixed_of currentPrice 2 in
  let currentPrice := default NaN currentPrice in
  let potentialGain := ((trendPrediction - currentPrice) / currentPrice) * Fin 100 in
  let confidence := calculateConfidence volatility marketCorrelation historicalPrices in
  Return {| a_currentPrice := currentPrice;
            a_trendPrediction := trendPrediction;
            a_potentialGain := potentialGain;
            a_confidence := confidence;
            a_volatility := volatility;
            a_marketCorrelation := marketCorrelation |}.

(** The rest of the callback: the filter and the record it returns. *)
Definition select (min_gain_potential : num) (symbol : string) (a : Analysis)
    : option Opportunity :=
  if (a_potentialGain a >=? min_gain_potential) && (a_confidence a >? Fin 0.5)
  then Some {| symbol := symbol;
               current_price := a_currentPrice a;
               target_price := a_trendPrediction a;
               potential_gain := JS.toFixed 2 (a_potentialGain a);
               confidence := JS.toFixed 2 (a_confidence a);
               volatility := JS.toFixed 3 (a_volatility a);
               market_correlation := JS.toFixed 2 (a_marketCorrelation a) |}
  else None.

Definition processSymbol (historical_data : gmap string HistoricalEntry)
    (min_gain_potential : num) (symbol : string) : result (option Opportunity) :=
  let* a := analyse historical_data symbol in
  Return (select min_gain_potential symbol a).

(** [symbols.map(async (symbol) => { try { ... } catch (error) { return null } })]
    awaited by [Promise.all], then [.filter(opp => opp !== null)]. *)
Definition candidates (symbols : list string)
    (historical_data : gmap string HistoricalEntry)
    (min_gain_potential : num) : list Opportunity :=
  let opportunities :=
    map (fun symbol =>
           try_catch (processSymbol historical_data min_gain_potential symbol)
                     (fun error => None))
        symbols in
  omap id opportunities.

(** The handler's result: the candidates, sorted by descending gain. *)
Definition scan (symbols : list string)
    (historical_data : gmap string HistoricalEntry)
    (min_gain_potential : num) : list Opportunity :=
  let validOpportunities :=
    js_sort (fun a b => potential_gain b - potential_gain a)
            (candidates symbols historical_data min_gain_potential) in
  validOpportunities.

(** The request handler: body validation and the default threshold. *)
Record ScanBody : Type := {
  body_symbols : option (list string);
  body_historical_data : option (gmap string HistoricalEntry);
  body_min_gain_potential : option num
}.

Inductive ScanResponse : Type :=
  | ValidationError
  | Success (opportunities : list Opportunity).

Definition scanBlueChipStocks (body : ScanBody) : ScanResponse :=
  match body_symbols body, body_historical_data body with
  | Some symbols, Some historical_data =>
      Success (scan symbols historical_data
                 (default (Fin 5) (body_min_gain_potential body)))
  | _, _ => ValidationError
  end.

End Scanner.

(** ** The Polygon response interceptor of the data service *)

Module Provider.

Local Open Scope Z_scope.



Inductive Outcome : Type :=
  | Fulfilled (status : Z)
  | EmptyResults
  | Rejected (message : string).

(** One request put on the wire: the request config and the time, in
    milliseconds. *)
Record Attempt : Type := { sent_config : string; sent_at : Z }.


(** The delay a Node timer really uses: anything that is not between 1
    and [2^31 - 1] milliseconds becomes 1. *)
Definition timerDelay (ms : option Z) : Z :=
  match ms with
  | Some d => if (1 <=? d) && (d <=? 2147483647) then d else 1
  | None => 1
  end.

(** [await new Promise(resolve => setTimeout(resolve, ms))] on the logical
    clock. *)
Definition sleep (now : Z) (ms : option Z) : Z := now + timerDelay ms.




(** The parts of a result of [request]. *)
Definition attempts (r : list Attempt * option Outcome * Z) : list Attempt := fst (fst r).

End Provider.

(** ** The WebSocket manager of the frontend *)

Module WS.

Local Open Scope Z_scope.

Inductive ReadyState : Type := CONNECTING | OPEN | CLOSING | CLOSED.

(** A [WebSocket] object; the handlers installed on it close over the
    symbol it was created for. *)
Record WebSocket : Type := { ws_symbol : string; readyState : ReadyState }.

Record Config : Type := {
  cfg_reconnectAttempts : Z;
  cfg_reconnectInterval : Z;
  cfg_subscriptionBatchSize : nat;
  cfg_subscriptionBatchInterval : Z
}.

(** [config.x || d] on an optional number. *)
Definition or_default {A : Type} (is_falsy : A -> bool) (x : option A) (d : A) : A :=
  match x with
  | Some v => if is_falsy v then d else v
  | None => d
  end.

Definition make_config (reconnectAttempts reconnectInterval : option Z)
    (subscriptionBatchSize : option nat) (subscriptionBatchInterval : option Z) : Config :=
  {| cfg_reconnectAttempts := or_default (Z.eqb 0) reconnectAttempts 5;
     cfg_reconnectInterval := or_default (Z.eqb 0) reconnectInterval 5000;
     cfg_subscriptionBatchSize := or_default (Nat.eqb 0) subscriptionBatchSize 10%nat;
     cfg_subscriptionBatchInterval := or_default (Z.eqb 0) subscriptionBatchInterval 1000 |}.

Definition default_config : Config := make_config None None None None.

(** The manager's fields.  [connections] holds references into [sockets],
    the store of every [WebSocket] constructed so far; [subscriptionQueue]
    is the [Set] in insertion order; [sleeps] records the delays the
    manager has awaited, latest last. *)
Record Manager : Type := {
  connections : gmap string nat;
  reconnectAttempts : gmap string Z;
  subscriptionQueue : list string;
  processingQueue : bool;
  sockets : list WebSocket;
  sleeps : list Z
}.

Definition init : Manager :=
  {| connections := ∅; reconnectAttempts := ∅; subscriptionQueue := [];
     processingQueue := false; sockets := []; sleeps := [] |}.

Definition set_connections (f : gmap string nat -> gmap string nat) (m : Manager) :=
  {| connections := f (connections m); reconnectAttempts := reconnectAttempts m;
     subscriptionQueue := subscriptionQueue m; processingQueue := processingQueue m;
     sockets := sockets m; sleeps := sleeps m |}.

Definition set_reconnectAttempts (f : gmap string Z -> gmap string Z) (m : Manager) :=
  {| connections := connections m; reconnectAttempts := f (reconnectAttempts m);
     subscriptionQueue := subscriptionQueue m; processingQueue := processingQueue m;
     sockets := sockets m; sleeps := sleeps m |}.

Definition set_subscriptionQueue (f : list string -> list string) (m : Manager) :=
  {| connections := connections m; reconnectAttempts := reconnectAttempts m;
     subscriptionQueue := f (subscriptionQueue m); processingQueue := processingQueue m;
     sockets := sockets m; sleeps := sleeps m |}.

Definition set_processingQueue (b : bool) (m : Manager) :=
  {| connections := connections m; reconnectAttempts := reconnectAttempts m;
     subscriptionQueue := subscriptionQueue m; processingQueue := b;
     sockets := sockets m; sleeps := sleeps m |}.

Definition set_sockets (f : list WebSocket -> list WebSocket) (m : Manager) :=
  {| connections := connections m; reconnectAttempts := reconnectAttempts m;
     subscriptionQueue := subscriptionQueue m; processingQueue := processingQueue m;
     sockets := f (sockets m); sleeps := sleeps m |}.

(** [await new Promise(resolve => setTimeout(resolve, ms))] *)
Definition sleep (ms : Z) (m : Manager) :=
  {| connections := connections m; reconnectAttempts := reconnectAttempts m;
     subscriptionQueue := subscriptionQueue m; processingQueue := processingQueue m;
     sockets := sockets m; sleeps := sleeps m ++ [ms] |}.

(** [Set.prototype.add] and [Set.prototype.delete] on the ordered set. *)
Definition queue_add (symbol : string) (q : list string) : list string :=
  if decide (symbol ∈ q) then q else q ++ [symbol].

Definition queue_delete (symbol : string) (q : list string) : list string :=
  filter (fun s => s ≠ symbol) q.

(** [connectToSymbol]; [ctor_ok symbol] tells whether
    [new WebSocket(this.getWebSocketUrl(symbol))] returns a socket rather
    than throwing. *)
Definition connectToSymbol (ctor_ok : string -> bool) (m : Manager) (symbol : string)
    : Manager * result unit :=
  match connections m !! symbol with
  | Some _ => (m, Return tt)
  | None =>
      if ctor_ok symbol then
        let ws := length (sockets m) in
        let m := set_sockets (fun s => s ++ [{| ws_symbol := symbol; readyState := CONNECTING |}]) m in
        let m := set_connections (insert symbol ws) m in
        let m := set_reconnectAttempts (insert symbol 0) m in
        (m, Return tt)
      else (m, Throw (TypeError "Failed to construct 'WebSocket'"))
  end.

(** A connect succeeds when the symbol is already registered or a socket
    can be constructed for it. *)
Definition connectable (ctor_ok : string -> bool) (m : Manager) (s : string) : Prop :=
  is_Some (connections m !! s) \/ ctor_ok s = true.

(** [connection.close()] *)
Definition ws_close (ws : nat) (m : Manager) : Manager :=
  set_sockets
    (alter (fun s => {| ws_symbol := ws_symbol s;
                        readyState := match readyState s with
                                      | CLOSED => CLOSED
                                      | _ => CLOSING
                                      end |}) ws) m.

Definition unsubscribe (m : Manager) (symbol : string) : Manager :=
  match connections m !! symbol with
  | Some connection =>
      let m := ws_close connection m in
      let m := set_connections (delete symbol) m in
      set_reconnectAttempts (delete symbol) m
  | None => m
  end.

Definition handleDisconnection (cfg : Config) (ctor_ok : string -> bool)
    (m : Manager) (symbol : string) : Manager * result unit :=
  let attempts := default 0 (reconnectAttempts m !! symbol) in
  if attempts <? cfg_reconnectAttempts cfg then
    let m := set_reconnectAttempts (insert symbol (attempts + 1)) m in
    let m := sleep (cfg_reconnectInterval cfg) m in
    connectToSymbol ctor_ok m symbol
  else (unsubscribe m symbol, Return tt).

(** The transport reports that socket [ws] has closed: its state becomes
    [CLOSED] and its [onclose] handler runs. *)
Definition on_close (cfg : Config) (ctor_ok : string -> bool)
    (m : Manager) (ws : nat) : Manager * result unit :=
  match sockets m !! ws with
  | Some s =>
      let m := set_sockets
                 (alter (fun s => {| ws_symbol := ws_symbol s; readyState := CLOSED |}) ws) m in
      handleDisconnection cfg ctor_ok m (ws_symbol s)
  | None => (m, Return tt)
  end.

(** The transport reports that socket [ws] is open. *)
Definition on_open (m : Manager) (ws : nat) : Manager :=
  set_sockets
    (alter (fun s => {| ws_symbol := ws_symbol s;
                        readyState := match readyState s with
                                      | CONNECTING => OPEN
                                      | st => st
                                      end |}) ws) m.

(** [batch.map(symbol => this.connectToSymbol(symbol))]: every connect of
    the batch runs, in order, whatever the others do. *)
Fixpoint connectBatch (ctor_ok : string -> bool) (m : Manager) (batch : list string)
    : Manager * list (result unit) :=
  match batch with
  | [] => (m, [])
  | symbol :: batch' =>
      let '(m, r) := connectToSymbol ctor_ok m symbol in
      let '(m, rs) := connectBatch ctor_ok m batch' in
      (m, r :: rs)
  end.

Definition is_return {A : Type} (r : result A) : bool :=
  match r with Return _ => true | Throw _ => false end.

(** [await Promise.all(promises)] resolves when no promise rejects. *)
Definition promise_all {A : Type} (rs : list (result A)) : bool := forallb is_return rs.

(** One turn of the [while] loop of [processSubscriptionQueue], up to the
    pause between batches. *)
Definition drainStep (cfg : Config) (ctor_ok : string -> bool) (m : Manager) : Manager :=
  let batch := take (cfg_subscriptionBatchSize cfg) (subscriptionQueue m) in
  let '(m, promises) := connectBatch ctor_ok m batch in
  if promise_all promises
  then set_subscriptionQueue (fun q => foldl (fun q symbol => queue_delete symbol q) q batch) m
  else m.

(** [processSubscriptionQueue]; [None] when the loop is still running
    after [fuel] turns. *)
Fixpoint drainLoop (cfg : Config) (ctor_ok : string -> bool) (fuel : nat) (m : Manager)
    : option Manager :=
  match fuel with
  | O => None
  | S fuel' =>
      if (0 <? length (subscriptionQueue m))%nat then
        let m := drainStep cfg ctor_ok m in
        let m := if (0 <? length (subscriptionQueue m))%nat
                 then sleep (cfg_subscriptionBatchInterval cfg) m else m in
        drainLoop cfg ctor_ok fuel' m
      else Some (set_processingQueue false m)
  end.

Definition processSubscriptionQueue (cfg : Config) (ctor_ok : string -> bool)
    (fuel : nat) (m : Manager) : option Manager :=
  drainLoop cfg ctor_ok fuel (set_processingQueue true m).

Definition subscribe (cfg : Config) (ctor_ok : string -> bool) (fuel : nat)
    (m : Manager) (symbol : string) : option Manager :=
  let m := set_subscriptionQueue (queue_add symbol) m in
  if negb (processingQueue m) then processSubscriptionQueue cfg ctor_ok fuel m
  else Some m.

Inductive ConnectionStatus : Type := connected | connecting | disconnected.

Definition getConnectionStatus (m : Manager) (symbol : string) : ConnectionStatus :=
  match connections m !! symbol with
  | None => disconnected
  | Some connection =>
      match readyState <$> sockets m !! connection with
      | Some OPEN => connected
      | _ => connecting
      end
  end.

End WS.

(** ** JavaScript values *)

Module Value.

(** A property of an object that arrived as JSON or was computed from
    one: a number, [undefined], [null], or any other value (a string, a
    boolean, an array, an object), which is given by what it is, its
    truthiness and the number that an arithmetic operator makes of it. *)
Inductive value : Type :=
  | Number (n : num)
  | Undefined
  | Null
  | Other (what : string) (truthy : bool) (number : num).

(** The number that an arithmetic operator makes of a value. *)
Definition ToNumber (v : value) : num :=
  match v with
  | Number n => n
  | Undefined => NaN
  | Null => Fin 0
  | Other _ _ n => n
  end.

(** Truthiness: [undefined], [null], [0] and [NaN] are falsy. *)
Definition truthy (v : value) : bool :=
  match v with
  | Number (JS.Fin q) => negb (Qeq_bool q 0)
  | Number JS.NaN => false
  | Number _ => true
  | Undefined => false
  | Null => false
  | Other _ t _ => t
  end.

End Value.

(** ** The stock update hook of the frontend *)

Module Reconciler.

Export Value.

Inductive MessageType : Type := trade | quote | error.

(** The fields of [message.data] that the hook reads; an absent field is
    [Undefined]. *)
Record Payload : Type := {
  d_p : value;
  d_price : value;
  d_c : value;
  d_change : value;
  d_changePercent : value;
  d_v : value;
  d_volume : value
}.

(** A message of the manager's stream; [m_data] is [None] when the frame
    parsed to [null]. *)
Record WebSocketMessage : Type := {
  m_type : MessageType;
  m_symbol : string;
  m_data : option Payload;
  m_timestamp : Z
}.

Record StockUpdate : Type := {
  symbol : string;
  price : value;
  change : value;
  changePercent : value;
  volume : value;
  timestamp : Z
}.

(** [a || b] *)
Definition or_else (a b : value) : value := if truthy a then a else b.

Record Options : Type := {
  has_onUpdate : bool;
  batchUpdates : bool;
  updateInterval : Z
}.

(** The hook's state: the [updates] map in insertion order, the [error]
    text, and the calls made to [onUpdate] so far, latest last. *)
Record Hook : Type := {
  updates : list (string * StockUpdate);
  error_text : option string;
  calls : list StockUpdate
}.

Definition mount : Hook := {| updates := []; error_text := None; calls := [] |}.

(** [new Map(prev).set(key, value)]: an existing key keeps its place. *)
Fixpoint map_set (key : string) (value : StockUpdate)
    (m : list (string * StockUpdate)) : list (string * StockUpdate) :=
  match m with
  | [] => [(key, value)]
  | (k, v) :: m' =>
      if String.eqb k key then (k, value) :: m' else (k, v) :: map_set key value m'
  end.

(** [Array.from(updates.values())] *)
Definition values (m : list (string * StockUpdate)) : list StockUpdate := map snd m.

(** The update built from a message that is not an error; reading a field
    of a [null] payload throws. *)
Definition make_update (message : WebSocketMessage) : result StockUpdate :=
  match m_data message with
  | None => Throw (TypeError "Cannot read properties of null")
  | Some data =>
      Return {| symbol := m_symbol message;
                price := match m_type message with
                         | trade => or_else (d_p data) (d_price data)
                         | _ => d_c data
                         end;
                change := or_else (d_change data) (Number (Fin 0));
                changePercent := or_else (d_changePercent data) (Number (Fin 0));
                volume := or_else (or_else (d_v data) (d_volume data)) (Number (Fin 0));
                timestamp := m_timestamp message |}
  end.

Definition processMessage (opts : Options) (h : Hook) (message : WebSocketMessage) : Hook :=
  match m_type message with
  | error =>
      {| updates := updates h;
         error_text := Some ("WebSocket error for " ++ m_symbol message)%string;
         calls := calls h |}
  | _ =>
      try_catch
        (let* update := make_update message in
         Return {| updates := map_set (m_symbol message) update (updates h);
                   error_text := error_text h;
                   calls := if negb (batchUpdates opts) && has_onUpdate opts
                            then calls h ++ [update] else calls h |})
        (fun err =>
           {| updates := updates h;
              error_text := Some "Failed to process stock update";
              calls := calls h |})
  end.

(** What one firing of the batch interval hands to [onUpdate], in order;
    the interval exists only when [batchUpdates] and [onUpdate] are set. *)
Definition flush (opts : Options) (h : Hook) : list StockUpdate :=
  if batchUpdates opts && has_onUpdate opts then
    if (0 <? length (updates h))%nat then values (updates h) else []
  else [].

Definition tick (opts : Options) (h : Hook) : Hook :=
  {| updates := updates h; error_text := error_text h;
     calls := calls h ++ flush opts h |}.

Inductive Event : Type :=
  | Message (message : WebSocketMessage)
  | Tick.

Definition step (opts : Options) (h : Hook) (e : Event) : Hook :=
  match e with
  | Message message => processMessage opts h message
  | Tick => tick opts h
  end.

Definition run (opts : Options) (events : list Event) : Hook :=
  foldl (step opts) mount events.

(** The batches handed over by the flushes of a trace, one per [Tick]. *)
Fixpoint flushes (opts : Options) (h : Hook) (events : list Event) : list (list StockUpdate) :=
  match events with
  | [] => []
  | Tick :: events' => flush opts h :: flushes opts (tick opts h) events'
  | Message message :: events' => flushes opts (processMessage opts h message) events'
  end.

End Reconciler.

(** ** The specification's wording of the trend strength *)

Module ScoringSpec.

Local Open Scope js_scope.

(** Simple period returns [(p[i] - p[i-1]) / p[i-1]], oldest first. *)
Fixpoint returns (p : list num) : list num :=
  match p with
  | a :: ((b :: _) as rest) => (b - a) / a :: returns rest
  | _ => []
  end.

(** The last [n] elements. *)
Definition last_n {A : Type} (n : nat) (l : list A) : list A := drop (length l - n) l.

(** [0.02] when the most recent return exceeds the one before it; the
    returns are given most recent first. *)
Definition momentum_bonus (recent : list num) : num :=
  match recent with
  | r1 :: r2 :: _ => if r1 >? r2 then Fin 0.02 else Fin 0
  | _ => Fin 0
  end.

(** As the specification words it: the window of the last five returns,
    the weights laid over it from its oldest return on, the bonus, the
    floor at zero. *)
Definition trendStrength_described (p : list num) : num :=
  let window := last_n 5 (returns p) in
  let weighted := zip_with JS.mul window Scoring.weights in
  JS.Math_max (reduce JS.add (Fin 0) weighted + momentum_bonus (reverse (returns p))) (Fin 0).

(** Five times the sum of the most recent returns, each under the weight
    that [ws] has at its place, then the bonus and the floor at zero; the
    returns are taken most recent first, as many as there are weights. *)
Definition trendStrength_weighted (ws : list num) (p : list num) : num :=
  let recent := reverse (returns p) in
  let weighted := zip_with JS.mul recent ws in
  JS.Math_max (reduce JS.add (Fin 0) weighted * Fin 5 + momentum_bonus recent) (Fin 0).

(** The loop of [calculateTrendStrength] in closed form: the code reads
    the weights from the first one on while it walks the returns from the
    most recent one back. *)
Definition trendStrength_recent_first (p : list num) : num :=
  let recent := reverse (returns p) in
  let weighted := zip_with JS.mul recent Scoring.weights in
  JS.Math_max (reduce JS.add (Fin 0) weighted * Fin 5 + momentum_bonus recent) (Fin 0).

(** Numbers that are finite, and finite and positive. *)
Definition finite (x : num) : Prop := exists q, x = Fin q.

Definition positive (x : num) : Prop := exists q, x = Fin q /\ 0 < q.

(** Valid, non-degenerate inputs of the confidence score: a volatility
    that is not negative, a correlation in [-1, 1], positive prices. *)
Definition valid_inputs (volatility correlation : num) (prices : list num) : Prop :=
  (exists v, volatility = Fin v /\ 0 <= v)
  /\ (exists c, correlation = Fin c /\ -1 <= c <= 1)
  /\ Forall positive prices.

End ScoringSpec.

(** ** The specification's wording of the batched delivery *)

Module ReconcilerSpec.

Import Reconciler.

(** [updates.get(key)] *)
Fixpoint map_get (key : string) (m : list (string * StockUpdate)) : option StockUpdate :=
  match m with
  | [] => None
  | (k, v) :: m' => if String.eqb k key then Some v else map_get key m'
  end.

(** The update a message stores, if it stores one. *)
Definition stored (message : WebSocketMessage) : option StockUpdate :=
  match m_type message with
  | error => None
  | _ => match make_update message with
         | Return u => Some u
         | Throw _ => None
         end
  end.

(** The update of the last message of the trace that stored one for
    [sym]. *)
Fixpoint latest (events : list Event) (sym : string) : option StockUpdate :=
  match events with
  | [] => None
  | e :: events' =>
      match latest events' sym with
      | Some u => Some u
      | None =>
          match e with
          | Message message =>
              if String.eqb (m_symbol message) sym then stored message else None
          | Tick => None
          end
      end
  end.

(** As the specification words it: a flush hands over the updates that
    arrived since the previous flush, the latest per symbol. *)
Fixpoint flushes_described (pending : list (string * StockUpdate))
    (events : list Event) : list (list StockUpdate) :=
  match events with
  | [] => []
  | Tick :: events' => values pending :: flushes_described [] events'
  | Message message :: events' =>
      match stored message with
      | Some u => flushes_described (map_set (m_symbol message) u pending) events'
      | None => flushes_described pending events'
      end
  end.

(** The [updates] map holds one entry per symbol, each under the symbol
    of the update. *)
Definition well_keyed (m : list (string * StockUpdate)) : Prop :=
  NoDup (map fst m) /\ Forall (fun kv => symbol (snd kv) = fst kv) m.

End ReconcilerSpec.

(** ** Sample inputs *)

Module Samples.

Definition nums (l : list Z) : list num := map (fun z => Fin (inject_Z z)) l.

Definition entry (l : list Z) : Scanner.HistoricalEntry :=
  {| Scanner.prices := Some (nums l);
     Scanner.volume := None;
     Scanner.market_prices := None |}.

(** Four symbols: "A" with confidence 0.5033 and gain 11.37375, "B" with
    gain exactly 5, "C" with gain exactly 4.99, and "D" without history. *)
Definition history : gmap string Scanner.HistoricalEntry :=
  <["A" := entry [1000; 2011]%Z]>
    (<["B" := entry [441; 525; 625]%Z]>
       (<["C" := entry [1125; 1624]%Z]> ∅)).



Definition all_ok (symbol : string) : bool := true.

(** A manager with three symbols pending, none connected yet. *)
Definition three_pending : WS.Manager :=
  WS.set_subscriptionQueue (fun _ => ["AAPL"; "BAD"; "MSFT"]) WS.init.

(** A manager after a first successful connect of one symbol. *)
Definition one_connected : WS.Manager :=
  fst (WS.connectToSymbol all_ok WS.init "AAPL").

Definition fails_on (bad : string) (symbol : string) : bool := negb (String.eqb symbol bad).

Definition tick_of (sym : string) (px : Q) (ts : Z) : Reconciler.WebSocketMessage :=
  {| Reconciler.m_type := Reconciler.trade;
     Reconciler.m_symbol := sym;
     Reconciler.m_data :=
       Some {| Reconciler.d_p := Value.Number (Fin px);
               Reconciler.d_price := Value.Undefined;
               Reconciler.d_c := Value.Undefined;
               Reconciler.d_change := Value.Undefined;
               Reconciler.d_changePercent := Value.Undefined;
               Reconciler.d_v := Value.Undefined;
               Reconciler.d_volume := Value.Undefined |};
     Reconciler.m_timestamp := ts |}.

Definition aapl_150 : Reconciler.WebSocketMessage := tick_of "AAPL" 150 1.

(** The fields of a frame whose price is a string. *)
Definition text_price : Reconciler.Payload :=
  {| Reconciler.d_p := Value.Other "the string 150.5" true (Fin 150.5);
     Reconciler.d_price := Value.Undefined;
     Reconciler.d_c := Value.Undefined;
     Reconciler.d_change := Value.Undefined;
     Reconciler.d_changePercent := Value.Undefined;
     Reconciler.d_v := Value.Undefined;
     Reconciler.d_volume := Value.Undefined |}.

Definition batching : Reconciler.Options :=
  {| Reconciler.has_onUpdate := true;
     Reconciler.batchUpdates := true;
     Reconciler.updateInterval := 1000 |}.

End Samples.

(** ** The rest of the WebSocket manager *)

Module WSTrace.

Import WS.
Local Open Scope Z_scope.

(** [Array.from(this.connections.keys())]; the keys come in the order of
    the finite map, not in the order of insertion. *)
Definition getActiveSubscriptions (m : Manager) : list string :=
  (map_to_list (connections m)).*1.

(** [this.connections.forEach((ws, symbol) => this.unsubscribe(symbol))] *)
Definition unsubscribeAll (m : Manager) : Manager :=
  foldl unsubscribe m (getActiveSubscriptions m).

(** What can happen to a manager: the steps of its own methods and the
    reports of the transport. *)
Inductive Event : Type :=
  | Enqueue (symbol : string)
  | Drain
  | Connect (symbol : string)
  | Unsubscribe (symbol : string)
  | UnsubscribeAll
  | Disconnected (symbol : string)
  | Opened (ws : nat)
  | Closed (ws : nat).

Definition apply_event (cfg : Config) (ctor_ok : string -> bool)
    (m : Manager) (e : Event) : Manager :=
  match e with
  | Enqueue symbol => set_subscriptionQueue (queue_add symbol) m
  | Drain => drainStep cfg ctor_ok m
  | Connect symbol => fst (connectToSymbol ctor_ok m symbol)
  | Unsubscribe symbol => unsubscribe m symbol
  | UnsubscribeAll => unsubscribeAll m
  | Disconnected symbol => fst (handleDisconnection cfg ctor_ok m symbol)
  | Opened ws => on_open m ws
  | Closed ws => fst (on_close cfg ctor_ok m ws)
  end.

Definition after (cfg : Config) (ctor_ok : string -> bool) (events : list Event) : Manager :=
  foldl (apply_event cfg ctor_ok) init events.

(** Every registered symbol refers to a socket of the store that was
    constructed for that symbol. *)
Definition registry_ok (m : Manager) : Prop :=
  forall s ws, connections m !! s = Some ws ->
    exists sock, sockets m !! ws = Some sock /\ ws_symbol sock = s.

(** The reconnect counters lie between 0 and the configured maximum. *)
Definition counters_ok (cfg : Config) (m : Manager) : Prop :=
  forall s n, reconnectAttempts m !! s = Some n ->
    0 <= n <= cfg_reconnectAttempts cfg.

(** [handleDisconnection] called [k] times in a row for one symbol. *)
Fixpoint disconnections (cfg : Config) (ctor_ok : string -> bool) (k : nat)
    (m : Manager) (symbol : string) : Manager :=
  match k with
  | O => m
  | S k' => disconnections cfg ctor_ok k'
              (fst (handleDisconnection cfg ctor_ok m symbol)) symbol
  end.

End WSTrace.

(** ** The message stream between the manager and the hook *)

Module Stream.

Import Reconciler.

(** What [JSON.parse(event.data)] evaluates to, as far as the handler and
    the hook look at it: [null], or a value whose properties can be read;
    [is_error] is [data.type === 'error']. *)
Inductive Json : Type :=
  | JNull
  | JValue (is_error : bool) (fields : Payload).

Definition determineMessageType (data : Json) : result MessageType :=
  match data with
  | JNull => Throw (TypeError "Cannot read properties of null (reading 'type')")
  | JValue is_error fields =>
      if is_error then Return error
      else if truthy (or_else (d_p fields) (d_price fields)) then Return trade
      else Return quote
  end.

Definition payload_of (data : Json) : option Payload :=
  match data with
  | JNull => None
  | JValue _ fields => Some fields
  end.

(** [ws.onmessage]: what is handed to [messageSubject.next], if anything;
    [parsed] is the outcome of [JSON.parse(event.data)] and [now] is
    [Date.now()]. *)
Definition onmessage (symbol : string) (parsed : result Json) (now : Z)
    : option WebSocketMessage :=
  try_catch
    (let* data := parsed in
     let* type := determineMessageType data in
     Return (Some {| m_type := type; m_symbol := symbol;
                     m_data := payload_of data; m_timestamp := now |}))
    (fun error => None).

(** The hook's accessors. *)
Definition getLatestUpdate (h : Hook) (symbol : string) : option StockUpdate :=
  ReconcilerSpec.map_get symbol (updates h).

Definition getAllUpdates (h : Hook) : list StockUpdate := values (updates h).

(** The updates that the messages of a trace store, in order of arrival. *)
Definition stored_updates (events : list Event) : list StockUpdate :=
  omap (fun e => match e with
                 | Message message => ReconcilerSpec.stored message
                 | Tick => None
                 end) events.

(** The symbols of a list in the order of their first occurrence. *)
Definition first_seen (symbols : list string) : list string :=
  foldl (fun q s => WS.queue_add s q) [] symbols.

End Stream.

(** ** The scanner page of the frontend *)

Module ScannerPage.

Local Open Scope js_scope.

Export Value.

Record StockOpportunity : Type := {
  symbol : string;
  potential_gain : value;
  confidence : value;
  target_price : value;
  current_price : value;
  volatility : value;
  market_correlation : value
}.

Definition batchSize : nat := 3.

(** [arr.slice(a, b)] for [a <= b] *)
Definition slice {A : Type} (a b : nat) (arr : list A) : list A :=
  take (b - a) (drop a arr).

(** [for (let i = 0; i < selectedStocks.length; i += batchSize)
       batches.push(selectedStocks.slice(i, i + batchSize))] *)
Fixpoint split_batches (fuel : nat) (i : nat) (selectedStocks : list string)
    (batches : list (list string)) : list (list string) :=
  match fuel with
  | O => batches
  | S fuel' =>
      if (i <? length selectedStocks)%nat then
        split_batches fuel' (i + batchSize) selectedStocks
          (push batches (slice i (i + batchSize) selectedStocks))
      else batches
  end.

(** The callback of [scanResults.forEach]: a result is pushed unless its
    symbol is there already. *)
Definition add_new (newOpps : list StockOpportunity) (opp : StockOpportunity)
    : list StockOpportunity :=
  if existsb (fun existing => String.eqb (symbol existing) (symbol opp)) newOpps
  then newOpps else push newOpps opp.

(** The updater passed to [setOpportunities] after an intermediate scan. *)
Definition merge (scanResults prev : list StockOpportunity) : list StockOpportunity :=
  let newOpps := foldl add_new prev scanResults in
  js_sort (fun a b => ToNumber (potential_gain b) - ToNumber (potential_gain a)) newOpps.

(** [update.price] *)
Definition price_of (update : Reconciler.StockUpdate) : value :=
  Reconciler.price update.

(** [{...opp, current_price: price,
      potential_gain: ((opp.target_price - price) / price) * 100}] *)
Definition with_price (opp : StockOpportunity) (price : value) : StockOpportunity :=
  {| symbol := symbol opp;
     potential_gain :=
       Number (((ToNumber (target_price opp) - ToNumber price) / ToNumber price) * Fin 100);
     confidence := confidence opp;
     target_price := target_price opp;
     current_price := price;
     volatility := volatility opp;
     market_correlation := market_correlation opp |}.

(** The updater passed to [setOpportunities] by the page's [onUpdate]. *)
Definition onUpdate (update : Reconciler.StockUpdate) (prev : list StockOpportunity)
    : list StockOpportunity :=
  map (fun opp =>
         if String.eqb (symbol opp) (Reconciler.symbol update)
         then with_price opp (price_of update)
         else opp)
      prev.

(** One flush of the hook, [batchedUpdates.forEach(update => onUpdate(update))],
    the updaters applied in the order of the calls. *)
Definition deliver (batch : list Reconciler.StockUpdate) (prev : list StockOpportunity)
    : list StockOpportunity :=
  foldl (fun opps update => onUpdate update opps) prev batch.

(** What a delivery does to one opportunity. *)
Definition deliver1 (batch : list Reconciler.StockUpdate) (opp : StockOpportunity)
    : StockOpportunity :=
  foldl (fun o update =>
           if String.eqb (symbol o) (Reconciler.symbol update)
           then with_price o (price_of update) else o)
        opp batch.

(** The price of the last update of the batch for a symbol. *)
Definition last_price (batch : list Reconciler.StockUpdate) (s : string) : option value :=
  foldl (fun p update =>
           if String.eqb s (Reconciler.symbol update) then Some (price_of update) else p)
        None batch.

(** A sample opportunity. *)
Definition shown (s : string) (gain : Z) : StockOpportunity :=
  {| symbol := s; potential_gain := Number (Fin (inject_Z gain));
     confidence := Number (Fin 0.6); target_price := Number (Fin 110);
     current_price := Number (Fin 100); volatility := Number (Fin 0.01);
     market_correlation := Null |}.

End ScannerPage.

(** ** Historical data in the data service *)

Module DataService.

Local Open Scope js_scope.

(** An object of [response.data.results]; a field is [None] when [typeof]
    does not give ['number'] for it. *)
Record RawBar : Type := {
  r_t : option Q;
  r_o : option Q;
  r_h : option Q;
  r_l : option Q;
  r_c : option Q;
  r_v : option Q
}.

Record Bar : Type := {
  timestamp : option Q;
  open : option Q;
  high : option Q;
  low : option Q;
  close : option Q;
  volume : option Q
}.

(** [response.data] by the tests made on it: not an object, without an
    array of results, or with one; an element of the array that is falsy
    is [None]. *)
Inductive Body : Type :=
  | NotAnObject
  | NoResults
  | Results (results : list (option RawBar)).

(** How [await this.polygon.get(...)] ends. *)
Inductive Got : Type :=
  | Rejects
  | Resolves (data : Body).

Definition is_number (x : option Q) : bool :=
  match x with Some _ => true | None => false end.

(** The test of [results.filter]: the element if it passes. *)
Definition validate (bar : option RawBar) : option RawBar :=
  match bar with
  | Some bar =>
      if is_number (r_t bar) && is_number (r_o bar) && is_number (r_h bar)
         && is_number (r_l bar) && is_number (r_c bar) && is_number (r_v bar)
      then Some bar else None
  | None => None
  end.

(** [bar.t] as the comparator of the sort reads it; the sort only sees
    bars that passed the filter. *)
Definition t_of (bar : RawBar) : num :=
  match r_t bar with
  | Some t => Fin t
  | None => NaN
  end.

Definition to_bar (bar : RawBar) : Bar :=
  {| timestamp := r_t bar; open := r_o bar; high := r_h bar;
     low := r_l bar; close := r_c bar; volume := r_v bar |}.

(** [global.stockCache], by key; an entry is the list that was
    stringified into it, and entries are taken not to expire between the
    calls considered. *)
Definition Cache : Type := gmap string (list Bar).

Definition cacheKey (symbol range interval : string) : string :=
  ("historical_" ++ symbol ++ "_" ++ range ++ "_" ++ interval)%string.

Definition maxRetries : nat := 3.

(** The [try] block of one attempt: [None] when it throws, else what it
    returns and the cache it leaves. *)
Definition attempt_body (cache : Cache) (key : string) (got : Got)
    : option (list Bar * Cache) :=
  match got with
  | Rejects => None
  | Resolves NotAnObject => None
  | Resolves NoResults => Some ([], cache)
  | Resolves (Results results) =>
      let validBars := omap validate results in
      if (length validBars =? 0)%nat then Some ([], cache)
      else
        let historicalData :=
          map to_bar (js_sort (fun a b => t_of a - t_of b) validBars) in
        let cache :=
          if (0 <? length historicalData)%nat
          then <[key := historicalData]> cache else cache in
        Some (historicalData, cache)
  end.

Record Run : Type := {
  returned : list Bar;
  requests : nat;
  waits : list Z;
  cache_after : Cache
}.

(** [for (let attempt = 0; attempt < maxRetries; attempt++)] with
    [remaining = maxRetries - attempt]; [get k] is how the [k]-th call of
    [this.polygon.get] ends. *)
Fixpoint retry (remaining attempt : nat) (get : nat -> Got) (cache : Cache)
    (key : string) (waited : list Z) : Run :=
  match remaining with
  | O => {| returned := []; requests := attempt; waits := waited; cache_after := cache |}
  | S remaining' =>
      match attempt_body cache key (get attempt) with
      | Some (historicalData, cache) =>
          {| returned := historicalData; requests := S attempt;
             waits := waited; cache_after := cache |}
      | None =>
          let waited :=
            if (attempt <? maxRetries - 1)%nat
            then waited ++ [Z.min (1000 * 2 ^ Z.of_nat attempt) 10000]
            else waited in
          retry remaining' (S attempt) get cache key waited
      end
  end.

Definition getHistoricalData (cache : Cache) (get : nat -> Got)
    (symbol range interval : string) : Run :=
  let key := cacheKey symbol range interval in
  match cache !! key with
  | Some cachedData =>
      {| returned := cachedData; requests := 0; waits := []; cache_after := cache |}
  | None => retry maxRetries 0 get cache key []
  end.

(** A bar whose six fields are numbers, and the order of timestamps. *)
Definition numeric (bar : Bar) : Prop :=
  is_Some (timestamp bar) /\ is_Some (open bar) /\ is_Some (high bar)
  /\ is_Some (low bar) /\ is_Some (close bar) /\ is_Some (volume bar).

Definition not_after (a b : Bar) : Prop :=
  forall x y, timestamp a = Some x -> timestamp b = Some y -> (x <= y)%Q.

(** Sample bars and a provider that fails once. *)
Definition bar_at (t c : Z) : option RawBar :=
  Some {| r_t := Some (inject_Z t); r_o := Some (inject_Z c); r_h := Some (inject_Z c);
          r_l := Some (inject_Z c); r_c := Some (inject_Z c); r_v := Some 1000 |}.

Definition fails_once (k : nat) : Got :=
  match k with
  | O => Rejects
  | _ => Resolves (Results [bar_at 3 103; None; bar_at 1 101; bar_at 2 102])
  end.

End DataService.

(** ** The list of blue-chip stocks in the data service *)

Module BlueChips.

Export Value.
Local Open Scope js_scope.

Record Stock : Type := {
  symbol : string;
  name : string;
  market_cap : value;
  primary_exchange : string
}.

Definition staticBlueChips : list Stock :=
  [ {| symbol := "AAPL"; name := "Apple Inc.";
       market_cap := Number (Fin 3000000000000); primary_exchange := "NASDAQ" |};
    {| symbol := "MSFT"; name := "Microsoft Corporation";
       market_cap := Number (Fin 2800000000000); primary_exchange := "NASDAQ" |};
    {| symbol := "GOOGL"; name := "Alphabet Inc.";
       market_cap := Number (Fin 1800000000000); primary_exchange := "NASDAQ" |};
    {| symbol := "AMZN"; name := "Amazon.com Inc.";
       market_cap := Number (Fin 1600000000000); primary_exchange := "NASDAQ" |};
    {| symbol := "NVDA"; name := "NVIDIA Corporation";
       market_cap := Number (Fin 1200000000000); primary_exchange := "NASDAQ" |};
    {| symbol := "META"; name := "Meta Platforms Inc.";
       market_cap := Number (Fin 1000000000000); primary_exchange := "NASDAQ" |};
    {| symbol := "BRK.B"; name := "Berkshire Hathaway Inc.";
       market_cap := Number (Fin 800000000000); primary_exchange := "NYSE" |};
    {| symbol := "LLY"; name := "Eli Lilly and Company";
       market_cap := Number (Fin 700000000000); primary_exchange := "NYSE" |};
    {| symbol := "TSM"; name := "Taiwan Semiconductor Manufacturing";
       market_cap := Number (Fin 600000000000); primary_exchange := "NYSE" |};
    {| symbol := "V"; name := "Visa Inc.";
       market_cap := Number (Fin 500000000000); primary_exchange := "NYSE" |} ].

(** An element of the listing's results. *)
Record Ticker : Type := {
  ticker : string;
  t_name : string;
  t_primary_exchange : string
}.

(** How the request for the details of one ticker ends: rejected, with
    [error.response?.status] if there is one, or resolved, with the value
    of [detailsResponse.data?.results?.market_cap], whatever it is. *)
Inductive Details : Type :=
  | DetailsRejected (status : option Z)
  | DetailsResolved (market_cap : value).

(** How the request for the listing ends; each ticker of the results
    comes with the end of the request that is made for it, should one be
    made, and an element of the results that is [null] is [None]. *)
Inductive Listing : Type :=
  | ListingRejected
  | ListingResolved (results : option (list (option (Ticker * Details)))).

(** The local list, the cache entry ['blue_chip_stocks'] and the delays
    awaited. *)
Record State : Type := {
  blueChipStocks : list Stock;
  cache : option (list Stock);
  delays : list Z
}.

Definition delay (ms : Z) (st : State) : State :=
  {| blueChipStocks := blueChipStocks st; cache := cache st;
     delays := delays st ++ [ms] |}.

Definition has_symbol (stocks : list Stock) (s : string) : bool :=
  existsb (fun existing => String.eqb (symbol existing) s) stocks.

(** The body of [for (const stock of response.data.results)]. *)
Definition process (st : State) (entry : Ticker * Details) : State :=
  let '(stock, details) := entry in
  if has_symbol (blueChipStocks st) (ticker stock) then st
  else
    let st := delay 2000 st in
    match details with
    | DetailsRejected status =>
        match status with
        | Some code => if (code =? 429)%Z then delay 10000 st else st
        | None => st
        end
    | DetailsResolved cap =>
        if truthy cap then
          let newStock :=
            {| symbol := ticker stock; name := t_name stock;
               market_cap := cap; primary_exchange := t_primary_exchange stock |} in
          if negb (has_symbol (blueChipStocks st) (symbol newStock)) then
            let stocks :=
              js_sort (fun a b => ToNumber (market_cap b) - ToNumber (market_cap a))
                      (push (blueChipStocks st) newStock) in
            {| blueChipStocks := stocks; cache := Some stocks; delays := delays st |}
          else st
        else st
    end.

(** [for (const stock of response.data.results)]: on a [null] element
    reading [stock.ticker] throws, in the [try] block and again in its
    handler, which leaves the loop for the handler of the listing. *)
Fixpoint process_all (st : State) (results : list (option (Ticker * Details))) : State :=
  match results with
  | [] => st
  | None :: _ => st
  | Some entry :: results' => process_all (process st entry) results'
  end.

(** [getBlueChipStocks] on a cache entry and a listing: the list it
    returns is [blueChipStocks] of the result. *)
Definition getBlueChipStocks (cached : option (list Stock)) (listing : Listing) : State :=
  match cached with
  | Some cachedData =>
      {| blueChipStocks := cachedData; cache := cached; delays := [] |}
  | None =>
      let st := {| blueChipStocks := staticBlueChips; cache := None; delays := [] |} in
      match listing with
      | ListingRejected => st
      | ListingResolved None => st
      | ListingResolved (Some results) => process_all st results
      end
  end.

(** Descending order of market capitalisation, as the comparator of the
    sort reads it. *)
Definition by_cap (stocks : list Stock) : Prop :=
  StronglySorted (fun a b => JS.ge (ToNumber (market_cap a))
                                   (ToNumber (market_cap b)) = true) stocks.

(** Every market capitalisation converts to a number. *)
Definition numeric_caps (stocks : list Stock) : Prop :=
  Forall (fun s => JS.is_NaN (ToNumber (market_cap s)) = false) stocks.

(** What holds of the local list and the cache entry throughout. *)
Definition listed (st : State) : Prop :=
  (forall s, s ∈ staticBlueChips -> s ∈ blueChipStocks st)
  /\ NoDup (map symbol (blueChipStocks st))
  /\ (numeric_caps (blueChipStocks st) -> by_cap (blueChipStocks st))
  /\ match cache st with
     | Some stocks =>
         stocks = blueChipStocks st
         /\ (length staticBlueChips < length (blueChipStocks st))%nat
     | None => blueChipStocks st = staticBlueChips
     end.

End BlueChips.

(** * Properties *)

(** ** Loops and arrays *)

Section Loops.
Context {S : Type}.

(** A counting loop with an upper bound is a fold over the indices it
    visits, provided the fuel covers them. *)
Lemma for_loop_seq (cond : nat -> bool) (body : nat -> S -> S) (n : nat) :
  (forall i, cond i = (i <? n)%nat) ->
  forall fuel i s, (n - i <= fuel)%nat ->
    for_loop fuel i cond body s
    = fold_left (fun s i => body i s) (seq i (n - i)) s.
Proof.
  intros Hc. induction fuel as [|fuel IH]; intros i s Hf.
  - replace (n - i)%nat with O by lia. reflexivity.
  - simpl. rewrite Hc. destruct (Nat.ltb_spec i n) as [Hlt|Hge].
    + replace (n - i)%nat with (Datatypes.S (n - Datatypes.S i)) by lia.
      simpl. apply IH. lia.
    + replace (n - i)%nat with O by lia. reflexivity.
Qed.
End Loops.

Lemma fold_push {A : Type} (f : nat -> A) (l : list nat) (s0 : list A) :
  fold_left (fun s i => push s (f i)) l s0 = s0 ++ map f l.
Proof.
  revert s0. induction l as [|i l IH]; intros s0; simpl.
  - now rewrite app_nil_r.
  - rewrite IH. unfold push. now rewrite <- app_assoc.
Qed.

(** The array built by a loop that pushes one element per index. *)
Lemma for_loop_push {A : Type} (cond : nat -> bool) (f : nat -> A) (n : nat) :
  (forall i, cond i = (i <? n)%nat) ->
  forall fuel i, (n - i <= fuel)%nat ->
    for_loop fuel i cond (fun i arr => push arr (f i)) [] = map f (seq i (n - i)).
Proof.
  intros Hc fuel i Hf.
  rewrite (for_loop_seq cond _ n Hc fuel i [] Hf).
  now rewrite fold_push.
Qed.

(** ** Short price sequences *)

Import Scoring.

Lemma calculateVolatility_empty : calculateVolatility [] = Fin 0.
Proof. reflexivity. Qed.

Lemma calculateTrendStrength_short (p : list num) :
  (length p < 2)%nat -> calculateTrendStrength p = Fin 0.
Proof.
  intros H. unfold calculateTrendStrength.
  destruct (Nat.ltb_spec (length p) 2); [reflexivity | lia].
Qed.

Lemma calculateConsistency_short (p : list num) :
  (length p < 3)%nat -> calculateConsistency p = Fin 0.
Proof.
  intros H. unfold calculateConsistency.
  destruct (Nat.ltb_spec (length p) 3); [reflexivity | lia].
Qed.

(** C4, at the input where the code leaves the claim: a price sequence of
    one element has an empty list of returns, so the mean is [0/0] and
    [calculateVolatility] returns [NaN], not 0. *)
Theorem C4_volatility_of_one_price (x : num) : calculateVolatility [x] = NaN.
Proof. reflexivity. Qed.

(** ** Trend strength *)

Import ScoringSpec.

Lemma returns_length (p : list num) : length (returns p) = (length p - 1)%nat.
Proof.
  induction p as [|a [|b rest] IH]; try reflexivity.
  change (returns (a :: b :: rest)) with (((b - a) / a)%js :: returns (b :: rest)).
  simpl length in *. rewrite IH. lia.
Qed.

Lemma returns_lookup (p : list num) (i : nat) :
  (i + 1 < length p)%nat ->
  returns p !! i
  = Some ((at_ p (i + 1) - at_ p i) / at_ p i)%js.
Proof.
  revert i. induction p as [|a [|b rest] IH]; intros i Hi; simpl in Hi; try lia.
  change (returns (a :: b :: rest)) with (((b - a) / a)%js :: returns (b :: rest)).
  destruct i as [|i].
  - reflexivity.
  - simpl. rewrite IH by (simpl; lia). reflexivity.
Qed.

Lemma weights_lookup (j : nat) :
  (j < 5)%nat -> weights !! j = Some (at_ weights j).
Proof.
  intros H. do 5 (destruct j as [|j]; [reflexivity|]). lia.
Qed.

(** The [changes] array of [calculateTrendStrength]: the [i]-th most
    recent return times [weights[i-1]], for at most five returns. *)
Lemma changes_zip (p : list num) :
  let n := length p in
  map (fun i => ((at_ p (n - i) - at_ p (n - i - 1)) / at_ p (n - i - 1)
                 * at_ weights (i - 1))%js)
      (seq 1 (Nat.min n 6 - 1))
  = zip_with JS.mul (reverse (returns p)) weights.
Proof.
  intros n. apply list_eq. intros j.
  rewrite list_lookup_fmap, lookup_zip_with.
  destruct (decide (j < Nat.min n 6 - 1)%nat) as [Hj|Hj].
  - rewrite lookup_seq_lt by exact Hj.
    rewrite reverse_lookup by (rewrite returns_length; fold n; lia).
    rewrite returns_length. fold n.
    rewrite returns_lookup by (fold n; lia).
    rewrite weights_lookup by lia. simpl.
    replace (n - 1 - S j + 1)%nat with (n - S j)%nat by lia.
    replace (n - 1 - S j)%nat with (n - S j - 1)%nat by lia.
    replace (j - 0)%nat with j by lia.
    reflexivity.
  - rewrite lookup_seq_ge by lia. simpl.
    destruct (decide (j < 5)%nat) as [H5|H5].
    + rewrite (lookup_ge_None_2 (reverse (returns p)))
        by (rewrite length_reverse, returns_length; fold n; lia).
      reflexivity.
    + destruct (reverse (returns p) !! j); simpl; [|reflexivity].
      rewrite (lookup_ge_None_2 weights) by (simpl; lia). reflexivity.
Qed.

Lemma list_two_heads {A : Type} (l : list A) (a b : A) :
  l !! 0%nat = Some a -> l !! 1%nat = Some b -> exists tl, l = a :: b :: tl.
Proof.
  destruct l as [|x [|y tl]]; simpl; intros H0 H1; try discriminate.
  injection H0 as ->. injection H1 as ->. now exists tl.
Qed.

(** The [returns] array of [calculateVolatility] holds the simple period
    returns, oldest first. *)
Lemma volatility_returns_loop (p : list num) :
  for_loop (length p) 1 (fun i => (i <? length p)%nat)
    (fun i rs => push rs ((at_ p i - at_ p (i - 1)) / at_ p (i - 1))%js) []
  = returns p.
Proof.
  rewrite (for_loop_push _ _ (length p) (fun i => eq_refl)) by lia.
  apply list_eq. intros j. rewrite list_lookup_fmap.
  destruct (decide (j < length p - 1)%nat) as [Hj|Hj].
  - rewrite lookup_seq_lt by exact Hj. rewrite returns_lookup by lia. simpl.
    replace (j + 1)%nat with (S j) by lia.
    replace (j - 0)%nat with j by lia. reflexivity.
  - rewrite lookup_seq_ge by lia.
    rewrite lookup_ge_None_2 by (rewrite returns_length; lia). reflexivity.
Qed.

(** [calculateVolatility] on a sequence that is not empty: the square root
    of the mean squared deviation of the returns from their mean. *)
Lemma volatility_by_returns (p : list num) :
  p <> [] ->
  calculateVolatility p
  = let rs := returns p in
    let mean := (reduce JS.add (Fin 0) rs / JS.of_nat (length rs))%js in
    JS.Math_sqrt
      (reduce (fun a b => a + JS.Math_pow2 (b - mean))%js (Fin 0) rs
       / JS.of_nat (length rs))%js.
Proof.
  intros Hp. unfold calculateVolatility.
  destruct p as [|x p]; [congruence|].
  change (length (x :: p) =? 0)%nat with false. cbv iota.
  rewrite volatility_returns_loop. reflexivity.
Qed.

(** The momentum term of [calculateTrendStrength]. *)
Lemma momentum_agrees (p : list num) :
  let n := length p in
  (2 <= n)%nat ->
  (if (3 <=? n)%nat then
     if ((at_ p (n - 1) - at_ p (n - 2)) / at_ p (n - 2)
         >? (at_ p (n - 2) - at_ p (n - 3)) / at_ p (n - 3))%js
     then Fin 0.02 else Fin 0
   else Fin 0)
  = momentum_bonus (reverse (returns p)).
Proof.
  intros n Hn. destruct (Nat.leb_spec 3 n) as [H3|H3].
  - destruct (list_two_heads (reverse (returns p))
                ((at_ p (n - 1) - at_ p (n - 2)) / at_ p (n - 2))%js
                ((at_ p (n - 2) - at_ p (n - 3)) / at_ p (n - 3))%js) as [tl ->].
    + rewrite reverse_lookup by (rewrite returns_length; fold n; lia).
      rewrite returns_length. fold n.
      rewrite returns_lookup by (fold n; lia).
      replace (n - 1 - 1 + 1)%nat with (n - 1)%nat by lia.
      replace (n - 1 - 1)%nat with (n - 2)%nat by lia. reflexivity.
    + rewrite reverse_lookup by (rewrite returns_length; fold n; lia).
      rewrite returns_length. fold n.
      rewrite returns_lookup by (fold n; lia).
      replace (n - 1 - 2 + 1)%nat with (n - 2)%nat by lia.
      replace (n - 1 - 2)%nat with (n - 3)%nat by lia. reflexivity.
    + reflexivity.
  - assert (Hl : length (reverse (returns p)) = 1%nat)
      by (rewrite length_reverse, returns_length; fold n; lia).
    destruct (reverse (returns p)) as [|r1 [|r2 tl]]; simpl in Hl; try lia.
    reflexivity.
Qed.

Lemma trend_loop_cond (n i : nat) :
  ((i <? n)%nat && (i <=? length weights)%nat) = (i <? Nat.min n 6)%nat.
Proof.
  simpl length.
  destruct (Nat.ltb_spec i n), (Nat.leb_spec i 5), (Nat.ltb_spec i (Nat.min n 6));
    simpl; try reflexivity; lia.
Qed.

(** [calculateTrendStrength] in terms of the returns, most recent first. *)
Lemma trend_strength_by_returns (p : list num) :
  (2 <= length p)%nat ->
  calculateTrendStrength p = trendStrength_recent_first p.
Proof.
  intros Hn. unfold calculateTrendStrength, trendStrength_recent_first.
  destruct (Nat.ltb_spec (length p) 2) as [Hlt|_]; [lia|].
  rewrite (for_loop_push _ _ (Nat.min (length p) 6) (trend_loop_cond (length p)))
    by lia.
  rewrite (changes_zip p).
  rewrite (momentum_agrees p Hn).
  reflexivity.
Qed.

Lemma zip_with_take_r {A B C : Type} (f : A -> B -> C) (l : list A) (k : list B) :
  zip_with f l (take (length l) k) = zip_with f l k.
Proof.
  revert k. induction l as [|x l IH]; intros [|y k]; cbn; try reflexivity.
  now rewrite IH.
Qed.

(** C2, amended: for at least two prices, [calculateTrendStrength] is five
    times the weighted sum of the most recent returns (at most five), each
    return under a weight of its own out of [0.15, 0.2, 0.25, 0.35, 0.45],
    plus 0.02 exactly when there is a prior return and the most recent
    return exceeds it, floored at 0.  Which of the weights goes with which
    return is left open. *)
Theorem C2_trend_strength_five_times (p : list num) :
  (2 <= length p)%nat ->
  exists ws,
    ws ⊆+ weights
    /\ length ws = Nat.min 5 (length (returns p))
    /\ calculateTrendStrength p = trendStrength_weighted ws p.
Proof.
  intros Hn. exists (take (length (returns p)) weights).
  split; [apply sublist_submseteq, sublist_take|].
  split; [rewrite length_take; cbn [weights length]; lia|].
  rewrite (trend_strength_by_returns p Hn).
  unfold trendStrength_recent_first, trendStrength_weighted. cbv zeta.
  rewrite <- (length_reverse (returns p)). now rewrite zip_with_take_r.
Qed.

(** C2 as stated fails already for two prices: the single return 0.1 of
    [100, 110] can only carry one weight, the claim gives 0.015 under the
    first weight (and 0.045 under the last), and the code gives 0.075,
    five times the former. *)
Lemma C2_counterexample :
  let p := Samples.nums [100; 110]%Z in
  (2 <= length p)%nat
  /\ (calculateTrendStrength p ≈ Fin 0.075)%js
  /\ (trendStrength_described p ≈ Fin 0.015)%js
  /\ ~ (calculateTrendStrength p ≈ trendStrength_described p)%js
  /\ ~ (calculateTrendStrength p ≈ Fin 0.1 * Fin 0.45)%js.
Proof.
  cbv zeta. split; [simpl; lia|].
  split; [vm_compute; reflexivity|].
  split; [vm_compute; reflexivity|].
  split; [vm_compute; discriminate|].
  vm_compute. discriminate.
Qed.

Lemma C2_witness :
  exists ws,
    ws ⊆+ weights
    /\ length ws = 4%nat
    /\ calculateTrendStrength (Samples.nums [100; 102; 101; 105; 110]%Z)
       = trendStrength_weighted ws (Samples.nums [100; 102; 101; 105; 110]%Z).
Proof.
  apply (C2_trend_strength_five_times (Samples.nums [100; 102; 101; 105; 110]%Z)).
  simpl. lia.
Defined.

(** ** Arithmetic of finite numbers *)

Lemma Qltb_lt (a b : Q) : JS.Qltb a b = true <-> a < b.
Proof.
  unfold JS.Qltb. rewrite Qlt_alt. destruct (a ?= b); split; congruence.
Qed.

Lemma Qltb_ge (a b : Q) : JS.Qltb a b = false <-> b <= a.
Proof.
  unfold JS.Qltb. rewrite Qle_alt, <- (Qcompare_antisym a b).
  destruct (a ?= b); simpl; split; congruence.
Qed.

Lemma Qis0_false (a : Q) : ~ a == 0 -> JS.Qis0 a = false.
Proof.
  intros H. unfold JS.Qis0. destruct (Qeq_bool a 0) eqn:E; [|reflexivity].
  apply Qeq_bool_eq in E. contradiction.
Qed.

(** Turn the boolean comparisons among the hypotheses into propositions. *)
Ltac qbool :=
  repeat match goal with
         | H : JS.Qltb _ _ = true |- _ => apply Qltb_lt in H
         | H : JS.Qltb _ _ = false |- _ => apply Qltb_ge in H
         | H : Qle_bool _ _ = true |- _ => apply Qle_bool_iff in H
         end.

Lemma positive_finite (x : num) : positive x -> finite x.
Proof. intros (q & -> & _). now exists q. Qed.

Lemma add_finite (x y : num) : finite x -> finite y -> finite (x + y)%js.
Proof. intros [a ->] [b ->]. now eexists. Qed.

Lemma sub_finite (x y : num) : finite x -> finite y -> finite (x - y)%js.
Proof. intros [a ->] [b ->]. now eexists. Qed.

Lemma mul_finite (x y : num) : finite x -> finite y -> finite (x * y)%js.
Proof. intros [a ->] [b ->]. now eexists. Qed.

Lemma div_positive_finite (x y : num) : finite x -> positive y -> finite (x / y)%js.
Proof.
  intros [a ->] (b & -> & Hb). unfold JS.div.
  rewrite Qis0_false by (intros E; rewrite E in Hb; now apply Qlt_irrefl in Hb).
  now eexists.
Qed.

Lemma returns_finite (p : list num) :
  Forall positive p -> Forall finite (returns p).
Proof.
  induction p as [|a [|b rest] IH]; intros Hp; try constructor.
  - apply div_positive_finite.
    + apply sub_finite; apply positive_finite.
      * now inversion Hp as [|? ? _ Hr]; inversion Hr.
      * now inversion Hp.
    + now inversion Hp.
  - apply IH. now inversion Hp.
Qed.

Lemma reduce_add_finite (l : list num) (acc : num) :
  Forall finite l -> finite acc -> finite (reduce JS.add acc l).
Proof.
  unfold reduce. revert acc. induction l as [|x l IH]; intros acc Hl Hacc; simpl.
  - exact Hacc.
  - inversion Hl; subst. apply IH; [assumption|]. now apply add_finite.
Qed.

Lemma weighted_finite (l : list num) :
  Forall finite l -> Forall finite (zip_with JS.mul l weights).
Proof.
  intros Hl. apply Forall_forall. intros x Hx.
  apply list_elem_of_lookup in Hx as [i Hi].
  rewrite lookup_zip_with in Hi.
  destruct (l !! i) as [a|] eqn:Ea; simpl in Hi; [|discriminate].
  destruct (weights !! i) as [w|] eqn:Ew; simpl in Hi; [|discriminate].
  injection Hi as <-. apply mul_finite.
  - rewrite Forall_forall in Hl. apply Hl.
    apply list_elem_of_lookup. eauto.
  - do 5 (destruct i as [|i]; [injection Ew as <-; now eexists|]). discriminate.
Qed.

Lemma Math_max_zero_r (x : Q) :
  exists t, JS.Math_max (Fin x) (Fin 0) = Fin t /\ 0 <= t /\ x <= t
            /\ (0 <= x -> t == x).
Proof.
  unfold JS.Math_max, JS.lt. destruct (JS.Qltb x 0) eqn:E.
  - apply Qltb_lt in E. exists 0. repeat split; lra.
  - apply Qltb_ge in E. exists x. repeat split; lra.
Qed.

(** For positive prices the trend strength is a finite number, not
    negative. *)
Lemma calculateTrendStrength_nonneg (p : list num) :
  Forall positive p ->
  exists t, calculateTrendStrength p = Fin t /\ 0 <= t.
Proof.
  intros Hp. destruct (le_lt_dec 2 (length p)) as [Hn|Hn].
  - rewrite trend_strength_by_returns by exact Hn.
    unfold trendStrength_recent_first.
    assert (Hr : Forall finite (reverse (returns p))).
    { apply Forall_reverse. now apply returns_finite. }
    destruct (reduce_add_finite (zip_with JS.mul (reverse (returns p)) weights) (Fin 0))
      as [s ->]; [now apply weighted_finite | now eexists |].
    assert (Hb : exists b, momentum_bonus (reverse (returns p)) = Fin b).
    { unfold momentum_bonus. destruct (reverse (returns p)) as [|r1 [|r2 tl]];
        try (now eexists). destruct (JS.gt r1 r2); now eexists. }
    destruct Hb as [b ->].
    change (Fin s * Fin 5 + Fin b)%js with (Fin (s * 5 + b)).
    destruct (Math_max_zero_r (s * 5 + b)) as (t & -> & Ht & _). now exists t.
  - rewrite calculateTrendStrength_short by exact Hn. exists 0. split; [reflexivity|lra].
Qed.

(** ** Consistency and confidence *)

Lemma count_bound (g : nat -> nat -> bool) (l : list nat) (c0 : nat) :
  (fold_left (fun c i => if g i c then S c else c) l c0 <= c0 + length l)%nat.
Proof.
  revert c0. induction l as [|i l IH]; intros c0; simpl; [lia|].
  destruct (g i c0).
  - specialize (IH (S c0)). lia.
  - specialize (IH c0). lia.
Qed.

Lemma of_nat_div (c d : nat) :
  (c <= d)%nat -> (0 < d)%nat ->
  exists q, (JS.of_nat c / JS.of_nat d)%js = Fin q /\ 0 <= q <= 1.
Proof.
  intros Hcd Hd. unfold JS.of_nat, JS.div.
  assert (Hpos : 0 < inject_Z (Z.of_nat d)).
  { change 0 with (inject_Z 0). rewrite <- Zlt_Qlt. lia. }
  rewrite Qis0_false by (intros E; rewrite E in Hpos; now apply Qlt_irrefl in Hpos).
  eexists. split; [reflexivity|]. split.
  - apply Qle_shift_div_l; [exact Hpos|]. rewrite Qmult_0_l.
    change 0 with (inject_Z 0). rewrite <- Zle_Qle. lia.
  - apply Qle_shift_div_r; [exact Hpos|]. rewrite Qmult_1_l.
    rewrite <- Zle_Qle. lia.
Qed.

(** The consistency score is a number between 0 and 1, whatever the
    prices. *)
Lemma calculateConsistency_range (p : list num) :
  exists c, calculateConsistency p = Fin c /\ 0 <= c <= 1.
Proof.
  unfold calculateConsistency. destruct (Nat.ltb_spec (length p) 3) as [Hlt|Hge].
  - exists 0. split; [reflexivity|lra].
  - rewrite (for_loop_seq _ _ (length p) (fun i => eq_refl)) by lia.
    apply of_nat_div; [|lia].
    etransitivity;
      [apply (count_bound (fun i _ =>
         let currentMove := (at_ p i - at_ p (i - 1))%js in
         let previousMove := (at_ p (i - 1) - at_ p (i - 2))%js in
         (JS.gt currentMove (Fin 0) && JS.gt previousMove (Fin 0))
         || (JS.lt currentMove (Fin 0) && JS.lt previousMove (Fin 0))))|].
    rewrite length_seq. lia.
Qed.

(** C3, amended: for a volatility that is not negative, a correlation in
    [-1, 1] and positive prices, the confidence is a number that is not
    negative, and it is at most 1 whenever the trend strength is at most
    1; the trend strength has no upper bound, and the confidence exceeds 1
    with it. *)
Theorem C3_confidence_not_negative (volatility correlation : num) (prices : list num) :
  valid_inputs volatility correlation prices ->
  JS.ge (calculateConfidence volatility correlation prices) (Fin 0) = true
  /\ (JS.le (calculateTrendStrength prices) (Fin 1) = true ->
      JS.le (calculateConfidence volatility correlation prices) (Fin 1) = true).
Proof.
  intros ((v & -> & Hv) & (c & -> & Hc) & Hp).
  unfold calculateConfidence.
  destruct (calculateTrendStrength_nonneg prices Hp) as (t & -> & Ht).
  destruct (calculateConsistency_range prices) as (k & -> & Hk).
  assert (Hvs : exists vs, JS.Math_max (Fin 0) (Fin 1 - Fin v * Fin 8)%js = Fin vs
                           /\ 0 <= vs <= 1).
  { change (Fin 1 - Fin v * Fin 8)%js with (Fin (1 + - (v * 8))).
    unfold JS.Math_max, JS.lt. destruct (JS.Qltb 0 (1 + - (v * 8))) eqn:E.
    - apply Qltb_lt in E. eexists. split; [reflexivity|]. lra.
    - exists 0. split; [reflexivity|]. lra. }
  destruct Hvs as (vs & -> & Hvs).
  assert (Ha : 0 <= Qabs c <= 1).
  { split; [apply Qabs_nonneg|]. apply Qabs_Qle_condition. exact Hc. }
  change (JS.Math_abs (Fin c)) with (Fin (Qabs c)).
  change (Fin vs * Fin 0.2 + Fin (Qabs c) * Fin 0.2 + Fin t * Fin 0.4 + Fin k * Fin 0.2)%js
    with (Fin (vs * 0.2 + Qabs c * 0.2 + t * 0.4 + k * 0.2)).
  unfold JS.ge, JS.le. split.
  - apply Qle_bool_iff. lra.
  - intros Ht1. apply Qle_bool_iff in Ht1. apply Qle_bool_iff. lra.
Qed.

(** C3 as stated fails: prices doubling and then rising another 110%
    have trend strength 1.845, and with volatility 0.05 and correlation
    0.5 the confidence is 1.158. *)
Lemma C3_counterexample :
  let p := Samples.nums [100; 200; 420]%Z in
  valid_inputs (Fin 0.05) (Fin 0.5) p
  /\ JS.gt (calculateTrendStrength p) (Fin 1) = true
  /\ (calculateConfidence (Fin 0.05) (Fin 0.5) p ≈ Fin 1.158)%js
  /\ JS.le (calculateConfidence (Fin 0.05) (Fin 0.5) p) (Fin 1) = false.
Proof.
  cbv zeta. split.
  { split; [exists 0.05; split; [reflexivity|lra]|].
    split; [exists 0.5; split; [reflexivity|lra]|].
    repeat constructor; eexists; (split; [reflexivity|reflexivity]). }
  split; [vm_compute; reflexivity|].
  split; [vm_compute; reflexivity|].
  vm_compute. reflexivity.
Qed.

Lemma sample_trend_below_one :
  JS.le (calculateTrendStrength (Samples.nums [100; 102; 101; 105; 110]%Z)) (Fin 1) = true.
Proof. vm_compute. reflexivity. Qed.

Lemma C3_witness :
  let p := Samples.nums [100; 102; 101; 105; 110]%Z in
  valid_inputs (Fin 0.02) (Fin 0.5) p
  /\ JS.ge (calculateConfidence (Fin 0.02) (Fin 0.5) p) (Fin 0) = true
  /\ JS.le (calculateConfidence (Fin 0.02) (Fin 0.5) p) (Fin 1) = true.
Proof.
  cbv zeta.
  assert (H : valid_inputs (Fin 0.02) (Fin 0.5)
                (Samples.nums [100; 102; 101; 105; 110]%Z)).
  { split; [exists 0.02; split; [reflexivity|lra]|].
    split; [exists 0.5; split; [reflexivity|lra]|].
    repeat constructor; eexists; (split; [reflexivity|reflexivity]). }
  split; [exact H|].
  destruct (C3_confidence_not_negative _ _ _ H) as [H0 H1].
  split; [exact H0 | exact (H1 sample_trend_below_one)].
Defined.

(** ** Rounding with [toFixed] *)

Lemma pow10_pos (d : nat) : 0 < JS.pow10 d.
Proof.
  unfold JS.pow10. change 0 with (inject_Z 0). rewrite <- Zlt_Qlt.
  apply Z.pow_pos_nonneg; lia.
Qed.

Lemma Qfloor_half (k : Z) : Qfloor (inject_Z k + (1 # 2)) = k.
Proof.
  pose proof (Qfloor_le (inject_Z k + (1 # 2))) as Hl.
  pose proof (Qlt_floor (inject_Z k + (1 # 2))) as Hu.
  set (f := Qfloor (inject_Z k + (1 # 2))) in *.
  assert (H1 : inject_Z f < inject_Z (k + 1)).
  { rewrite inject_Z_plus. change (inject_Z 1) with 1. lra. }
  assert (H2 : inject_Z k < inject_Z (f + 1)) by lra.
  rewrite <- Zlt_Qlt in H1, H2. lia.
Qed.

Lemma round_half_up_mono (d : nat) (u v : Q) :
  u <= v -> JS.round_half_up d u <= JS.round_half_up d v.
Proof.
  intros Huv. unfold JS.round_half_up, Qdiv.
  pose proof (pow10_pos d) as HP.
  apply Qmult_le_compat_r; [|apply Qinv_le_0_compat; lra].
  rewrite <- Zle_Qle. apply Qfloor_resp_le.
  apply Qplus_le_compat; [|lra].
  apply Qmult_le_compat_r; lra.
Qed.

Lemma round_half_up_int (d : nat) (z : Z) :
  JS.round_half_up d (inject_Z z) == inject_Z z.
Proof.
  unfold JS.round_half_up, JS.pow10.
  rewrite <- inject_Z_mult, Qfloor_half, inject_Z_mult.
  apply Qdiv_mult_l. pose proof (pow10_pos d) as HP. unfold JS.pow10 in HP. lra.
Qed.

Lemma round_half_up_nonneg (d : nat) (u : Q) : 0 <= u -> 0 <= JS.round_half_up d u.
Proof.
  intros Hu. rewrite <- (round_half_up_int d 0). now apply round_half_up_mono.
Qed.

Lemma round_half_up_le_int (d : nat) (u : Q) (z : Z) :
  u <= inject_Z z -> JS.round_half_up d u <= inject_Z z.
Proof.
  intros Hu. rewrite <- (round_half_up_int d z). now apply round_half_up_mono.
Qed.

Lemma round_signed_mono (d : nat) (x y : Q) :
  x <= y -> JS.round_signed d x <= JS.round_signed d y.
Proof.
  intros Hxy. unfold JS.round_signed.
  destruct (JS.Qltb x 0) eqn:Ex, (JS.Qltb y 0) eqn:Ey; qbool.
  - apply Qopp_le_compat. apply round_half_up_mono. lra.
  - pose proof (round_half_up_nonneg d (- x) ltac:(lra)).
    pose proof (round_half_up_nonneg d y Ey). lra.
  - lra.
  - now apply round_half_up_mono.
Qed.

Lemma round_signed_bound (d : nat) (x : Q) (z : Z) :
  - inject_Z z <= x <= inject_Z z ->
  - inject_Z z <= JS.round_signed d x <= inject_Z z.
Proof.
  intros [Hl Hu]. unfold JS.round_signed.
  destruct (JS.Qltb x 0) eqn:Ex; qbool.
  - pose proof (round_half_up_nonneg d (- x) ltac:(lra)).
    pose proof (round_half_up_le_int d (- x) z ltac:(lra)). lra.
  - pose proof (round_half_up_nonneg d x Ex).
    pose proof (round_half_up_le_int d x z Hu). lra.
Qed.

Lemma toFixed_Fin (d : nat) (x : Q) :
  JS.toFixed d (Fin x)
  = if Qle_bool (inject_Z (10 ^ 21)) (Qabs x) then Fin x else Fin (JS.round_signed d x).
Proof. reflexivity. Qed.

Lemma Qabs_below (x t : Q) : Qle_bool t (Qabs x) = false -> - t < x < t.
Proof.
  intros H. assert (Hlt : Qabs x < t).
  { apply Qnot_le_lt. intros Hle. apply Qle_bool_iff in Hle. congruence. }
  revert Hlt. apply Qabs_case; intros; lra.
Qed.

Lemma Qabs_above (x t : Q) : Qle_bool t (Qabs x) = true -> x <= - t \/ t <= x.
Proof.
  intros H. apply Qle_bool_iff in H. revert H.
  apply Qabs_case; intros; [right|left]; lra.
Qed.

(** [toFixed] keeps the order of numbers. *)
Lemma toFixed_mono (d : nat) (a b : num) :
  JS.le a b = true -> JS.le (JS.toFixed d a) (JS.toFixed d b) = true.
Proof.
  destruct a as [x| | |], b as [y| | |]; try (simpl; congruence);
    try (intros _; rewrite toFixed_Fin; now destruct (Qle_bool _ _)).
  intros Hxy. apply Qle_bool_iff in Hxy. rewrite !toFixed_Fin.
  destruct (Qle_bool _ (Qabs x)) eqn:Ex, (Qle_bool _ (Qabs y)) eqn:Ey;
    apply Qle_bool_iff.
  - exact Hxy.
  - apply Qabs_below in Ey. apply Qabs_above in Ex.
    pose proof (round_signed_bound d y (10 ^ 21) ltac:(lra)).
    destruct Ex; lra.
  - apply Qabs_below in Ex. apply Qabs_above in Ey.
    pose proof (round_signed_bound d x (10 ^ 21) ltac:(lra)).
    destruct Ey; lra.
  - now apply round_signed_mono.
Qed.

Lemma toFixed_NaN (d : nat) (a : num) : JS.is_NaN (JS.toFixed d a) = JS.is_NaN a.
Proof.
  destruct a as [x| | |]; try reflexivity.
  rewrite toFixed_Fin. now destruct (Qle_bool _ _).
Qed.

(** What rounding to [d] decimals means below the threshold: a multiple
    of [10^-d] at most half a unit away. *)
Lemma toFixed_rounds (d : nat) (x : Q) :
  Qabs x < inject_Z (10 ^ 21) ->
  exists k : Z,
    JS.toFixed d (Fin x) = Fin (JS.round_signed d x)
    /\ JS.round_signed d x == inject_Z k / JS.pow10 d
    /\ Qabs (JS.round_signed d x - x) <= (1 # 2) / JS.pow10 d.
Proof.
  intros Hx. pose proof (pow10_pos d) as HP.
  rewrite toFixed_Fin.
  destruct (Qle_bool _ _) eqn:E; [apply Qle_bool_iff in E; lra|].
  assert (Hr : forall u, 0 <= u ->
            Qabs (JS.round_half_up d u - u) <= (1 # 2) / JS.pow10 d).
  { intros u Hu. unfold JS.round_half_up.
    pose proof (Qfloor_le (u * JS.pow10 d + (1 # 2))) as Hl.
    pose proof (Qlt_floor (u * JS.pow10 d + (1 # 2))) as Hh.
    rewrite inject_Z_plus in Hh. change (inject_Z 1) with 1 in Hh.
    set (f := inject_Z (Qfloor (u * JS.pow10 d + (1 # 2)))) in *.
    apply Qabs_Qle_condition. split.
    - apply Qle_minus_iff.
      setoid_replace (f / JS.pow10 d - u + - - ((1 # 2) / JS.pow10 d))
        with ((f - u * JS.pow10 d + (1 # 2)) / JS.pow10 d)
        using relation Qeq by (field; lra).
      apply Qle_shift_div_l; [exact HP|]. lra.
    - apply Qle_minus_iff.
      setoid_replace ((1 # 2) / JS.pow10 d + - (f / JS.pow10 d - u))
        with (((1 # 2) - f + u * JS.pow10 d) / JS.pow10 d)
        using relation Qeq by (field; lra).
      apply Qle_shift_div_l; [exact HP|]. lra. }
  unfold JS.round_signed. destruct (JS.Qltb x 0) eqn:Ex; qbool.
  - exists (- Qfloor (- x * JS.pow10 d + (1 # 2)))%Z.
    split; [reflexivity|].
    split.
    + unfold JS.round_half_up. rewrite inject_Z_opp. field. lra.
    + specialize (Hr (- x) ltac:(lra)).
      rewrite <- Qabs_opp.
      setoid_replace (- (- JS.round_half_up d (- x) - x))
        with (JS.round_half_up d (- x) - - x) using relation Qeq by ring.
      exact Hr.
  - exists (Qfloor (x * JS.pow10 d + (1 # 2))).
    split; [reflexivity|].
    split; [reflexivity|]. now apply Hr.
Qed.

(** ** The order of numbers *)

Lemma le_not_NaN (a b : num) :
  JS.le a b = true -> JS.is_NaN a = false /\ JS.is_NaN b = false.
Proof. destruct a, b; simpl; intros H; try discriminate; now split. Qed.

Lemma le_trans (a b c : num) : JS.le a b = true -> JS.le b c = true -> JS.le a c = true.
Proof.
  destruct a as [x| | |], b as [y| | |], c as [z| | |]; simpl; try congruence.
  intros H1 H2. qbool. apply Qle_bool_iff. lra.
Qed.

Lemma lt_le (a b : num) : JS.lt a b = true -> JS.le a b = true.
Proof.
  destruct a as [x| | |], b as [y| | |]; simpl; try congruence.
  intros H. qbool. apply Qle_bool_iff. lra.
Qed.

Lemma not_lt_le (a b : num) :
  JS.is_NaN a = false -> JS.is_NaN b = false ->
  JS.lt a b = false -> JS.le b a = true.
Proof.
  destruct a as [x| | |], b as [y| | |]; simpl; try congruence.
  intros _ _ H. qbool. now apply Qle_bool_iff.
Qed.

(** The comparator [b - a > 0] of the scan decides [a < b]. *)
Lemma sub_gt_zero (a b : num) :
  JS.is_NaN a = false -> JS.is_NaN b = false ->
  JS.gt (b - a)%js (Fin 0) = JS.lt a b.
Proof.
  destruct a as [x| | |], b as [y| | |]; simpl; try congruence; intros _ _.
  unfold JS.gt, JS.lt.
  destruct (JS.Qltb 0 (y + - x)) eqn:E1, (JS.Qltb x y) eqn:E2; qbool;
    try reflexivity; lra.
Qed.

(** ** Sorting *)

Section SortByKey.
Context {A : Type} (key : A -> num).

Lemma sort_insert_perm (x : A) (l : list A) :
  sort_insert (fun a b => key b - key a)%js x l ≡ₚ x :: l.
Proof.
  induction l as [|y l IH]; cbn [sort_insert]; [reflexivity|].
  destruct (JS.gt _ _); [|reflexivity].
  rewrite IH. apply Permutation_swap.
Qed.

Lemma js_sort_perm (l : list A) : js_sort (fun a b => key b - key a)%js l ≡ₚ l.
Proof.
  unfold js_sort. induction l as [|x l IH]; cbn [foldr]; [reflexivity|].
  rewrite sort_insert_perm. now rewrite IH.
Qed.

Lemma sort_insert_sorted (x : A) (l : list A) :
  JS.is_NaN (key x) = false ->
  Forall (fun y => JS.is_NaN (key y) = false) l ->
  StronglySorted (fun a b => JS.ge (key a) (key b) = true) l ->
  StronglySorted (fun a b => JS.ge (key a) (key b) = true)
    (sort_insert (fun a b => key b - key a)%js x l).
Proof.
  intros Hx Hl Hs. induction Hs as [|y l Hs IH Hy]; cbn [sort_insert].
  - repeat constructor.
  - inversion Hl as [|? ? Hny Hnl]; subst.
    rewrite sub_gt_zero by assumption.
    destruct (JS.lt (key x) (key y)) eqn:E.
    + constructor; [now apply IH|].
      rewrite sort_insert_perm. constructor; [|assumption].
      unfold JS.ge. now apply lt_le.
    + assert (Hxy : JS.ge (key x) (key y) = true)
        by (unfold JS.ge; now apply not_lt_le).
      constructor; [now constructor|].
      constructor; [assumption|].
      eapply Forall_impl; [exact Hy|]. intros z Hz. cbn beta in *.
      unfold JS.ge in *. now apply (le_trans _ (key y)).
Qed.

Lemma js_sort_sorted (l : list A) :
  Forall (fun y => JS.is_NaN (key y) = false) l ->
  StronglySorted (fun a b => JS.ge (key a) (key b) = true)
    (js_sort (fun a b => key b - key a)%js l).
Proof.
  unfold js_sort.
  induction l as [|x l IH]; intros Hl; cbn [foldr]; [constructor|].
  inversion Hl; subst. apply sort_insert_sorted; try assumption.
  - fold (js_sort (fun a b => key b - key a)%js l). now rewrite js_sort_perm.
  - now apply IH.
Qed.
End SortByKey.

(** ** The scan *)

Import Scanner.

Lemma scan_candidates symbols hd m :
  scan symbols hd m
  = js_sort (fun a b => potential_gain b - potential_gain a)%js (candidates symbols hd m).
Proof. reflexivity. Qed.

Lemma candidates_cons (s : string) (l : list string) hd m :
  candidates (s :: l) hd m
  = match processSymbol hd m s with
    | Return (Some o) => o :: candidates l hd m
    | _ => candidates l hd m
    end.
Proof.
  unfold candidates. simpl. now destruct (processSymbol hd m s) as [[o|]|e].
Qed.

Lemma candidates_app (l1 l2 : list string) hd m :
  candidates (l1 ++ l2) hd m = candidates l1 hd m ++ candidates l2 hd m.
Proof.
  induction l1 as [|s l IH]; [reflexivity|].
  rewrite <- app_comm_cons, !candidates_cons.
  destruct (processSymbol hd m s) as [[o|]|e]; simpl; [now rewrite IH | exact IH..].
Qed.

Lemma elem_of_candidates (o : Opportunity) (symbols : list string) hd m :
  o ∈ candidates symbols hd m
  <-> exists s, s ∈ symbols /\ processSymbol hd m s = Return (Some o).
Proof.
  induction symbols as [|s l IH].
  - split; [intros H; inversion H | intros (s & H & _); inversion H].
  - rewrite candidates_cons. split.
    + intros H. destruct (processSymbol hd m s) as [[o'|]|e] eqn:E.
      * apply elem_of_cons in H as [->|H].
        -- exists s. split; [left|exact E].
        -- apply IH in H as (s' & Hs' & H'). exists s'. split; [now right|exact H'].
      * apply IH in H as (s' & Hs' & H'). exists s'. split; [now right|exact H'].
      * apply IH in H as (s' & Hs' & H'). exists s'. split; [now right|exact H'].
    + intros (s' & Hs' & H'). apply elem_of_cons in Hs' as [->|Hs'].
      * rewrite H'. left.
      * assert (Ho : o ∈ candidates l hd m) by (apply IH; eauto).
        destruct (processSymbol hd m s) as [[o'|]|e]; [now right|exact Ho|exact Ho].
Qed.

Lemma elem_of_scan (o : Opportunity) (symbols : list string) hd m :
  o ∈ scan symbols hd m
  <-> exists s, s ∈ symbols /\ processSymbol hd m s = Return (Some o).
Proof.
  rewrite scan_candidates, (js_sort_perm potential_gain). apply elem_of_candidates.
Qed.

(** The handler answers a well-formed body with the scan, at a threshold
    of 5 when the body names none. *)
Lemma scanBlueChipStocks_scan (symbols : list string)
    (hd : gmap string HistoricalEntry) (m : option num) :
  scanBlueChipStocks {| body_symbols := Some symbols;
                        body_historical_data := Some hd;
                        body_min_gain_potential := m |}
  = Success (scan symbols hd (default (Fin 5) m)).
Proof. reflexivity. Qed.

Lemma processSymbol_Some hd m s o :
  processSymbol hd m s = Return (Some o)
  <-> exists a, analyse hd s = Return a /\ select m s a = Some o.
Proof.
  unfold processSymbol. destruct (analyse hd s) as [a|e]; simpl.
  - split; [intros [= H]; eauto | intros (a' & [= <-] & H); now rewrite H].
  - split; [discriminate | intros (a' & H & _); discriminate].
Qed.

Lemma select_Some m s a o :
  select m s a = Some o
  <-> JS.ge (a_potentialGain a) m = true
      /\ JS.gt (a_confidence a) (Fin 0.5) = true
      /\ o = {| symbol := s;
                current_price := a_currentPrice a;
                target_price := a_trendPrediction a;
                potential_gain := JS.toFixed 2 (a_potentialGain a);
                confidence := JS.toFixed 2 (a_confidence a);
                volatility := JS.toFixed 3 (a_volatility a);
                market_correlation := JS.toFixed 2 (a_marketCorrelation a) |}.
Proof.
  unfold select.
  destruct (JS.ge (a_potentialGain a) m), (JS.gt (a_confidence a) (Fin 0.5)); simpl;
    split; try (intros [= <-]; auto); try (intros (? & ? & ->)); try discriminate;
    reflexivity.
Qed.

(** The per-symbol callback throws exactly when the symbol has no price
    history. *)
Lemma analyse_throws hd s :
  (exists e, analyse hd s = Throw e) <-> default [] (hd !! s ≫= prices) = [].
Proof.
  unfold analyse. set (l := default [] (hd !! s ≫= prices)).
  destruct l as [|x l'] eqn:E.
  - split; [reflexivity|]. intros _. simpl. eauto.
  - split; [|discriminate]. intros [e He]. exfalso.
    assert (Hn : nth_error (x :: l') (length (x :: l') - 1) <> None).
    { apply nth_error_Some. simpl. lia. }
    destruct (nth_error (x :: l') (length (x :: l') - 1)) as [cp|] eqn:Ecp;
      [|congruence].
    simpl in He. discriminate He.
Qed.

Lemma half_le_toFixed (c : num) :
  JS.gt c (Fin 0.5) = true -> JS.ge (JS.toFixed 2 c) (Fin 0.5) = true.
Proof.
  intros H. unfold JS.gt in H. apply lt_le in H. unfold JS.ge.
  apply (le_trans _ (JS.toFixed 2 (Fin 0.5))); [vm_compute; reflexivity|].
  now apply toFixed_mono.
Qed.

(** Every candidate record, traced back to the numbers it was built from. *)
Lemma candidate_origin (o : Opportunity) (symbols : list string) hd m :
  o ∈ candidates symbols hd m ->
  exists a,
    symbol o ∈ symbols
    /\ analyse hd (symbol o) = Return a
    /\ JS.ge (a_potentialGain a) m = true
    /\ JS.gt (a_confidence a) (Fin 0.5) = true
    /\ potential_gain o = JS.toFixed 2 (a_potentialGain a)
    /\ confidence o = JS.toFixed 2 (a_confidence a)
    /\ volatility o = JS.toFixed 3 (a_volatility a)
    /\ JS.ge (potential_gain o) (JS.toFixed 2 m) = true
    /\ JS.ge (confidence o) (Fin 0.5) = true.
Proof.
  intros H. apply elem_of_candidates in H as (s & Hs & H).
  apply processSymbol_Some in H as (a & Ha & H).
  apply select_Some in H as (Hg & Hc & ->). simpl.
  exists a. repeat split; try assumption; try reflexivity.
  - unfold JS.ge in *. now apply toFixed_mono.
  - now apply half_le_toFixed.
Qed.

Lemma candidates_not_NaN (symbols : list string) hd m :
  Forall (fun o => JS.is_NaN (potential_gain o) = false) (candidates symbols hd m).
Proof.
  apply Forall_forall. intros o Ho.
  apply candidate_origin in Ho as (a & _ & _ & _ & _ & _ & _ & _ & H & _).
  unfold JS.ge in H. now apply le_not_NaN in H.
Qed.

(** C1, amended: every opportunity returned by [scan] comes from a symbol
    of the list whose unrounded gain is at least the threshold and whose
    unrounded confidence exceeds 0.5; its [potential_gain] and
    [confidence] are those numbers rounded to 2 decimals and its
    [volatility] the volatility rounded to 3, so the returned gain is at
    least the rounded threshold and the returned confidence at least 0.5;
    the result is sorted by descending [potential_gain]; and with a
    threshold of 5 a symbol whose gain is 4.99 is left out while one
    whose gain is 5.00 with confidence above 0.5 is returned. *)
Theorem C1_scan_filters_rounds_sorts
    (symbols : list string) (hd : gmap string HistoricalEntry) (m : num) :
  (forall o, o ∈ scan symbols hd m ->
     exists a,
       symbol o ∈ symbols
       /\ analyse hd (symbol o) = Return a
       /\ JS.ge (a_potentialGain a) m = true
       /\ JS.gt (a_confidence a) (Fin 0.5) = true
       /\ potential_gain o = JS.toFixed 2 (a_potentialGain a)
       /\ confidence o = JS.toFixed 2 (a_confidence a)
       /\ volatility o = JS.toFixed 3 (a_volatility a)
       /\ JS.ge (potential_gain o) (JS.toFixed 2 m) = true
       /\ JS.ge (confidence o) (Fin 0.5) = true)
  /\ StronglySorted
       (fun o1 o2 => JS.ge (potential_gain o1) (potential_gain o2) = true)
       (scan symbols hd m)
  /\ (forall s a,
        analyse hd s = Return a ->
        (a_potentialGain a ≈ Fin 4.99)%js ->
        forall o, o ∈ scan symbols hd (Fin 5) -> symbol o <> s)
  /\ (forall s a,
        s ∈ symbols ->
        analyse hd s = Return a ->
        (a_potentialGain a ≈ Fin 5)%js ->
        JS.gt (a_confidence a) (Fin 0.5) = true ->
        exists o, o ∈ scan symbols hd (Fin 5) /\ symbol o = s).
Proof.
  split; [|split; [|split]].
  - intros o Ho. apply candidate_origin.
    now rewrite scan_candidates, (js_sort_perm potential_gain) in Ho.
  - rewrite scan_candidates. apply (js_sort_sorted potential_gain).
    apply candidates_not_NaN.
  - intros s a Ha Hg o Ho Hs.
    rewrite scan_candidates, (js_sort_perm potential_gain) in Ho.
    apply candidate_origin in Ho as (a' & _ & Ha' & Hge & _).
    rewrite Hs, Ha in Ha'. injection Ha' as <-.
    destruct (a_potentialGain a) as [x| | |]; simpl in Hg; try contradiction.
    unfold JS.ge in Hge. simpl in Hge. qbool. lra.
  - intros s a Hs Ha Hg Hc.
    exists {| symbol := s;
              current_price := a_currentPrice a;
              target_price := a_trendPrediction a;
              potential_gain := JS.toFixed 2 (a_potentialGain a);
              confidence := JS.toFixed 2 (a_confidence a);
              volatility := JS.toFixed 3 (a_volatility a);
              market_correlation := JS.toFixed 2 (a_marketCorrelation a) |}.
    split; [|reflexivity].
    apply elem_of_scan. exists s. split; [exact Hs|].
    apply processSymbol_Some. exists a. split; [exact Ha|].
    apply select_Some. split; [|split; [exact Hc|reflexivity]].
    destruct (a_potentialGain a) as [x| | |]; simpl in Hg; try contradiction.
    unfold JS.ge. simpl. apply Qle_bool_iff. lra.
Qed.

(** C1 as stated fails on the returned records: prices [1000, 2011] give
    a confidence of 0.5033, which passes the filter and is returned as
    0.5, not above 0.5; and with a threshold of 11.372 the same symbol's
    gain of 11.37375 passes and is returned as 11.37, below the
    threshold. *)
Lemma C1_counterexample :
  match scan ["A"] Samples.history (Fin 5) with
  | [o] => symbol o = "A"
           /\ (confidence o ≈ Fin 0.5)%js
           /\ JS.gt (confidence o) (Fin 0.5) = false
  | _ => False
  end
  /\ match scan ["A"] Samples.history (Fin 11.372) with
     | [o] => symbol o = "A"
              /\ (potential_gain o ≈ Fin 11.37)%js
              /\ JS.ge (potential_gain o) (Fin 11.372) = false
     | _ => False
     end.
Proof. vm_compute. repeat split; reflexivity. Qed.

Lemma sample_gain_499 :
  exists a, analyse Samples.history "C" = Return a
            /\ (a_potentialGain a ≈ Fin 4.99)%js.
Proof. eexists. split; [vm_compute; reflexivity|]. vm_compute. reflexivity. Qed.

Lemma sample_gain_500 :
  exists a, analyse Samples.history "B" = Return a
            /\ (a_potentialGain a ≈ Fin 5)%js
            /\ JS.gt (a_confidence a) (Fin 0.5) = true.
Proof.
  eexists. split; [vm_compute; reflexivity|].
  split; vm_compute; reflexivity.
Qed.

Lemma C1_witness :
  let symbols := ["A"; "B"; "C"; "D"] in
  (forall o, o ∈ scan symbols Samples.history (Fin 5) -> symbol o <> "C")
  /\ (exists o, o ∈ scan symbols Samples.history (Fin 5) /\ symbol o = "B").
Proof.
  cbv zeta.
  destruct (C1_scan_filters_rounds_sorts ["A"; "B"; "C"; "D"] Samples.history (Fin 5))
    as (_ & _ & Hout & Hin).
  split.
  - destruct sample_gain_499 as (a & E & Hg). exact (Hout "C" a E Hg).
  - destruct sample_gain_500 as (a & E & Hg & Hc).
    refine (Hin "B" a _ E Hg Hc).
    apply list_elem_of_further, list_elem_of_here.
Defined.

(** ** Failure of one symbol *)

(** C5: when processing a symbol throws, the scan returns what it returns
    for the list without that symbol, and no returned opportunity bears
    the symbol. *)
Theorem C5_throwing_symbol_is_left_out
    (before after : list string) (s : string)
    (hd : gmap string HistoricalEntry) (m : num) (e : exn) :
  processSymbol hd m s = Throw e ->
  scan (before ++ s :: after) hd m = scan (before ++ after) hd m
  /\ (forall o, o ∈ scan (before ++ s :: after) hd m -> symbol o <> s).
Proof.
  intros He. split.
  - rewrite !scan_candidates, !candidates_app, candidates_cons, He. reflexivity.
  - intros o Ho Hs. apply elem_of_scan in Ho as (s' & _ & Hp).
    assert (s' = s) as ->.
    { apply processSymbol_Some in Hp as (a & _ & Hsel).
      apply select_Some in Hsel as (_ & _ & ->). exact Hs. }
    congruence.
Qed.

Lemma C5_witness :
  processSymbol Samples.history (Fin 5) "D"
  = Throw (TypeError "Cannot read properties of undefined (reading 'toFixed')")
  /\ scan (["A"] ++ "D" :: ["B"]) Samples.history (Fin 5)
     = scan (["A"] ++ ["B"]) Samples.history (Fin 5)
  /\ (forall o, o ∈ scan (["A"] ++ "D" :: ["B"]) Samples.history (Fin 5)
                -> symbol o <> "D").
Proof.
  assert (H : processSymbol Samples.history (Fin 5) "D"
              = Throw (TypeError "Cannot read properties of undefined (reading 'toFixed')"))
    by (vm_compute; reflexivity).
  split; [exact H|].
  exact (C5_throwing_symbol_is_left_out ["A"] ["B"] "D" Samples.history (Fin 5) _ H).
Defined.

(** ** Rate limiting in the provider client *)

Section RateLimit.
Import Provider.
Local Open Scope Z_scope.









End RateLimit.

(** ** The subscription queue *)

Section Subscriptions.
Import WS.
Local Open Scope Z_scope.

Variable ctor_ok : string -> bool.

Lemma connectToSymbol_result (m : Manager) (s : string) :
  is_return (snd (connectToSymbol ctor_ok m s)) = true <-> connectable ctor_ok m s.
Proof.
  unfold connectToSymbol, connectable.
  destruct (connections m !! s) as [ws|] eqn:E.
  - simpl. split; [intros _; left; eauto | reflexivity].
  - destruct (ctor_ok s); simpl.
    + split; [intros _; now right | reflexivity].
    + split; [discriminate | intros [[? H]|H]; discriminate].
Qed.

Lemma connectToSymbol_queue (m : Manager) (s : string) :
  subscriptionQueue (fst (connectToSymbol ctor_ok m s)) = subscriptionQueue m.
Proof.
  unfold connectToSymbol. destruct (connections m !! s); [reflexivity|].
  now destruct (ctor_ok s).
Qed.

Lemma connectToSymbol_connectable (m : Manager) (s s' : string) :
  connectable ctor_ok (fst (connectToSymbol ctor_ok m s)) s' <-> connectable ctor_ok m s'.
Proof.
  unfold connectToSymbol, connectable.
  destruct (connections m !! s) as [ws|] eqn:E; [reflexivity|].
  destruct (ctor_ok s) eqn:Eok; [|reflexivity]. simpl.
  destruct (decide (s = s')) as [<-|Hne].
  - rewrite lookup_insert_eq. split; intros _; [now right | left; eauto].
  - now rewrite lookup_insert_ne.
Qed.

Lemma connectToSymbol_registers (m : Manager) (s s' : string) :
  is_Some (connections m !! s') \/ (s' = s /\ ctor_ok s = true) ->
  is_Some (connections (fst (connectToSymbol ctor_ok m s)) !! s').
Proof.
  unfold connectToSymbol. intros H.
  destruct (connections m !! s) as [ws|] eqn:E.
  - destruct H as [H|[-> _]]; [exact H|]. simpl. rewrite E. eauto.
  - destruct (ctor_ok s) eqn:Eok; simpl.
    + destruct (decide (s = s')) as [<-|Hne].
      * rewrite lookup_insert_eq. eauto.
      * rewrite lookup_insert_ne by exact Hne.
        destruct H as [H|[-> _]]; [exact H | congruence].
    + destruct H as [H|[_ H]]; [exact H | discriminate].
Qed.

Lemma connectBatch_cons (m : Manager) (s : string) (batch : list string) :
  connectBatch ctor_ok m (s :: batch)
  = (fst (connectBatch ctor_ok (fst (connectToSymbol ctor_ok m s)) batch),
     snd (connectToSymbol ctor_ok m s)
     :: snd (connectBatch ctor_ok (fst (connectToSymbol ctor_ok m s)) batch)).
Proof.
  cbn [connectBatch]. destruct (connectToSymbol ctor_ok m s) as [m1 r].
  cbn [fst snd]. now destruct (connectBatch ctor_ok m1 batch) as [m2 rs].
Qed.

Lemma connectBatch_queue (batch : list string) (m : Manager) :
  subscriptionQueue (fst (connectBatch ctor_ok m batch)) = subscriptionQueue m.
Proof.
  revert m. induction batch as [|s batch IH]; intros m; [reflexivity|].
  rewrite connectBatch_cons. cbn [fst]. rewrite IH. apply connectToSymbol_queue.
Qed.

(** The batch resolves exactly when every symbol of it is connectable. *)
Lemma connectBatch_resolves (batch : list string) (m : Manager) :
  promise_all (snd (connectBatch ctor_ok m batch)) = true
  <-> forall s, s ∈ batch -> connectable ctor_ok m s.
Proof.
  unfold promise_all. revert m. induction batch as [|s batch IH]; intros m.
  - split; [intros _ s H; inversion H | reflexivity].
  - rewrite connectBatch_cons. cbn [snd forallb].
    rewrite andb_true_iff, connectToSymbol_result, IH. split.
    + intros [Hs Hb] s' Hs'. apply elem_of_cons in Hs' as [->|Hs']; [exact Hs|].
      apply (connectToSymbol_connectable m s). now apply Hb.
    + intros H. split; [apply H; left|].
      intros s' Hs'. apply connectToSymbol_connectable. apply H. now right.
Qed.

(** Every connect of the batch that can succeed leaves its symbol
    registered, whatever the other connects do. *)
Lemma connectBatch_registers (batch : list string) (m : Manager) (s : string) :
  is_Some (connections m !! s) \/ (s ∈ batch /\ ctor_ok s = true) ->
  is_Some (connections (fst (connectBatch ctor_ok m batch)) !! s).
Proof.
  revert m. induction batch as [|x batch IH]; intros m H.
  - destruct H as [H|[H _]]; [exact H | inversion H].
  - rewrite connectBatch_cons. cbn [fst]. apply IH.
    destruct H as [H|[H Hok]].
    + left. apply connectToSymbol_registers. now left.
    + apply elem_of_cons in H as [->|H].
      * left. apply connectToSymbol_registers. now right.
      * right. now split.
Qed.

Lemma elem_of_queue_delete (s x : string) (q : list string) :
  s ∈ queue_delete x q <-> s ∈ q /\ s <> x.
Proof. unfold queue_delete. rewrite list_elem_of_filter. tauto. Qed.

Lemma elem_of_delete_all (batch q : list string) (s : string) :
  s ∈ foldl (fun q symbol => queue_delete symbol q) q batch <-> s ∈ q /\ s ∉ batch.
Proof.
  revert q. induction batch as [|x batch IH]; intros q; cbn [foldl].
  - split; [intros H; split; [exact H | intros H'; inversion H'] | tauto].
  - rewrite IH, elem_of_queue_delete, not_elem_of_cons. tauto.
Qed.

(** One turn of the drain loop, by whether the batch resolves. *)
Lemma drainStep_outcome (cfg : Config) (m : Manager) :
  let batch := take (cfg_subscriptionBatchSize cfg) (subscriptionQueue m) in
  let promises := snd (connectBatch ctor_ok m batch) in
  let m' := drainStep cfg ctor_ok m in
  (promise_all promises = false <-> exists s, s ∈ batch /\ ~ connectable ctor_ok m s)
  /\ (promise_all promises = false ->
      subscriptionQueue m' = subscriptionQueue m
      /\ (forall s, s ∈ batch -> s ∈ subscriptionQueue m')
      /\ (forall s, s ∈ batch -> ctor_ok s = true -> is_Some (connections m' !! s)))
  /\ (forall s, s ∈ subscriptionQueue m -> s ∉ subscriptionQueue m' ->
      s ∈ batch /\ promise_all promises = true)
  /\ (promise_all promises = true ->
      forall s, s ∈ subscriptionQueue m' <-> s ∈ subscriptionQueue m /\ s ∉ batch).
Proof.
  cbv zeta. unfold drainStep.
  set (batch := take (cfg_subscriptionBatchSize cfg) (subscriptionQueue m)).
  pose proof (connectBatch_queue batch m) as Hq.
  pose proof (connectBatch_resolves batch m) as Hres.
  pose proof (connectBatch_registers batch m) as Hreg.
  destruct (connectBatch ctor_ok m batch) as [m1 promises].
  cbn [fst snd] in *.
  assert (Hbatch : forall s, s ∈ batch -> s ∈ subscriptionQueue m).
  { intros s Hs. apply list_elem_of_lookup in Hs as [i Hi]. unfold batch in Hi.
    apply lookup_take_Some in Hi as [Hi _]. apply list_elem_of_lookup. eauto. }
  split; [|split; [|split]].
  - split.
    + intros Hf. apply not_true_iff_false in Hf. rewrite Hres in Hf.
      rewrite <- Forall_forall in Hf.
      apply not_Forall_Exists in Hf; [|intros x; unfold connectable; apply _].
      apply Exists_exists in Hf as (s & Hs & Hn). exists s. split; assumption.
    + intros (s & Hs & Hn). apply not_true_iff_false. rewrite Hres. auto.
  - intros Hf. rewrite Hf. split; [exact Hq|]. split.
    + intros s Hs. rewrite Hq. now apply Hbatch.
    + intros s Hs Hok. apply Hreg. right. now split.
  - intros s Hs Hn. destruct (promise_all promises) eqn:E.
    + split; [|reflexivity]. cbn [subscriptionQueue set_subscriptionQueue] in Hn.
      rewrite elem_of_delete_all, Hq in Hn.
      destruct (decide (s ∈ batch)) as [Hb|Hb]; [exact Hb | tauto].
    + rewrite Hq in Hn. contradiction.
  - intros Ht s. rewrite Ht. cbn [subscriptionQueue set_subscriptionQueue].
    now rewrite elem_of_delete_all, Hq.
Qed.

(** A symbol that is neither registered nor constructible stays
    unregistered through a batch of connects. *)
Lemma connectBatch_unregistered (batch : list string) (m : Manager) (s : string) :
  connections m !! s = None -> ctor_ok s = false ->
  connections (fst (connectBatch ctor_ok m batch)) !! s = None.
Proof.
  revert m. induction batch as [|x batch IH]; intros m Hn Hf; [exact Hn|].
  rewrite connectBatch_cons. cbn [fst]. apply IH; [|exact Hf].
  unfold connectToSymbol. destruct (connections m !! x) as [ws|] eqn:E; [exact Hn|].
  destruct (ctor_ok x) eqn:Ex; [|exact Hn]. simpl.
  rewrite lookup_insert_ne by congruence. exact Hn.
Qed.

Lemma drainStep_unregistered (cfg : Config) (m : Manager) (s : string) :
  connections m !! s = None -> ctor_ok s = false ->
  connections (drainStep cfg ctor_ok m) !! s = None.
Proof.
  intros Hn Hf. unfold drainStep.
  pose proof (connectBatch_unregistered
                (take (cfg_subscriptionBatchSize cfg) (subscriptionQueue m)) m s Hn Hf) as H.
  destruct (connectBatch ctor_ok m _) as [m1 promises]. cbn [fst] in H.
  now destruct (promise_all promises).
Qed.

(** C7: if a connect of the batch fails, the queue after the drain step
    is the queue before it, so the whole batch (with the symbols whose
    connects succeeded, now registered) is still pending; a symbol leaves
    the queue only in a step in which every connect of its batch
    succeeded, and then the whole batch leaves. *)
Theorem C7_failed_batch_stays_pending (cfg : Config) (m : Manager) :
  let batch := take (cfg_subscriptionBatchSize cfg) (subscriptionQueue m) in
  let promises := snd (connectBatch ctor_ok m batch) in
  let m' := drainStep cfg ctor_ok m in
  (promise_all promises = false <-> exists s, s ∈ batch /\ ~ connectable ctor_ok m s)
  /\ (promise_all promises = false ->
      subscriptionQueue m' = subscriptionQueue m
      /\ (forall s, s ∈ batch -> s ∈ subscriptionQueue m')
      /\ (forall s, s ∈ batch -> ctor_ok s = true -> is_Some (connections m' !! s)))
  /\ (forall s, s ∈ subscriptionQueue m -> s ∉ subscriptionQueue m' ->
      s ∈ batch /\ promise_all promises = true)
  /\ (promise_all promises = true ->
      forall s, s ∈ subscriptionQueue m' <-> s ∈ subscriptionQueue m /\ s ∉ batch).
Proof. exact (drainStep_outcome cfg m). Qed.

End Subscriptions.

Section SubscriptionSamples.
Import WS.
Local Open Scope Z_scope.

Lemma C7_witness :
  let m := Samples.three_pending in
  let m' := drainStep default_config (Samples.fails_on "BAD") m in
  promise_all (snd (connectBatch (Samples.fails_on "BAD") m
                      (take (cfg_subscriptionBatchSize default_config)
                            (subscriptionQueue m)))) = false
  /\ subscriptionQueue m' = ["AAPL"; "BAD"; "MSFT"]
  /\ is_Some (connections m' !! "AAPL").
Proof.
  cbv zeta.
  assert (H : promise_all (snd (connectBatch (Samples.fails_on "BAD")
                Samples.three_pending
                (take (cfg_subscriptionBatchSize default_config)
                      (subscriptionQueue Samples.three_pending)))) = false)
    by reflexivity.
  split; [exact H|].
  destruct (C7_failed_batch_stays_pending (Samples.fails_on "BAD") default_config
              Samples.three_pending)
    as (_ & Hkeep & _).
  destruct (Hkeep H) as (Hq & _ & Hreg).
  split; [exact Hq|].
  apply Hreg; [apply list_elem_of_here | reflexivity].
Defined.

(** With every socket constructible the queue drains and the worker
    stops; with one that is not, the batch is retried for as long as the
    worker is given. *)
Example subscribe_drains :
  option_map subscriptionQueue
    (subscribe default_config Samples.all_ok 2 Samples.three_pending "TSLA")
  = Some [].
Proof. reflexivity. Qed.

Example subscribe_retries_failed_batch (fuel : nat) :
  subscribe default_config (Samples.fails_on "BAD") fuel Samples.three_pending "TSLA"
  = None.
Proof.
  unfold subscribe.
  change (negb (processingQueue _)) with true. cbv iota.
  unfold processSubscriptionQueue.
  set (m0 := set_processingQueue true _).
  assert (Hq : subscriptionQueue m0 = ["AAPL"; "BAD"; "MSFT"; "TSLA"]) by reflexivity.
  assert (Hc : connections m0 !! "BAD" = None) by reflexivity.
  clearbody m0. revert m0 Hq Hc.
  induction fuel as [|fuel IH]; intros m0 Hq Hc; [reflexivity|].
  cbn [drainLoop]. rewrite Hq at 1. cbn [length Nat.ltb Nat.leb].
  destruct (drainStep_outcome (Samples.fails_on "BAD") default_config m0)
    as (Hfail & Hkeep & _).
  assert (Hf : promise_all
                 (snd (connectBatch (Samples.fails_on "BAD") m0
                         (take (cfg_subscriptionBatchSize default_config)
                               (subscriptionQueue m0)))) = false).
  { apply Hfail. exists "BAD". split.
    - rewrite Hq. apply list_elem_of_further, list_elem_of_here.
    - intros [[ws H]|H]; [congruence | discriminate H]. }
  destruct (Hkeep Hf) as (Hsame & _).
  rewrite Hsame, Hq. cbn [length Nat.ltb Nat.leb].
  apply IH.
  - cbn [subscriptionQueue sleep]. now rewrite Hsame.
  - cbn [connections sleep]. now apply drainStep_unregistered.
Qed.

End SubscriptionSamples.

(** ** Reconnecting *)

Section Reconnect.
Import WS.
Local Open Scope Z_scope.

Variable ctor_ok : string -> bool.

Lemma connectToSymbol_registered (m : Manager) (s : string) :
  is_Some (connections m !! s) -> connectToSymbol ctor_ok m s = (m, Return tt).
Proof. intros [ws H]. unfold connectToSymbol. now rewrite H. Qed.

Lemma connectToSymbol_fresh (m : Manager) (s : string) :
  connections m !! s = None -> ctor_ok s = true ->
  connectToSymbol ctor_ok m s
  = (set_reconnectAttempts (insert s 0)
       (set_connections (insert s (length (sockets m)))
          (set_sockets (fun l => l ++ [{| ws_symbol := s; readyState := CONNECTING |}]) m)),
     Return tt).
Proof. intros H Hok. unfold connectToSymbol. now rewrite H, Hok. Qed.

(** C8, where the code leaves the claim: when the socket registered for
    a symbol closes and the symbol still has attempts left, the counter
    goes up by one and the manager waits the reconnect interval, but the
    connect that follows finds the closed socket still registered and
    returns at once: no socket is constructed and the symbol stays
    registered with its closed socket. *)
Theorem C8_close_constructs_no_socket
    (cfg : Config) (m : Manager) (ws : nat) (sock : WebSocket) :
  sockets m !! ws = Some sock ->
  connections m !! ws_symbol sock = Some ws ->
  default 0 (reconnectAttempts m !! ws_symbol sock) < cfg_reconnectAttempts cfg ->
  let s := ws_symbol sock in
  let m' := fst (on_close cfg ctor_ok m ws) in
  snd (on_close cfg ctor_ok m ws) = Return tt
  /\ reconnectAttempts m' !! s = Some (default 0 (reconnectAttempts m !! s) + 1)
  /\ sleeps m' = sleeps m ++ [cfg_reconnectInterval cfg]
  /\ length (sockets m') = length (sockets m)
  /\ connections m' = connections m
  /\ sockets m' !! ws = Some {| ws_symbol := s; readyState := CLOSED |}
  /\ getConnectionStatus m' s = connecting.
Proof.
  intros Hsock Hconn Hlt. cbv zeta. unfold on_close. rewrite Hsock.
  unfold handleDisconnection.
  cbn [reconnectAttempts set_sockets].
  destruct (Z.ltb_spec (default 0 (reconnectAttempts m !! ws_symbol sock))
                       (cfg_reconnectAttempts cfg)) as [_|Hge]; [|lia].
  rewrite connectToSymbol_registered
    by (cbn [connections sleep set_reconnectAttempts set_sockets]; rewrite Hconn; eauto).
  cbn [fst snd reconnectAttempts sleeps sockets connections sleep
       set_reconnectAttempts set_sockets].
  assert (Hnew : alter (fun s0 => {| ws_symbol := ws_symbol s0; readyState := CLOSED |})
                   ws (sockets m) !! ws
                 = Some {| ws_symbol := ws_symbol sock; readyState := CLOSED |}).
  { rewrite list_lookup_alter_eq, Hsock. reflexivity. }
  repeat split.
  - now rewrite lookup_insert_eq.
  - now rewrite length_alter.
  - exact Hnew.
  - unfold getConnectionStatus.
    cbn [connections sockets sleep set_reconnectAttempts set_sockets].
    rewrite Hconn, Hnew. reflexivity.
Qed.

(** C10, where the code leaves the claim: a connect for a symbol that
    is registered resolves at once and changes nothing, the counter
    included.  That is the connect of every reconnect, since a closed
    socket stays registered: when the socket of a symbol closes and the
    symbol has attempts left, the connect made by [handleDisconnection]
    resolves and the counter stays at one more than it was, and a
    further connect for the symbol resolves and leaves it there as well.
    The counter is set to 0 only by a connect that constructs a socket,
    which needs the symbol not to be registered. *)
Theorem C10_reconnect_keeps_counter
    (cfg : Config) (m : Manager) (ws : nat) (sock : WebSocket) :
  sockets m !! ws = Some sock ->
  connections m !! ws_symbol sock = Some ws ->
  0 <= default 0 (reconnectAttempts m !! ws_symbol sock) < cfg_reconnectAttempts cfg ->
  let s := ws_symbol sock in
  let m' := fst (on_close cfg ctor_ok m ws) in
  snd (on_close cfg ctor_ok m ws) = Return tt
  /\ reconnectAttempts m' !! s = Some (default 0 (reconnectAttempts m !! s) + 1)
  /\ reconnectAttempts m' !! s <> Some 0
  /\ connectToSymbol ctor_ok m' s = (m', Return tt)
  /\ (forall m0 s0, connections m0 !! s0 = None -> ctor_ok s0 = true ->
        snd (connectToSymbol ctor_ok m0 s0) = Return tt
        /\ reconnectAttempts (fst (connectToSymbol ctor_ok m0 s0)) !! s0 = Some 0).
Proof.
  intros Hsock Hconn Hlt. cbv zeta. unfold on_close. rewrite Hsock.
  unfold handleDisconnection.
  cbn [reconnectAttempts set_sockets].
  destruct (Z.ltb_spec (default 0 (reconnectAttempts m !! ws_symbol sock))
                       (cfg_reconnectAttempts cfg)) as [_|Hge]; [|lia].
  rewrite connectToSymbol_registered
    by (cbn [connections sleep set_reconnectAttempts set_sockets]; rewrite Hconn; eauto).
  cbn [fst snd].
  set (m' := sleep _ _).
  assert (Hc : reconnectAttempts m' !! ws_symbol sock
               = Some (default 0 (reconnectAttempts m !! ws_symbol sock) + 1)).
  { unfold m'. cbn [reconnectAttempts sleep set_reconnectAttempts].
    now rewrite lookup_insert_eq. }
  split; [reflexivity|]. split; [exact Hc|]. split.
  { rewrite Hc. intros [= E]. lia. }
  split.
  { apply connectToSymbol_registered. unfold m'.
    cbn [connections sleep set_reconnectAttempts set_sockets]. rewrite Hconn. eauto. }
  intros m0 s0 Hnone Hok. rewrite (connectToSymbol_fresh m0 s0 Hnone Hok).
  cbn [fst snd reconnectAttempts set_reconnectAttempts].
  split; [reflexivity | apply lookup_insert_eq].
Qed.

End Reconnect.

Section ReconnectSamples.
Import WS.
Local Open Scope Z_scope.

Lemma C8_witness :
  let m := Samples.one_connected in
  let m' := fst (on_close default_config Samples.all_ok m 0) in
  sockets m !! 0%nat = Some {| ws_symbol := "AAPL"; readyState := CONNECTING |}
  /\ reconnectAttempts m' !! "AAPL" = Some 1
  /\ sleeps m' = [5000]
  /\ length (sockets m') = 1%nat
  /\ sockets m' !! 0%nat = Some {| ws_symbol := "AAPL"; readyState := CLOSED |}
  /\ getConnectionStatus m' "AAPL" = connecting.
Proof.
  cbv zeta.
  assert (H1 : sockets Samples.one_connected !! 0%nat
               = Some {| ws_symbol := "AAPL"; readyState := CONNECTING |})
    by reflexivity.
  assert (H2 : connections Samples.one_connected !! "AAPL" = Some 0%nat)
    by reflexivity.
  assert (H3 : default 0 (reconnectAttempts Samples.one_connected !! "AAPL")
               < cfg_reconnectAttempts default_config)
    by reflexivity.
  split; [exact H1|].
  destruct (C8_close_constructs_no_socket Samples.all_ok default_config
              Samples.one_connected 0
              {| ws_symbol := "AAPL"; readyState := CONNECTING |} H1 H2 H3)
    as (_ & Ha & Hs & Hl & _ & Hk & Hst).
  repeat split; assumption.
Defined.

Lemma C10_witness :
  let m := Samples.one_connected in
  let m' := fst (on_close default_config Samples.all_ok m 0) in
  reconnectAttempts m !! "AAPL" = Some 0
  /\ snd (on_close default_config Samples.all_ok m 0) = Return tt
  /\ reconnectAttempts m' !! "AAPL" = Some 1
  /\ connectToSymbol Samples.all_ok m' "AAPL" = (m', Return tt).
Proof.
  cbv zeta.
  assert (H1 : sockets Samples.one_connected !! 0%nat
               = Some {| ws_symbol := "AAPL"; readyState := CONNECTING |})
    by reflexivity.
  assert (H2 : connections Samples.one_connected !! "AAPL" = Some 0%nat)
    by reflexivity.
  assert (H3 : 0 <= default 0 (reconnectAttempts Samples.one_connected !! "AAPL")
               < cfg_reconnectAttempts default_config)
    by (split; [discriminate | reflexivity]).
  split; [reflexivity|].
  destruct (C10_reconnect_keeps_counter Samples.all_ok default_config
              Samples.one_connected 0
              {| ws_symbol := "AAPL"; readyState := CONNECTING |} H1 H2 H3)
    as (Hr & Ha & _ & Hc & _).
  split; [exact Hr|]. split; [exact Ha | exact Hc].
Defined.

End ReconnectSamples.

(** ** Batched delivery of updates *)

Section Batching.
Import Reconciler ReconcilerSpec.

Lemma map_get_set (key s : string) (v : StockUpdate) (m : list (string * StockUpdate)) :
  map_get s (map_set key v m) = if String.eqb key s then Some v else map_get s m.
Proof.
  induction m as [|[k u] m IH]; simpl.
  - reflexivity.
  - destruct (String.eqb_spec k key) as [->|Hne]; simpl.
    + now destruct (String.eqb key s).
    + rewrite IH. destruct (String.eqb_spec k s) as [->|Hks]; [|reflexivity].
      destruct (String.eqb_spec key s) as [->|_]; [congruence | reflexivity].
Qed.

Lemma keys_map_set (key : string) (v : StockUpdate) (m : list (string * StockUpdate)) :
  map fst (map_set key v m)
  = if decide (key ∈ map fst m) then map fst m else map fst m ++ [key].
Proof.
  induction m as [|[k u] m IH]; simpl.
  - destruct (decide (key ∈ [])) as [H|_]; [inversion H | reflexivity].
  - destruct (String.eqb_spec k key) as [->|Hne]; simpl.
    + destruct (decide (key ∈ key :: map fst m)) as [_|H]; [reflexivity|].
      exfalso. apply H. left.
    + rewrite IH.
      destruct (decide (key ∈ map fst m)) as [Hin|Hout],
               (decide (key ∈ k :: map fst m)) as [Hin'|Hout'];
        try reflexivity.
      * exfalso. apply Hout'. now right.
      * apply elem_of_cons in Hin' as [->|Hin']; [congruence | contradiction].
Qed.

Lemma well_keyed_set (key : string) (v : StockUpdate) (m : list (string * StockUpdate)) :
  symbol v = key -> well_keyed m -> well_keyed (map_set key v m).
Proof.
  intros Hv [Hnd Hk]. split.
  - rewrite keys_map_set. destruct (decide (key ∈ map fst m)) as [Hin|Hout].
    + exact Hnd.
    + apply NoDup_app. split; [exact Hnd|]. split.
      * intros x Hx Hx'. apply list_elem_of_singleton in Hx'. now subst.
      * apply NoDup_singleton.
  - clear Hnd. induction m as [|[k u] m IH]; simpl.
    + now repeat constructor.
    + inversion Hk as [|? ? Hkv Hk']. clear Hk.
      destruct (String.eqb_spec k key) as [Heq|Hne]; constructor; auto.
      simpl. congruence.
Qed.

Lemma elem_of_values (m : list (string * StockUpdate)) (u : StockUpdate) :
  well_keyed m -> (u ∈ values m <-> map_get (symbol u) m = Some u).
Proof.
  intros [Hnd Hk]. induction m as [|[k v] m IH]; simpl.
  - split; [intros H; inversion H | discriminate].
  - inversion Hnd as [|? ? Hnotin Hnd']; subst.
    inversion Hk as [|? ? Hkv Hk']; subst. simpl in Hkv.
    specialize (IH Hnd' Hk'). unfold values in *. rewrite elem_of_cons, IH.
    destruct (String.eqb_spec k (symbol u)) as [->|Hne].
    + split.
      * intros [->|Hget]; [reflexivity|]. exfalso. apply Hnotin.
        clear -Hget. induction m as [|[k' v'] m IH]; simpl in *; [discriminate|].
        destruct (String.eqb_spec k' (symbol u)) as [->|_]; [left | right; auto].
      * intros [= ->]. now left.
    + split; [intros [->|H]; [congruence | exact H] | now right].
Qed.

Lemma values_symbols (m : list (string * StockUpdate)) :
  well_keyed m -> map symbol (values m) = map fst m.
Proof.
  intros [_ Hk]. unfold values. induction Hk as [|[k v] m Hkv _ IH]; simpl.
  - reflexivity.
  - simpl in Hkv. now rewrite Hkv, IH.
Qed.

Lemma stored_symbol (message : WebSocketMessage) (u : StockUpdate) :
  stored message = Some u -> symbol u = m_symbol message.
Proof.
  unfold stored, make_update.
  destruct (m_type message), (m_data message); intros [= <-]; reflexivity.
Qed.

(** What a message does to the [updates] map. *)
Lemma processMessage_updates (opts : Options) (h : Hook) (message : WebSocketMessage) :
  updates (processMessage opts h message)
  = match stored message with
    | Some u => map_set (m_symbol message) u (updates h)
    | None => updates h
    end.
Proof.
  unfold processMessage, stored.
  destruct (m_type message); try reflexivity;
    destruct (make_update message) as [u|e]; reflexivity.
Qed.

Lemma step_well_keyed (opts : Options) (h : Hook) (e : Event) :
  well_keyed (updates h) -> well_keyed (updates (step opts h e)).
Proof.
  intros Hw. destruct e as [message|]; [|exact Hw].
  cbn [step]. rewrite processMessage_updates.
  destruct (stored message) as [u|] eqn:E; [|exact Hw].
  apply well_keyed_set; [now apply stored_symbol | exact Hw].
Qed.

(** The map after a trace holds, for each symbol, the update of the last
    message that stored one. *)
Lemma run_from (opts : Options) (events : list Event) :
  forall h, well_keyed (updates h) ->
    well_keyed (updates (foldl (step opts) h events))
    /\ forall s, map_get s (updates (foldl (step opts) h events))
                 = match latest events s with
                   | Some u => Some u
                   | None => map_get s (updates h)
                   end.
Proof.
  induction events as [|e events IH]; intros h Hw.
  - split; [exact Hw | reflexivity].
  - cbn [foldl]. destruct (IH (step opts h e) (step_well_keyed opts h e Hw)) as [Hw' Hget].
    split; [exact Hw'|]. intros s. rewrite Hget. cbn [latest].
    destruct (latest events s) as [u|]; [reflexivity|].
    destruct e as [message|]; [|reflexivity].
    cbn [step]. rewrite processMessage_updates.
    destruct (stored message) as [u|] eqn:E.
    + rewrite map_get_set. now destruct (String.eqb (m_symbol message) s).
    + now destruct (String.eqb (m_symbol message) s).
Qed.

Lemma flush_batching (opts : Options) (h : Hook) :
  batchUpdates opts = true -> has_onUpdate opts = true ->
  flush opts h = values (updates h).
Proof.
  intros Hb Ho. unfold flush. rewrite Hb, Ho. simpl.
  destruct (updates h); reflexivity.
Qed.

(** The flushes of a trace, one by one. *)
Lemma flushes_snoc (opts : Options) (events : list Event) :
  forall h, flushes opts h (events ++ [Tick])
            = flushes opts h events ++ [flush opts (foldl (step opts) h events)].
Proof.
  induction events as [|[message|] events IH]; intros h; cbn [app flushes foldl].
  - reflexivity.
  - apply IH.
  - now rewrite IH.
Qed.

(** C9, amended: in batched mode the flush that fires after any trace of
    messages and earlier flushes calls the callback once for each symbol
    that has had an update stored since the hook was mounted, whether or
    not one arrived since the previous flush, and hands over the latest
    update of that symbol. *)
Theorem C9_flush_delivers_latest_per_symbol (opts : Options) (events : list Event) :
  batchUpdates opts = true -> has_onUpdate opts = true ->
  let batch := flush opts (run opts events) in
  NoDup (map symbol batch)
  /\ (forall u, u ∈ batch <-> latest events (symbol u) = Some u)
  /\ flushes opts mount (events ++ [Tick]) = flushes opts mount events ++ [batch].
Proof.
  intros Hb Ho. cbv zeta. unfold run.
  assert (Hm : well_keyed (updates mount)) by (split; constructor).
  destruct (run_from opts events mount Hm) as [Hw Hget].
  rewrite (flush_batching opts _ Hb Ho). split; [|split].
  - rewrite values_symbols by exact Hw. apply Hw.
  - intros u. rewrite (elem_of_values _ u Hw), Hget.
    now destruct (latest events (symbol u)).
  - rewrite flushes_snoc. now rewrite (flush_batching opts _ Hb Ho).
Qed.

End Batching.

Section BatchingSamples.
Import Reconciler ReconcilerSpec.

(** C9 as stated fails: after one message and a flush, a second flush
    with nothing arrived in between hands the same update over again. *)
Lemma C9_counterexample :
  let events := [Message Samples.aapl_150; Tick; Tick] in
  match flushes Samples.batching mount events,
        flushes_described [] events with
  | [first; second], [first'; second'] =>
      first = first' /\ second = first /\ length second = 1%nat /\ second' = []
  | _, _ => False
  end.
Proof. vm_compute. repeat split. Qed.

Lemma C9_witness :
  let events := [Message Samples.aapl_150; Tick] in
  let batch := flush Samples.batching (run Samples.batching events) in
  NoDup (map symbol batch)
  /\ (forall u, u ∈ batch <-> latest events (symbol u) = Some u).
Proof.
  cbv zeta.
  destruct (C9_flush_delivers_latest_per_symbol Samples.batching
              [Message Samples.aapl_150; Tick] eq_refl eq_refl) as (Hn & Hl & _).
  split; assumption.
Defined.

End BatchingSamples.

(** * Further properties *)

(** ** Scores *)

Section Scores.
Import Scoring ScoringSpec.

(** X1: the consistency score is a number between 0 and 1 for every price
    sequence, of any length and with any entries. *)
Theorem consistency_between_0_and_1 (p : list num) :
  exists c, calculateConsistency p = Fin c /\ 0 <= c <= 1.
Proof. exact (calculateConsistency_range p). Qed.

Lemma Qmult_comm_eq (x y : Q) : (x * y = y * x)%Q.
Proof. unfold Qmult. f_equal; [apply Z.mul_comm | apply Pos.mul_comm]. Qed.

Lemma mul_comm (a b : num) : (a * b = b * a)%js.
Proof.
  destruct a as [x| | |], b as [y| | |]; try reflexivity.
  simpl. f_equal. apply Qmult_comm_eq.
Qed.

(** The two [returns] arrays of [calculateMarketCorrelation]. *)
Lemma correlation_returns_loop (s m : list num) (n : nat) :
  for_loop n 1 (fun i => (i <? n)%nat)
    (fun i '(stockReturns, marketReturns) =>
       (push stockReturns ((at_ s i - at_ s (i - 1)) / at_ s (i - 1))%js,
        push marketReturns ((at_ m i - at_ m (i - 1)) / at_ m (i - 1))%js))
    ([], [])
  = (map (fun i => ((at_ s i - at_ s (i - 1)) / at_ s (i - 1))%js) (seq 1 (n - 1)),
     map (fun i => ((at_ m i - at_ m (i - 1)) / at_ m (i - 1))%js) (seq 1 (n - 1))).
Proof.
  rewrite (for_loop_seq _ _ n (fun i => eq_refl)) by lia.
  assert (H : forall l a b,
    fold_left
      (fun (st : list num * list num) i =>
         let '(stockReturns, marketReturns) := st in
         (push stockReturns ((at_ s i - at_ s (i - 1)) / at_ s (i - 1))%js,
          push marketReturns ((at_ m i - at_ m (i - 1)) / at_ m (i - 1))%js))
      l (a, b)
    = (a ++ map (fun i => ((at_ s i - at_ s (i - 1)) / at_ s (i - 1))%js) l,
       b ++ map (fun i => ((at_ m i - at_ m (i - 1)) / at_ m (i - 1))%js) l)).
  { induction l as [|i l IH]; intros a b; simpl.
    - now rewrite !app_nil_r.
    - rewrite IH. unfold push. now rewrite <- !app_assoc. }
  apply (H _ [] []).
Qed.

(** The accumulator loop of [calculateMarketCorrelation] with the two
    series exchanged: the same numerator, the two denominators
    exchanged. *)
Lemma correlation_acc_swap (rs rm : list num) (ms mm : num) (k : nat) :
  forall (l : list nat) (a b : corr_acc),
    numerator a = numerator b ->
    stockDenom a = marketDenom b ->
    marketDenom a = stockDenom b ->
    let run rs rm ms mm a :=
      fold_left
        (fun acc i =>
           let stockDiff := (at_ rs i - ms)%js in
           let marketDiff := (at_ rm i - mm)%js in
           {| numerator := (numerator acc + stockDiff * marketDiff)%js;
              stockDenom := (stockDenom acc + stockDiff * stockDiff)%js;
              marketDenom := (marketDenom acc + marketDiff * marketDiff)%js |})
        l a in
    numerator (run rs rm ms mm a) = numerator (run rm rs mm ms b)
    /\ stockDenom (run rs rm ms mm a) = marketDenom (run rm rs mm ms b)
    /\ marketDenom (run rs rm ms mm a) = stockDenom (run rm rs mm ms b).
Proof.
  induction l as [|i l IH]; intros a b Hn Hs Hm; cbv zeta in *.
  - auto.
  - cbn [fold_left]. apply IH; cbn [numerator stockDenom marketDenom].
    + rewrite Hn. f_equal. apply mul_comm.
    + now rewrite Hs.
    + now rewrite Hm.
Qed.

(** X2: the market correlation does not depend on which of the two price
    series comes first. *)
Theorem correlation_symmetric (stockPrices marketPrices : list num) :
  calculateMarketCorrelation stockPrices marketPrices
  = calculateMarketCorrelation marketPrices stockPrices.
Proof.
  unfold calculateMarketCorrelation.
  destruct (Nat.eqb_spec (length stockPrices) (length marketPrices)) as [Hl|Hl].
  - rewrite <- Hl, Nat.eqb_refl. destruct (length stockPrices =? 0)%nat eqn:E0;
      [reflexivity|]. cbn [negb orb].
    rewrite !correlation_returns_loop. cbn [fst snd].
    rewrite !length_map.
    rewrite !(for_loop_seq _ _ _ (fun i => eq_refl)) by lia.
    set (rs := map _ (seq 1 (length stockPrices - 1))).
    set (rm := map (fun i => ((at_ marketPrices i - at_ marketPrices (i - 1))
                              / at_ marketPrices (i - 1))%js) _).
    set (zero := {| numerator := Fin 0; stockDenom := Fin 0; marketDenom := Fin 0 |}).
    destruct (correlation_acc_swap rs rm
                (reduce (fun a b => a + b)%js (Fin 0) rs
                 / JS.of_nat (length (seq 1 (length stockPrices - 1))))%js
                (reduce (fun a b => a + b)%js (Fin 0) rm
                 / JS.of_nat (length (seq 1 (length stockPrices - 1))))%js
                0
                (seq 0 (length (seq 1 (length stockPrices - 1)) - 0))
                zero zero eq_refl eq_refl eq_refl) as (Hn & Hs & Hm).
    cbv zeta in Hn, Hs, Hm. rewrite Hn, Hs, Hm.
    f_equal. f_equal. apply mul_comm.
  - destruct (Nat.eqb_spec (length marketPrices) (length stockPrices)) as [Hl'|_];
      [congruence | reflexivity].
Qed.

Lemma Qis0_true (x : Q) : x == 0 -> JS.Qis0 x = true.
Proof. intros H. unfold JS.Qis0. now apply Qeq_bool_iff. Qed.

Lemma Qsqrt_nonneg (x : Q) : 0 <= JS.Qsqrt x.
Proof.
  unfold JS.Qsqrt, Qle. simpl. rewrite Z.mul_1_r. apply Z.sqrt_nonneg.
Qed.

Lemma Qsqrt_zero (x : Q) : x == 0 -> JS.Qsqrt x == 0.
Proof.
  intros H. assert (Hn : Qnum x = 0%Z).
  { unfold Qeq in H. simpl in H. lia. }
  unfold JS.Qsqrt. rewrite Hn. reflexivity.
Qed.

Lemma zero_over_sqrt_zero (n p : Q) :
  n == 0 -> p == 0 -> (Fin n / JS.Math_sqrt (Fin p))%js = NaN.
Proof.
  intros Hn Hp. unfold JS.Math_sqrt.
  rewrite (proj2 (Qltb_ge p 0)) by lra.
  unfold JS.div. rewrite (Qis0_true _ (Qsqrt_zero p Hp)). now rewrite (Qis0_true n Hn).
Qed.

(** X3: for two series of two prices each, with non-zero first prices,
    the single return of each series equals its mean, both variance terms
    are 0, and the correlation is [0/0], that is [NaN], not 0. *)
Theorem correlation_of_two_prices_is_NaN (a b c d : Q) :
  ~ a == 0 -> ~ c == 0 ->
  calculateMarketCorrelation [Fin a; Fin b] [Fin c; Fin d] = NaN.
Proof.
  intros Ha Hc. unfold calculateMarketCorrelation.
  cbn [length Nat.eqb negb orb for_loop Nat.ltb Nat.leb at_ nth Nat.sub push app
       fst snd reduce fold_left numerator stockDenom marketDenom].
  unfold JS.sub, JS.neg, JS.add, JS.div, JS.mul, JS.of_nat.
  rewrite (Qis0_false a Ha), (Qis0_false c Hc).
  change (JS.Qis0 (inject_Z (Z.of_nat 1))) with false. cbv iota.
  apply zero_over_sqrt_zero.
  - change (inject_Z (Z.of_nat 1)) with 1. field. split; assumption.
  - change (inject_Z (Z.of_nat 1)) with 1. field. split; assumption.
Qed.

Lemma correlation_of_two_prices_witness :
  calculateMarketCorrelation [Fin 100; Fin 110] [Fin 50; Fin 60] = NaN.
Proof.
  apply correlation_of_two_prices_is_NaN; intros H; discriminate H.
Defined.

Lemma returns_flat (x : num) (n : nat) :
  returns (replicate (S n) x) = replicate n ((x - x) / x)%js.
Proof.
  induction n as [|n IH]; [reflexivity|].
  change (replicate (S (S n)) x) with (x :: replicate (S n) x).
  change (replicate (S n) ((x - x) / x)%js)
    with (((x - x) / x)%js :: replicate n ((x - x) / x)%js).
  rewrite <- IH. reflexivity.
Qed.

Lemma sum_of_zeros (z : Q) (k : nat) :
  z == 0 ->
  forall a, a == 0 ->
    exists s, reduce JS.add (Fin a) (replicate k (Fin z)) = Fin s /\ s == 0.
Proof.
  intros Hz. unfold reduce. induction k as [|k IH]; intros a Ha; simpl.
  - now exists a.
  - apply IH. lra.
Qed.

Lemma squares_of_zeros (z m : Q) (k : nat) :
  z == 0 -> m == 0 ->
  forall a, a == 0 ->
    exists s, reduce (fun a b => a + JS.Math_pow2 (b - Fin m))%js (Fin a)
                (replicate k (Fin z)) = Fin s
              /\ s == 0.
Proof.
  intros Hz Hm. unfold reduce. induction k as [|k IH]; intros a Ha; simpl.
  - now exists a.
  - apply IH. rewrite Hz, Hm, Ha. reflexivity.
Qed.

(** X4: a flat series has volatility 0: for at least two prices that are
    all the same number, not 0, every return is 0, so are their mean and
    the squared deviations, and the square root of their mean is 0
    (where one price alone gives [NaN]). *)
Theorem volatility_of_flat_prices (q : Q) (n : nat) :
  ~ q == 0 -> (2 <= n)%nat ->
  (calculateVolatility (replicate n (Fin q)) ≈ Fin 0)%js.
Proof.
  intros Hq Hn. destruct n as [|[|n]]; try lia.
  rewrite volatility_by_returns by discriminate. cbv zeta.
  rewrite returns_flat, length_replicate.
  set (k := S n).
  assert (Hk : JS.Qis0 (inject_Z (Z.of_nat k)) = false).
  { apply Qis0_false. intros E. unfold Qeq in E. simpl in E. lia. }
  assert (Hz : ((Fin q - Fin q) / Fin q)%js = Fin ((q + - q) / q)).
  { unfold JS.sub, JS.neg, JS.add, JS.div. now rewrite (Qis0_false q Hq). }
  rewrite Hz.
  assert (Hz0 : (q + - q) / q == 0) by (field; exact Hq).
  destruct (sum_of_zeros _ k Hz0 0 (Qeq_refl 0)) as (s1 & E1 & Hs1). rewrite E1.
  unfold JS.of_nat, JS.div at 2. rewrite Hk.
  assert (Hm : s1 / inject_Z (Z.of_nat k) == 0) by (rewrite Hs1; reflexivity).
  destruct (squares_of_zeros _ _ k Hz0 Hm 0 (Qeq_refl 0)) as (s2 & E2 & Hs2). rewrite E2.
  unfold JS.div. rewrite Hk.
  assert (Hv : s2 / inject_Z (Z.of_nat k) == 0) by (rewrite Hs2; reflexivity).
  unfold JS.Math_sqrt. rewrite (proj2 (Qltb_ge _ 0)) by (rewrite Hv; lra).
  cbn [JS.equiv]. now apply Qsqrt_zero.
Qed.

Lemma volatility_of_flat_prices_witness :
  (calculateVolatility (replicate 3 (Fin 125)) ≈ Fin 0)%js.
Proof.
  apply (volatility_of_flat_prices 125 3); [intros H; discriminate H | lia].
Defined.

End Scores.

(** ** What the scan returns *)

Section ScanResults.
Import Scoring ScoringSpec Scanner.

Lemma volatility_one_price (x : num) : calculateVolatility [x] = NaN.
Proof. reflexivity. Qed.

Lemma confidence_NaN (correlation : num) (p : list num) :
  calculateConfidence NaN correlation p = NaN.
Proof. reflexivity. Qed.

Lemma sample_opportunity :
  exists o, processSymbol Samples.history (Fin 5) "B" = Return (Some o).
Proof. eexists. vm_compute. reflexivity. Qed.

(** X5: every opportunity the scan returns belongs to a symbol with at
    least two prices in its history: a symbol without prices throws and
    is dropped, and one with a single price has volatility [NaN], hence
    confidence [NaN], and fails the filter. *)
Theorem scan_needs_two_prices
    (symbols : list string) (hd : gmap string HistoricalEntry) (m : num)
    (o : Opportunity) :
  o ∈ scan symbols hd m ->
  exists l, hd !! symbol o ≫= prices = Some l /\ (2 <= length l)%nat.
Proof.
  intros Ho. rewrite scan_candidates, (js_sort_perm potential_gain) in Ho.
  apply candidate_origin in Ho as (a & _ & Ha & _ & Hc & _).
  unfold analyse in Ha.
  destruct (hd !! symbol o ≫= prices) as [l|] eqn:El; [|discriminate Ha].
  exists l. split; [reflexivity|]. cbn [default from_option id] in Ha.
  destruct l as [|x [|y l]]; [discriminate Ha | | simpl; lia].
  cbn [length Nat.sub nth_error toFixed_of bind] in Ha. injection Ha as <-.
  cbn [a_confidence] in Hc.
  rewrite volatility_one_price, confidence_NaN in Hc. discriminate Hc.
Qed.

Lemma scan_needs_two_prices_witness :
  exists o l,
    o ∈ scan ["B"] Samples.history (Fin 5)
    /\ Samples.history !! symbol o ≫= prices = Some l /\ (2 <= length l)%nat.
Proof.
  destruct sample_opportunity as [o Ho].
  assert (Hin : o ∈ scan ["B"] Samples.history (Fin 5)).
  { apply elem_of_scan. exists "B". split; [apply list_elem_of_here | exact Ho]. }
  destruct (scan_needs_two_prices ["B"] Samples.history (Fin 5) o Hin) as (l & Hl & Hn).
  exists o, l. split; [exact Hin|]. split; [exact Hl | exact Hn].
Defined.

(** X6: raising the threshold only removes opportunities: whatever the
    scan returns at a threshold it also returns at every lower one. *)
Theorem scan_threshold_monotone
    (symbols : list string) (hd : gmap string HistoricalEntry) (m m' : num)
    (o : Opportunity) :
  JS.le m m' = true ->
  o ∈ scan symbols hd m' -> o ∈ scan symbols hd m.
Proof.
  intros Hm Ho. apply elem_of_scan in Ho as (s & Hs & Hp).
  apply elem_of_scan. exists s. split; [exact Hs|].
  apply processSymbol_Some in Hp as (a & Ha & Hsel).
  apply processSymbol_Some. exists a. split; [exact Ha|].
  apply select_Some in Hsel as (Hg & Hc & ->).
  apply select_Some. split; [|split; [exact Hc | reflexivity]].
  unfold JS.ge in *. now apply (le_trans _ m').
Qed.

Lemma scan_threshold_monotone_witness :
  exists o, o ∈ scan ["A"; "B"; "C"] Samples.history (Fin 5)
            /\ o ∈ scan ["A"; "B"; "C"] Samples.history (Fin 0).
Proof.
  destruct sample_opportunity as [o Ho].
  assert (Hin : o ∈ scan ["A"; "B"; "C"] Samples.history (Fin 5)).
  { apply elem_of_scan. exists "B". split; [|exact Ho].
    apply list_elem_of_further, list_elem_of_here. }
  exists o. split; [exact Hin|].
  exact (scan_threshold_monotone ["A"; "B"; "C"] Samples.history (Fin 0) (Fin 5) o
           eq_refl Hin).
Defined.

Lemma candidates_length (symbols : list string) hd m :
  (length (candidates symbols hd m) <= length symbols)%nat.
Proof.
  induction symbols as [|s l IH]; [reflexivity|].
  rewrite candidates_cons. destruct (processSymbol hd m s) as [[o|]|e]; simpl; lia.
Qed.

Lemma candidates_perm (l l' : list string) hd m :
  l ≡ₚ l' -> candidates l hd m ≡ₚ candidates l' hd m.
Proof.
  induction 1 as [|s l l' _ IH|s s' l|l l' l'' _ IH1 _ IH2].
  - reflexivity.
  - rewrite !candidates_cons.
    destruct (processSymbol hd m s) as [[o|]|e]; [now constructor | exact IH..].
  - rewrite !candidates_cons.
    destruct (processSymbol hd m s) as [[o|]|e],
             (processSymbol hd m s') as [[o'|]|e']; try reflexivity.
    apply Permutation_swap.
  - now rewrite IH1.
Qed.

(** X7: the scan returns at most one opportunity per listed symbol, and
    listing the symbols in another order returns the same opportunities. *)
Theorem scan_order_independent
    (symbols symbols' : list string) (hd : gmap string HistoricalEntry) (m : num) :
  symbols ≡ₚ symbols' ->
  scan symbols hd m ≡ₚ scan symbols' hd m
  /\ (length (scan symbols hd m) <= length symbols)%nat.
Proof.
  intros Hp. rewrite !scan_candidates, !(js_sort_perm potential_gain). split.
  - now apply candidates_perm.
  - apply candidates_length.
Qed.

Lemma scan_order_independent_witness :
  scan ["A"; "B"; "D"] Samples.history (Fin 5)
  ≡ₚ scan ["D"; "B"; "A"] Samples.history (Fin 5)
  /\ (length (scan ["A"; "B"; "D"] Samples.history (Fin 5)) <= 3)%nat.
Proof.
  apply (scan_order_independent ["A"; "B"; "D"] ["D"; "B"; "A"]).
  change ["D"; "B"; "A"] with (reverse ["A"; "B"; "D"]).
  symmetry. apply reverse_Permutation.
Defined.

Lemma last_positive (l : list num) :
  Forall positive l -> l <> [] ->
  exists q, nth_error l (length l - 1) = Some (Fin q)
            /\ at_ l (length l - 1) = Fin q /\ 0 < q.
Proof.
  intros Hl Hne.
  assert (Hlt : (length l - 1 < length l)%nat) by (destruct l; [congruence | simpl; lia]).
  destruct (nth_error l (length l - 1)) as [x|] eqn:E;
    [|apply nth_error_None in E; lia].
  assert (Hx : positive x).
  { rewrite Forall_forall in Hl. apply Hl. apply list_elem_of_In.
    eapply nth_error_In. exact E. }
  destruct Hx as (q & -> & Hq). exists q. split; [reflexivity|]. split; [|exact Hq].
  unfold at_. now apply nth_error_nth.
Qed.

(** X8: for a symbol with at least two positive prices the scan does not
    throw and never predicts a fall: the trend strength is floored at 0,
    so the potential gain is not negative and the target price is not
    below the last price. *)
Theorem gain_is_never_negative
    (hd : gmap string HistoricalEntry) (s : string) (l : list num) :
  hd !! s ≫= prices = Some l ->
  Forall positive l -> (2 <= length l)%nat ->
  exists a,
    analyse hd s = Return a
    /\ JS.ge (a_potentialGain a) (Fin 0) = true
    /\ JS.ge (a_trendPrediction a) (a_currentPrice a) = true.
Proof.
  intros Hs Hl Hn. unfold analyse. rewrite Hs. cbn [default from_option id].
  destruct (last_positive l Hl) as (q & Hq & Hat & Hpos);
    [intros ->; simpl in Hn; lia|].
  rewrite Hq, Hat.
  destruct (calculateTrendStrength_nonneg l Hl) as (t & Ht & Htpos). rewrite Ht.
  rewrite (proj2 (Nat.leb_le 2 (length l)) Hn).
  cbn [toFixed_of bind default from_option id].
  eexists. split; [reflexivity|].
  cbn [a_currentPrice a_trendPrediction a_potentialGain].
  change (Fin q * (Fin 1 + Fin t * Fin 0.15))%js with (Fin (q * (1 + t * 0.15))).
  unfold JS.sub, JS.neg, JS.add, JS.div.
  rewrite Qis0_false by lra.
  unfold JS.mul, JS.ge, JS.le.
  assert (Hg : (q * (1 + t * 0.15) + - q) / q * 100 == 15 * t) by (field; lra).
  split; apply Qle_bool_iff; [rewrite Hg; lra | nra].
Qed.

Lemma gain_is_never_negative_witness :
  exists a,
    analyse Samples.history "B" = Return a
    /\ JS.ge (a_potentialGain a) (Fin 0) = true
    /\ JS.ge (a_trendPrediction a) (a_currentPrice a) = true.
Proof.
  apply (gain_is_never_negative Samples.history "B" (Samples.nums [441; 525; 625]%Z)).
  - reflexivity.
  - repeat constructor; eexists; (split; [reflexivity|reflexivity]).
  - simpl. lia.
Defined.

End ScanResults.

(** ** The manager over time *)

Section ManagerTrace.
Import WS WSTrace.
Local Open Scope Z_scope.

Variable cfg : Config.
Variable ctor_ok : string -> bool.

Lemma unsubscribe_connections (m : Manager) (s : string) :
  connections (unsubscribe m s) = delete s (connections m).
Proof.
  unfold unsubscribe. destruct (connections m !! s) as [ws|] eqn:E.
  - reflexivity.
  - symmetry. now apply delete_id.
Qed.

Lemma unsubscribe_sockets_length (m : Manager) (s : string) :
  length (sockets (unsubscribe m s)) = length (sockets m).
Proof.
  unfold unsubscribe. destruct (connections m !! s) as [ws|]; [|reflexivity].
  cbn [sockets set_reconnectAttempts set_connections ws_close set_sockets].
  apply length_alter.
Qed.

(** Changing sockets in place without touching the symbol each was
    constructed for. *)
Lemma alter_state_symbol (g : WebSocket -> WebSocket) (l : list WebSocket)
    (i j : nat) (sock : WebSocket) :
  (forall s, ws_symbol (g s) = ws_symbol s) ->
  l !! j = Some sock ->
  exists sock', alter g i l !! j = Some sock' /\ ws_symbol sock' = ws_symbol sock.
Proof.
  intros Hg H. destruct (decide (i = j)) as [->|Hne].
  - rewrite list_lookup_alter_eq, H. eexists. split; [reflexivity | apply Hg].
  - rewrite list_lookup_alter_ne by exact Hne. eauto.
Qed.

Lemma registry_ok_alter (g : WebSocket -> WebSocket) (i : nat) (m : Manager) :
  (forall s, ws_symbol (g s) = ws_symbol s) ->
  registry_ok m -> registry_ok (set_sockets (alter g i) m).
Proof.
  intros Hg H s ws Hc. destruct (H s ws Hc) as (sock & Hs & Hsym).
  destruct (alter_state_symbol g (sockets m) i ws sock Hg Hs) as (sock' & Hs' & Hsym').
  exists sock'. split; [exact Hs' | congruence].
Qed.

Lemma registry_ok_connect (m : Manager) (s : string) :
  registry_ok m -> registry_ok (fst (connectToSymbol ctor_ok m s)).
Proof.
  intros H. unfold connectToSymbol.
  destruct (connections m !! s) as [ws|] eqn:E; [exact H|].
  destruct (ctor_ok s); [|exact H].
  intros s' ws' Hc.
  cbn [fst connections sockets set_reconnectAttempts set_connections set_sockets] in *.
  destruct (decide (s = s')) as [<-|Hne].
  - rewrite lookup_insert_eq in Hc. injection Hc as <-.
    exists {| ws_symbol := s; readyState := CONNECTING |}. split; [|reflexivity].
    rewrite lookup_app_r by lia. now rewrite Nat.sub_diag.
  - rewrite lookup_insert_ne in Hc by exact Hne.
    destruct (H s' ws' Hc) as (sock & Hs & Hsym). exists sock. split; [|exact Hsym].
    now apply lookup_app_l_Some.
Qed.

Lemma registry_ok_unsubscribe (m : Manager) (s : string) :
  registry_ok m -> registry_ok (unsubscribe m s).
Proof.
  intros H. unfold unsubscribe. destruct (connections m !! s) as [ws|] eqn:E; [|exact H].
  assert (H1 : registry_ok (ws_close ws m))
    by (unfold ws_close; apply registry_ok_alter; [reflexivity | exact H]).
  intros s' ws' Hc.
  cbn [connections set_reconnectAttempts set_connections] in Hc.
  apply lookup_delete_Some in Hc as [_ Hc].
  exact (H1 s' ws' Hc).
Qed.

Lemma registry_ok_handleDisconnection (m : Manager) (s : string) :
  registry_ok m -> registry_ok (fst (handleDisconnection cfg ctor_ok m s)).
Proof.
  intros H. unfold handleDisconnection.
  destruct (_ <? _).
  - apply registry_ok_connect. exact H.
  - now apply registry_ok_unsubscribe.
Qed.

Lemma registry_ok_connectBatch (batch : list string) (m : Manager) :
  registry_ok m -> registry_ok (fst (connectBatch ctor_ok m batch)).
Proof.
  revert m. induction batch as [|s batch IH]; intros m H; [exact H|].
  rewrite (connectBatch_cons ctor_ok). cbn [fst]. apply IH.
  now apply registry_ok_connect.
Qed.

Lemma registry_ok_drainStep (m : Manager) :
  registry_ok m -> registry_ok (drainStep cfg ctor_ok m).
Proof.
  intros H. unfold drainStep.
  pose proof (registry_ok_connectBatch
                (take (cfg_subscriptionBatchSize cfg) (subscriptionQueue m)) m H) as Hb.
  destruct (connectBatch ctor_ok m _) as [m1 promises]. cbn [fst] in Hb.
  destruct (promise_all promises); exact Hb.
Qed.

Lemma registry_ok_foldl_unsubscribe (l : list string) (m : Manager) :
  registry_ok m -> registry_ok (foldl unsubscribe m l).
Proof.
  revert m. induction l as [|s l IH]; intros m H; [exact H|].
  cbn [foldl]. apply IH. now apply registry_ok_unsubscribe.
Qed.

Lemma registry_ok_event (m : Manager) (e : Event) :
  registry_ok m -> registry_ok (apply_event cfg ctor_ok m e).
Proof.
  intros H. destruct e as [s| |s|s| |s|ws|ws]; cbn [apply_event].
  - exact H.
  - now apply registry_ok_drainStep.
  - now apply registry_ok_connect.
  - now apply registry_ok_unsubscribe.
  - now apply registry_ok_foldl_unsubscribe.
  - now apply registry_ok_handleDisconnection.
  - unfold on_open. apply registry_ok_alter; [reflexivity | exact H].
  - unfold on_close. destruct (sockets m !! ws) as [sock|]; [|exact H].
    apply registry_ok_handleDisconnection.
    apply registry_ok_alter; [reflexivity | exact H].
Qed.

(** X9: whatever is done to a manager, every registered symbol refers to
    a socket that was constructed for that symbol, so two symbols never
    share a socket. *)
Theorem registry_stays_consistent (events : list Event) :
  let m := after cfg ctor_ok events in
  registry_ok m
  /\ forall s s' ws, connections m !! s = Some ws -> connections m !! s' = Some ws ->
                     s = s'.
Proof.
  cbv zeta. assert (H : registry_ok (after cfg ctor_ok events)).
  { unfold after. assert (H0 : registry_ok init) by (intros s ws H; discriminate H).
    revert H0. generalize init. induction events as [|e events IH]; intros m Hm.
    - exact Hm.
    - cbn [foldl]. apply IH. now apply registry_ok_event. }
  split; [exact H|]. intros s s' ws Hs Hs'.
  destruct (H s ws Hs) as (sock & Hsock & <-).
  destruct (H s' ws Hs') as (sock' & Hsock' & <-). congruence.
Qed.

Hypothesis max_nonneg : 0 <= cfg_reconnectAttempts cfg.

Lemma counters_ok_connect (m : Manager) (s : string) :
  counters_ok cfg m -> counters_ok cfg (fst (connectToSymbol ctor_ok m s)).
Proof.
  intros H. unfold connectToSymbol.
  destruct (connections m !! s) as [ws|]; [exact H|].
  destruct (ctor_ok s); [|exact H].
  intros s' n Hn.
  cbn [fst reconnectAttempts set_reconnectAttempts set_connections set_sockets] in Hn.
  destruct (decide (s = s')) as [<-|Hne].
  - rewrite lookup_insert_eq in Hn. injection Hn as <-. lia.
  - rewrite lookup_insert_ne in Hn by exact Hne. now apply (H s').
Qed.

Lemma counters_ok_unsubscribe (m : Manager) (s : string) :
  counters_ok cfg m -> counters_ok cfg (unsubscribe m s).
Proof.
  intros H. unfold unsubscribe. destruct (connections m !! s) as [ws|]; [|exact H].
  intros s' n Hn.
  cbn [reconnectAttempts set_reconnectAttempts set_connections ws_close set_sockets] in Hn.
  apply lookup_delete_Some in Hn as [_ Hn]. now apply (H s').
Qed.

Lemma counters_ok_handleDisconnection (m : Manager) (s : string) :
  counters_ok cfg m -> counters_ok cfg (fst (handleDisconnection cfg ctor_ok m s)).
Proof.
  intros H. unfold handleDisconnection.
  destruct (Z.ltb_spec (default 0 (reconnectAttempts m !! s)) (cfg_reconnectAttempts cfg))
    as [Hlt|Hge].
  - apply counters_ok_connect. intros s' n Hn.
    cbn [reconnectAttempts sleep set_reconnectAttempts] in Hn.
    destruct (decide (s = s')) as [<-|Hne].
    + rewrite lookup_insert_eq in Hn. injection Hn as <-.
      destruct (reconnectAttempts m !! s) as [k|] eqn:Ek; cbn in *.
      * pose proof (H s k Ek). lia.
      * lia.
    + rewrite lookup_insert_ne in Hn by exact Hne. now apply (H s').
  - now apply counters_ok_unsubscribe.
Qed.

Lemma counters_ok_connectBatch (batch : list string) (m : Manager) :
  counters_ok cfg m -> counters_ok cfg (fst (connectBatch ctor_ok m batch)).
Proof.
  revert m. induction batch as [|s batch IH]; intros m H; [exact H|].
  rewrite (connectBatch_cons ctor_ok). cbn [fst]. apply IH.
  now apply counters_ok_connect.
Qed.

Lemma counters_ok_event (m : Manager) (e : Event) :
  counters_ok cfg m -> counters_ok cfg (apply_event cfg ctor_ok m e).
Proof.
  intros H. destruct e as [s| |s|s| |s|ws|ws]; cbn [apply_event].
  - exact H.
  - unfold drainStep.
    pose proof (counters_ok_connectBatch
                  (take (cfg_subscriptionBatchSize cfg) (subscriptionQueue m)) m H) as Hb.
    destruct (connectBatch ctor_ok m _) as [m1 promises]. cbn [fst] in Hb.
    destruct (promise_all promises); exact Hb.
  - now apply counters_ok_connect.
  - now apply counters_ok_unsubscribe.
  - unfold unsubscribeAll. generalize (getActiveSubscriptions m) as l.
    intros l. revert m H. induction l as [|s l IH]; intros m H; [exact H|].
    cbn [foldl]. apply IH. now apply counters_ok_unsubscribe.
  - now apply counters_ok_handleDisconnection.
  - exact H.
  - unfold on_close. destruct (sockets m !! ws) as [sock|]; [|exact H].
    apply counters_ok_handleDisconnection. exact H.
Qed.

(** X10: with a maximum that is not negative, whatever is done to a
    manager no reconnect counter is ever negative or above the
    configured maximum. *)
Theorem counters_stay_within_maximum (events : list Event) (s : string) (n : Z) :
  reconnectAttempts (after cfg ctor_ok events) !! s = Some n ->
  0 <= n <= cfg_reconnectAttempts cfg.
Proof.
  assert (H : counters_ok cfg (after cfg ctor_ok events)).
  { unfold after. assert (H0 : counters_ok cfg init) by (intros s' k H; discriminate H).
    revert H0. generalize init. induction events as [|e events IH]; intros m Hm.
    - exact Hm.
    - cbn [foldl]. apply IH. now apply counters_ok_event. }
  apply H.
Qed.

End ManagerTrace.

Section ManagerTraceSamples.
Import WS WSTrace.
Local Open Scope Z_scope.

Lemma counters_stay_within_maximum_witness :
  reconnectAttempts
    (after default_config Samples.all_ok [Connect "AAPL"; Closed 0%nat]) !! "AAPL"
  = Some 1
  /\ 0 <= 1 <= cfg_reconnectAttempts default_config.
Proof.
  assert (H : reconnectAttempts
                (after default_config Samples.all_ok [Connect "AAPL"; Closed 0%nat])
                !! "AAPL" = Some 1) by reflexivity.
  split; [exact H|].
  refine (counters_stay_within_maximum default_config Samples.all_ok _
            [Connect "AAPL"; Closed 0%nat] "AAPL" 1 H).
  discriminate.
Defined.

End ManagerTraceSamples.

(** ** Unsubscribing and giving up *)

Section ManagerOps.
Import WS WSTrace.
Local Open Scope Z_scope.

Variable cfg : Config.
Variable ctor_ok : string -> bool.

Lemma unsubscribe_status (m : Manager) (s : string) :
  getConnectionStatus (unsubscribe m s) s = disconnected.
Proof.
  unfold getConnectionStatus.
  now rewrite (unsubscribe_connections m s), lookup_delete_eq.
Qed.

Lemma elem_of_active (m : Manager) (s : string) :
  s ∈ getActiveSubscriptions m <-> is_Some (connections m !! s).
Proof.
  unfold getActiveSubscriptions. rewrite list_elem_of_fmap. split.
  - intros ([k ws] & -> & H). apply elem_of_map_to_list in H. eauto.
  - intros [ws H]. exists (s, ws). split; [reflexivity|].
    now apply elem_of_map_to_list.
Qed.

Lemma unsubscribe_registered
    (m : Manager) (s : string) (ws : nat) (sock : WebSocket) :
  connections m !! s = Some ws -> sockets m !! ws = Some sock ->
  reconnectAttempts (unsubscribe m s) !! s = None
  /\ sockets (unsubscribe m s) !! ws
     = Some {| ws_symbol := ws_symbol sock;
               readyState := match readyState sock with
                             | CLOSED => CLOSED
                             | _ => CLOSING
                             end |}
  /\ length (sockets (unsubscribe m s)) = length (sockets m)
  /\ sleeps (unsubscribe m s) = sleeps m.
Proof.
  intros Hc Hs. unfold unsubscribe. rewrite Hc.
  cbn [reconnectAttempts sockets sleeps set_reconnectAttempts set_connections ws_close
       set_sockets].
  split; [apply lookup_delete_eq|].
  split; [now rewrite list_lookup_alter_eq, Hs|].
  split; [apply length_alter | reflexivity].
Qed.

(** X11: after [unsubscribe] the symbol is not registered: its status is
    [disconnected] and it is not among the active subscriptions.  If it
    was registered, its counter is removed and its socket is told to
    close; if it was not, nothing changes (a counter left by a failed
    reconnect stays).  No socket is constructed, every other symbol keeps
    its registration and counter, and unsubscribing again changes
    nothing. *)
Theorem unsubscribe_removes_only_the_symbol (m : Manager) (s : string) :
  let m' := unsubscribe m s in
  (getConnectionStatus m' s = disconnected /\ s ∉ getActiveSubscriptions m')
  /\ (forall ws sock, connections m !! s = Some ws -> sockets m !! ws = Some sock ->
        reconnectAttempts m' !! s = None
        /\ sockets m' !! ws
           = Some {| ws_symbol := ws_symbol sock;
                     readyState := match readyState sock with
                                   | CLOSED => CLOSED
                                   | _ => CLOSING
                                   end |})
  /\ (connections m !! s = None -> m' = m)
  /\ (length (sockets m') = length (sockets m)
      /\ subscriptionQueue m' = subscriptionQueue m)
  /\ (forall s', s' <> s ->
        connections m' !! s' = connections m !! s'
        /\ reconnectAttempts m' !! s' = reconnectAttempts m !! s')
  /\ unsubscribe m' s = m'.
Proof.
  cbv zeta. split.
  { split; [apply unsubscribe_status|].
    rewrite elem_of_active, (unsubscribe_connections m s), lookup_delete_eq.
    intros [? H]. discriminate H. }
  split.
  { intros ws sock Hc Hs.
    destruct (unsubscribe_registered m s ws sock Hc Hs) as (H1 & H2 & _).
    now split. }
  split.
  { intros Hc. unfold unsubscribe. now rewrite Hc. }
  split.
  { split; [apply unsubscribe_sockets_length|].
    unfold unsubscribe. now destruct (connections m !! s). }
  split.
  { intros s' Hne. rewrite (unsubscribe_connections m s).
    split; [now apply lookup_delete_ne|].
    unfold unsubscribe. destruct (connections m !! s); [|reflexivity].
    cbn [reconnectAttempts set_reconnectAttempts]. now apply lookup_delete_ne. }
  unfold unsubscribe at 1.
  now rewrite (unsubscribe_connections m s), lookup_delete_eq.
Qed.

(** A close handled for a symbol that is neither registered nor counted:
    the first attempt, which connects the symbol. *)
Lemma handleDisconnection_fresh (m : Manager) (s : string) :
  connections m !! s = None ->
  reconnectAttempts m !! s = None ->
  ctor_ok s = true ->
  0 < cfg_reconnectAttempts cfg ->
  let m' := fst (handleDisconnection cfg ctor_ok m s) in
  connections m' !! s = Some (length (sockets m))
  /\ sockets m' = sockets m ++ [{| ws_symbol := s; readyState := CONNECTING |}]
  /\ reconnectAttempts m' !! s = Some 0
  /\ sleeps m' = sleeps m ++ [cfg_reconnectInterval cfg].
Proof.
  intros Hc Hr Hok Hpos. cbv zeta. unfold handleDisconnection.
  rewrite Hr. cbn [default from_option id].
  destruct (Z.ltb_spec 0 (cfg_reconnectAttempts cfg)) as [_|Hge]; [|lia].
  rewrite (connectToSymbol_fresh ctor_ok) by assumption.
  cbn [fst connections sockets reconnectAttempts sleeps sleep
       set_reconnectAttempts set_connections set_sockets].
  rewrite !lookup_insert_eq. repeat split.
Qed.

(** X12: unsubscribing a symbol whose socket is still open does not last.
    The close that [unsubscribe] asks for comes back as a close event,
    [handleDisconnection] finds no counter and no registration, and, if a
    socket can be constructed and at least one attempt is allowed, it
    connects the symbol again with a new socket. *)
Theorem close_after_unsubscribe_reconnects
    (m : Manager) (s : string) (ws : nat) (sock : WebSocket) :
  connections m !! s = Some ws ->
  sockets m !! ws = Some sock ->
  ws_symbol sock = s ->
  ctor_ok s = true ->
  0 < cfg_reconnectAttempts cfg ->
  let m1 := unsubscribe m s in
  let m2 := fst (on_close cfg ctor_ok m1 ws) in
  getConnectionStatus m1 s = disconnected
  /\ connections m2 !! s = Some (length (sockets m))
  /\ sockets m2 !! length (sockets m)
     = Some {| ws_symbol := s; readyState := CONNECTING |}
  /\ reconnectAttempts m2 !! s = Some 0
  /\ sleeps m2 = sleeps m ++ [cfg_reconnectInterval cfg]
  /\ getConnectionStatus m2 s = connecting.
Proof.
  intros Hc Hs Hsym Hok Hpos. cbv zeta.
  split; [apply unsubscribe_status|].
  destruct (unsubscribe_registered m s ws sock Hc Hs)
    as (Hr1 & Hs1 & Hl1 & Hsl1).
  pose proof (unsubscribe_connections m s) as Hc1.
  set (m1 := unsubscribe m s) in *.
  unfold on_close. rewrite Hs1. cbn [ws_symbol]. rewrite Hsym.
  set (m1' := set_sockets _ m1).
  assert (Hc1' : connections m1' !! s = None)
    by (unfold m1'; cbn [connections set_sockets]; rewrite Hc1; apply lookup_delete_eq).
  assert (Hr1' : reconnectAttempts m1' !! s = None) by exact Hr1.
  assert (Hl1' : length (sockets m1') = length (sockets m))
    by (unfold m1'; cbn [sockets set_sockets]; now rewrite length_alter).
  assert (Hsl1' : sleeps m1' = sleeps m) by exact Hsl1.
  destruct (handleDisconnection_fresh m1' s Hc1' Hr1' Hok Hpos) as (H1 & H2 & H3 & H4).
  rewrite Hl1' in H1.
  assert (Hnew : sockets (fst (handleDisconnection cfg ctor_ok m1' s))
                   !! length (sockets m)
                 = Some {| ws_symbol := s; readyState := CONNECTING |}).
  { rewrite H2, lookup_app_r by lia. now rewrite Hl1', Nat.sub_diag. }
  split; [exact H1|]. split; [exact Hnew|]. split; [exact H3|].
  split; [now rewrite H4, Hsl1'|].
  unfold getConnectionStatus. now rewrite H1, Hnew.
Qed.

(** A close handled for a registered symbol that has attempts left. *)
Lemma handleDisconnection_counts (m : Manager) (s : string) (ws : nat) :
  connections m !! s = Some ws ->
  default 0 (reconnectAttempts m !! s) < cfg_reconnectAttempts cfg ->
  let m' := fst (handleDisconnection cfg ctor_ok m s) in
  connections m' = connections m
  /\ sockets m' = sockets m
  /\ reconnectAttempts m' !! s = Some (default 0 (reconnectAttempts m !! s) + 1)
  /\ sleeps m' = sleeps m ++ [cfg_reconnectInterval cfg].
Proof.
  intros Hc Hlt. cbv zeta. unfold handleDisconnection.
  destruct (Z.ltb_spec (default 0 (reconnectAttempts m !! s)) (cfg_reconnectAttempts cfg))
    as [_|Hge]; [|lia].
  rewrite (connectToSymbol_registered ctor_ok)
    by (cbn [connections sleep set_reconnectAttempts]; rewrite Hc; eauto).
  cbn [fst connections sockets reconnectAttempts sleeps sleep set_reconnectAttempts].
  rewrite lookup_insert_eq. repeat split.
Qed.

(** A close handled for a registered symbol that has no attempt left. *)
Lemma handleDisconnection_gives_up (m : Manager) (s : string) :
  cfg_reconnectAttempts cfg <= default 0 (reconnectAttempts m !! s) ->
  fst (handleDisconnection cfg ctor_ok m s) = unsubscribe m s.
Proof.
  intros Hge. unfold handleDisconnection.
  destruct (Z.ltb_spec (default 0 (reconnectAttempts m !! s)) (cfg_reconnectAttempts cfg))
    as [Hlt|_]; [lia | reflexivity].
Qed.

Lemma disconnections_snoc (k : nat) (m : Manager) (s : string) :
  disconnections cfg ctor_ok (S k) m s
  = fst (handleDisconnection cfg ctor_ok (disconnections cfg ctor_ok k m s) s).
Proof.
  revert m. induction k as [|k IH]; intros m; [reflexivity|].
  change (disconnections cfg ctor_ok (S (S k)) m s)
    with (disconnections cfg ctor_ok (S k)
            (fst (handleDisconnection cfg ctor_ok m s)) s).
  now rewrite IH.
Qed.

Lemma disconnections_count (k : nat) :
  forall (m : Manager) (s : string) (ws : nat),
    connections m !! s = Some ws ->
    default 0 (reconnectAttempts m !! s) + Z.of_nat k <= cfg_reconnectAttempts cfg ->
    let m' := disconnections cfg ctor_ok k m s in
    connections m' = connections m
    /\ sockets m' = sockets m
    /\ default 0 (reconnectAttempts m' !! s)
       = default 0 (reconnectAttempts m !! s) + Z.of_nat k
    /\ sleeps m' = sleeps m ++ replicate k (cfg_reconnectInterval cfg).
Proof.
  induction k as [|k IH]; intros m s ws Hc Hle; cbv zeta.
  - cbn [disconnections replicate]. rewrite Z.add_0_r, app_nil_r. repeat split.
  - cbn [disconnections].
    destruct (handleDisconnection_counts m s ws Hc ltac:(lia)) as (H1 & H2 & H3 & H4).
    set (m1 := fst (handleDisconnection cfg ctor_ok m s)) in *.
    destruct (IH m1 s ws) as (I1 & I2 & I3 & I4).
    + now rewrite H1.
    + rewrite H3. cbn [default from_option id]. lia.
    + rewrite I1, I2, I3, I4, H1, H2, H3, H4. cbn [default from_option id replicate].
      repeat split; [lia|]. now rewrite <- app_assoc.
Qed.

(** X13: for a symbol that stays registered, [handleDisconnection] counts
    up to the configured maximum, waiting the reconnect interval each
    time and constructing no socket, and the call after that unsubscribes
    the symbol: from a counter [c] the symbol is given up on the call
    number [max - c + 1]. *)
Theorem disconnections_give_up_after_the_maximum
    (m : Manager) (s : string) (ws : nat) :
  connections m !! s = Some ws ->
  0 <= default 0 (reconnectAttempts m !! s) <= cfg_reconnectAttempts cfg ->
  let left := Z.to_nat (cfg_reconnectAttempts cfg - default 0 (reconnectAttempts m !! s)) in
  let m' := disconnections cfg ctor_ok left m s in
  let m'' := disconnections cfg ctor_ok (S left) m s in
  (connections m' !! s = Some ws
   /\ default 0 (reconnectAttempts m' !! s) = cfg_reconnectAttempts cfg
   /\ sleeps m' = sleeps m ++ replicate left (cfg_reconnectInterval cfg))
  /\ (getConnectionStatus m'' s = disconnected
      /\ reconnectAttempts m'' !! s = None
      /\ sleeps m'' = sleeps m'
      /\ length (sockets m'') = length (sockets m)).
Proof.
  intros Hc Hr. cbv zeta.
  set (left := Z.to_nat (cfg_reconnectAttempts cfg - default 0 (reconnectAttempts m !! s))).
  destruct (disconnections_count left m s ws Hc ltac:(unfold left; lia))
    as (H1 & H2 & H3 & H4).
  assert (Hc' : connections (disconnections cfg ctor_ok left m s) !! s = Some ws)
    by (now rewrite H1).
  assert (Hmax : default 0 (reconnectAttempts (disconnections cfg ctor_ok left m s) !! s)
                 = cfg_reconnectAttempts cfg) by (rewrite H3; unfold left; lia).
  split; [repeat split; assumption|].
  rewrite disconnections_snoc, handleDisconnection_gives_up by lia.
  split; [apply unsubscribe_status|].
  split.
  { unfold unsubscribe. rewrite Hc'.
    cbn [reconnectAttempts set_reconnectAttempts]. apply lookup_delete_eq. }
  split.
  { unfold unsubscribe. now rewrite Hc'. }
  rewrite unsubscribe_sockets_length. now rewrite H2.
Qed.

Lemma foldl_unsubscribe_connections (l : list string) (m : Manager) (k : string) :
  connections (foldl unsubscribe m l) !! k
  = if decide (k ∈ l) then None else connections m !! k.
Proof.
  revert m. induction l as [|s l IH]; intros m; cbn [foldl].
  - destruct (decide (k ∈ [])) as [H|_]; [inversion H | reflexivity].
  - rewrite IH, (unsubscribe_connections m s).
    destruct (decide (k ∈ l)) as [Hin|Hout], (decide (k ∈ s :: l)) as [Hin'|Hout'];
      try reflexivity.
    + exfalso. apply Hout'. now right.
    + apply elem_of_cons in Hin' as [->|Hin']; [apply lookup_delete_eq | contradiction].
    + apply lookup_delete_ne. intros ->. apply Hout'. left.
Qed.

Lemma foldl_unsubscribe_sockets (l : list string) (m : Manager) :
  length (sockets (foldl unsubscribe m l)) = length (sockets m).
Proof.
  revert m. induction l as [|s l IH]; intros m; cbn [foldl]; [reflexivity|].
  now rewrite IH, unsubscribe_sockets_length.
Qed.

(** X14: [unsubscribeAll] leaves no symbol registered: the connections map
    is empty, every symbol's status is [disconnected], and no socket is
    constructed. *)
Theorem unsubscribeAll_disconnects_everything (m : Manager) :
  let m' := unsubscribeAll m in
  connections m' = ∅
  /\ getActiveSubscriptions m' = []
  /\ (forall s, getConnectionStatus m' s = disconnected)
  /\ length (sockets m') = length (sockets m).
Proof.
  cbv zeta.
  assert (H : connections (unsubscribeAll m) = ∅).
  { apply map_eq. intros k. unfold unsubscribeAll.
    rewrite foldl_unsubscribe_connections, lookup_empty.
    destruct (decide (k ∈ getActiveSubscriptions m)) as [_|Hout]; [reflexivity|].
    rewrite elem_of_active in Hout.
    destruct (connections m !! k) eqn:E; [|reflexivity].
    exfalso. apply Hout. eauto. }
  split; [exact H|]. split.
  { unfold getActiveSubscriptions. rewrite H. now rewrite map_to_list_empty. }
  split.
  { intros s. unfold getConnectionStatus. now rewrite H, lookup_empty. }
  apply foldl_unsubscribe_sockets.
Qed.

(** *** Draining the queue *)

Lemma delete_all_filter (batch q : list string) :
  foldl (fun q symbol => queue_delete symbol q) q batch
  = filter (fun s => s ∉ batch) q.
Proof.
  revert q. induction batch as [|x batch IH]; intros q; cbn [foldl].
  - induction q as [|y q IHq]; [reflexivity|].
    rewrite filter_cons_True by (intros H; inversion H). now rewrite <- IHq.
  - rewrite IH. unfold queue_delete. rewrite list_filter_filter.
    apply list_filter_iff. intros y. rewrite not_elem_of_cons. tauto.
Qed.

Lemma filter_out_all (l q : list string) :
  (forall s, s ∈ q -> s ∈ l) -> filter (fun s => s ∉ l) q = [].
Proof.
  induction q as [|y q IH]; intros H; [reflexivity|].
  rewrite filter_cons_False by (intros Hy; apply Hy, H; left).
  apply IH. intros s Hs. apply H. now right.
Qed.

Lemma filter_out_none (l q : list string) :
  (forall s, s ∈ q -> s ∉ l) -> filter (fun s => s ∉ l) q = q.
Proof.
  induction q as [|y q IH]; intros H; [reflexivity|].
  rewrite filter_cons_True by (apply H; left).
  f_equal. apply IH. intros s Hs. apply H. now right.
Qed.

(** Deleting the first [b] symbols of a duplicate-free queue leaves the
    rest of it. *)
Lemma delete_batch_drop (b : nat) (q : list string) :
  NoDup q ->
  foldl (fun q symbol => queue_delete symbol q) q (take b q) = drop b q.
Proof.
  intros Hnd. rewrite delete_all_filter.
  rewrite <- (take_drop b q) in Hnd at 1.
  apply NoDup_app in Hnd as (_ & Hdisj & _).
  transitivity (filter (fun s => s ∉ take b q) (take b q ++ drop b q));
    [now rewrite take_drop|].
  rewrite filter_app.
  rewrite filter_out_all by auto.
  rewrite filter_out_none; [reflexivity|].
  intros s Hs Ht. exact (Hdisj s Ht Hs).
Qed.

Lemma queue_add_NoDup (s : string) (q : list string) :
  NoDup q -> NoDup (queue_add s q).
Proof.
  intros H. unfold queue_add. destruct (decide (s ∈ q)) as [Hin|Hout]; [exact H|].
  apply NoDup_app. repeat split; [exact H | | apply NoDup_singleton].
  intros x Hx Hx'. apply list_elem_of_singleton in Hx'. now subst.
Qed.

Lemma connectToSymbol_sleeps (m : Manager) (s : string) :
  sleeps (fst (connectToSymbol ctor_ok m s)) = sleeps m
  /\ processingQueue (fst (connectToSymbol ctor_ok m s)) = processingQueue m.
Proof.
  unfold connectToSymbol. destruct (connections m !! s); [now split|].
  now destruct (ctor_ok s).
Qed.

Lemma connectBatch_sleeps (batch : list string) (m : Manager) :
  sleeps (fst (connectBatch ctor_ok m batch)) = sleeps m
  /\ processingQueue (fst (connectBatch ctor_ok m batch)) = processingQueue m.
Proof.
  revert m. induction batch as [|s batch IH]; intros m; [now split|].
  rewrite (connectBatch_cons ctor_ok). cbn [fst].
  destruct (IH (fst (connectToSymbol ctor_ok m s))) as [-> ->].
  apply connectToSymbol_sleeps.
Qed.

Lemma connectBatch_connectable (batch : list string) (m : Manager) (s : string) :
  connectable ctor_ok (fst (connectBatch ctor_ok m batch)) s <-> connectable ctor_ok m s.
Proof.
  revert m. induction batch as [|x batch IH]; intros m; [reflexivity|].
  rewrite (connectBatch_cons ctor_ok). cbn [fst].
  rewrite IH. apply connectToSymbol_connectable.
Qed.

(** One turn of the loop on a duplicate-free queue whose batch can be
    connected. *)
Lemma drainStep_resolved (m : Manager) :
  NoDup (subscriptionQueue m) ->
  (forall s, s ∈ subscriptionQueue m -> connectable ctor_ok m s) ->
  let b := cfg_subscriptionBatchSize cfg in
  let m' := drainStep cfg ctor_ok m in
  subscriptionQueue m' = drop b (subscriptionQueue m)
  /\ sleeps m' = sleeps m
  /\ (forall s, is_Some (connections m !! s) \/ s ∈ take b (subscriptionQueue m) ->
        is_Some (connections m' !! s))
  /\ (forall s, connectable ctor_ok m s -> connectable ctor_ok m' s).
Proof.
  intros Hnd Hall. cbv zeta. unfold drainStep.
  set (batch := take (cfg_subscriptionBatchSize cfg) (subscriptionQueue m)).
  assert (Hb : forall s, s ∈ batch -> connectable ctor_ok m s).
  { intros s Hs. apply Hall. unfold batch in Hs.
    apply list_elem_of_lookup in Hs as [i Hi]. apply lookup_take_Some in Hi as [Hi _].
    apply list_elem_of_lookup. eauto. }
  pose proof (proj2 (connectBatch_resolves ctor_ok batch m) Hb) as Hres.
  pose proof (connectBatch_queue ctor_ok batch m) as Hq.
  pose proof (connectBatch_sleeps batch m) as [Hs _].
  pose proof (connectBatch_registers ctor_ok batch m) as Hreg.
  pose proof (fun s => connectBatch_connectable batch m s) as Hcon.
  destruct (connectBatch ctor_ok m batch) as [m1 promises]. cbn [fst snd] in *.
  rewrite Hres. cbn [subscriptionQueue sleeps connections set_subscriptionQueue].
  rewrite Hq. split; [now apply delete_batch_drop|]. split; [exact Hs|].
  split.
  - intros s [H|H]; apply Hreg; [now left|].
    destruct (Hb s H) as [Hc|Hok]; [now left | right; now split].
  - intros s H. unfold connectable in *.
    cbn [connections set_subscriptionQueue]. now apply Hcon.
Qed.

Lemma pauses_step (n b : nat) :
  (0 < b)%nat -> (b < n)%nat -> ((n - 1) / b = S ((n - b - 1) / b))%nat.
Proof.
  intros Hb Hn. replace (n - 1)%nat with ((n - b - 1) + 1 * b)%nat by lia.
  rewrite Nat.div_add by lia. lia.
Qed.

Lemma drainLoop_drains (fuel : nat) :
  forall m : Manager,
    (0 < cfg_subscriptionBatchSize cfg)%nat ->
    NoDup (subscriptionQueue m) ->
    (forall s, s ∈ subscriptionQueue m -> connectable ctor_ok m s) ->
    (length (subscriptionQueue m) < fuel)%nat ->
    exists m',
      drainLoop cfg ctor_ok fuel m = Some m'
      /\ subscriptionQueue m' = []
      /\ processingQueue m' = false
      /\ (forall s, is_Some (connections m !! s) \/ s ∈ subscriptionQueue m ->
            is_Some (connections m' !! s))
      /\ sleeps m'
         = sleeps m
           ++ replicate ((length (subscriptionQueue m) - 1) / cfg_subscriptionBatchSize cfg)
                (cfg_subscriptionBatchInterval cfg).
Proof.
  induction fuel as [|fuel IH]; intros m Hb Hnd Hall Hf; [lia|].
  cbn [drainLoop].
  destruct (subscriptionQueue m) as [|x q] eqn:Eq.
  - cbn [length Nat.ltb Nat.leb]. eexists. split; [reflexivity|].
    cbn [subscriptionQueue processingQueue connections sleeps set_processingQueue].
    rewrite Eq. cbn [length Nat.sub Nat.div]. rewrite Nat.Div0.div_0_l.
    cbn [replicate]. rewrite app_nil_r.
    repeat split. intros s [H|H]; [exact H | inversion H].
  - rewrite <- Eq in *.
    assert (Hpos : (0 < length (subscriptionQueue m))%nat) by (rewrite Eq; cbn; lia).
    destruct (Nat.ltb_spec 0 (length (subscriptionQueue m))) as [_|?]; [|lia].
    destruct (drainStep_resolved m Hnd Hall) as (Hq1 & Hs1 & Hreg1 & Hcon1).
    set (m1 := drainStep cfg ctor_ok m) in *.
    set (b := cfg_subscriptionBatchSize cfg) in *.
    set (m2 := if (0 <? length (subscriptionQueue m1))%nat
               then sleep (cfg_subscriptionBatchInterval cfg) m1 else m1).
    assert (Hq2 : subscriptionQueue m2 = subscriptionQueue m1)
      by (unfold m2; now destruct (0 <? length (subscriptionQueue m1))%nat).
    assert (Hc2 : connections m2 = connections m1)
      by (unfold m2; now destruct (0 <? length (subscriptionQueue m1))%nat).
    destruct (IH m2) as (m' & Hrun & Hq' & Hp' & Hreg' & Hs').
    + exact Hb.
    + rewrite Hq2, Hq1. rewrite <- (take_drop b (subscriptionQueue m)) in Hnd.
      now apply NoDup_app in Hnd as (_ & _ & Hnd).
    + intros s Hs. rewrite Hq2, Hq1 in Hs.
      assert (Hin : s ∈ subscriptionQueue m).
      { rewrite <- (take_drop b (subscriptionQueue m)). apply elem_of_app. now right. }
      specialize (Hcon1 s (Hall s Hin)). unfold connectable in *. now rewrite Hc2.
    + rewrite Hq2, Hq1, length_drop. lia.
    + exists m'. split; [exact Hrun|]. split; [exact Hq'|]. split; [exact Hp'|]. split.
      * intros s H. apply Hreg'. rewrite Hc2, Hq2, Hq1.
        destruct H as [H|H]; [left; apply Hreg1; now left|].
        rewrite <- (take_drop b (subscriptionQueue m)) in H.
        apply elem_of_app in H as [H|H]; [left; apply Hreg1; now right | now right].
      * rewrite Hs', Hq2, Hq1, length_drop. unfold m2.
        destruct (Nat.ltb_spec 0 (length (subscriptionQueue m1))) as [Hlt|Hge].
        -- cbn [sleeps sleep]. rewrite Hs1, <- app_assoc. f_equal.
           rewrite Hq1, length_drop in Hlt.
           rewrite (pauses_step (length (subscriptionQueue m)) b) by lia.
           reflexivity.
        -- rewrite Hs1. rewrite Hq1, length_drop in Hge.
           replace (length (subscriptionQueue m) - b - 1)%nat with 0%nat by lia.
           rewrite Nat.Div0.div_0_l.
           rewrite (Nat.div_small (length (subscriptionQueue m) - 1) b) by lia.
           reflexivity.
Qed.

(** X15: when a socket can be constructed for every queued symbol that is
    not registered yet, [processSubscriptionQueue] returns: on a
    duplicate-free queue of [n] symbols with batch size [b > 0] it ends
    within [n + 1] turns of the loop with the queue empty, the processing
    flag cleared and every queued symbol registered, having paused the
    batch interval [(n - 1) / b] times (between batches, not after the
    last one). *)
Theorem queue_drains_when_all_connect (m : Manager) (fuel : nat) :
  (0 < cfg_subscriptionBatchSize cfg)%nat ->
  NoDup (subscriptionQueue m) ->
  (forall s, s ∈ subscriptionQueue m -> connectable ctor_ok m s) ->
  (length (subscriptionQueue m) < fuel)%nat ->
  exists m',
    processSubscriptionQueue cfg ctor_ok fuel m = Some m'
    /\ subscriptionQueue m' = []
    /\ processingQueue m' = false
    /\ (forall s, is_Some (connections m !! s) \/ s ∈ subscriptionQueue m ->
          is_Some (connections m' !! s))
    /\ sleeps m'
       = sleeps m
         ++ replicate ((length (subscriptionQueue m) - 1) / cfg_subscriptionBatchSize cfg)
              (cfg_subscriptionBatchInterval cfg).
Proof.
  intros Hb Hnd Hall Hf. unfold processSubscriptionQueue.
  exact (drainLoop_drains fuel (set_processingQueue true m) Hb Hnd Hall Hf).
Qed.

End ManagerOps.

Section ManagerOpsSamples.
Import WS WSTrace.
Local Open Scope Z_scope.

Lemma close_after_unsubscribe_reconnects_witness :
  let m := Samples.one_connected in
  let m2 := fst (on_close default_config Samples.all_ok (unsubscribe m "AAPL") 0) in
  getConnectionStatus (unsubscribe m "AAPL") "AAPL" = disconnected
  /\ connections m2 !! "AAPL" = Some 1%nat
  /\ getConnectionStatus m2 "AAPL" = connecting.
Proof.
  cbv zeta.
  destruct (close_after_unsubscribe_reconnects default_config Samples.all_ok
              Samples.one_connected "AAPL" 0
              {| ws_symbol := "AAPL"; readyState := CONNECTING |}
              eq_refl eq_refl eq_refl eq_refl eq_refl)
    as (H1 & H2 & _ & _ & _ & H3).
  repeat split; assumption.
Defined.

Lemma disconnections_give_up_after_the_maximum_witness :
  let m := Samples.one_connected in
  connections (disconnections default_config Samples.all_ok 5 m "AAPL") !! "AAPL"
  = Some 0%nat
  /\ getConnectionStatus (disconnections default_config Samples.all_ok 6 m "AAPL") "AAPL"
     = disconnected.
Proof.
  cbv zeta.
  destruct (disconnections_give_up_after_the_maximum default_config Samples.all_ok
              Samples.one_connected "AAPL" 0 eq_refl)
    as ((H1 & _) & (H2 & _)).
  - split; discriminate.
  - split; [exact H1 | exact H2].
Defined.

Lemma queue_drains_when_all_connect_witness :
  exists m',
    processSubscriptionQueue (make_config None None (Some 2%nat) None) Samples.all_ok 4
      Samples.three_pending = Some m'
    /\ subscriptionQueue m' = []
    /\ sleeps m' = [1000].
Proof.
  destruct (queue_drains_when_all_connect (make_config None None (Some 2%nat) None)
              Samples.all_ok Samples.three_pending 4)
    as (m' & H1 & H2 & _ & _ & H3).
  - cbn. lia.
  - cbn. repeat constructor; rewrite ?elem_of_cons, ?elem_of_nil; intuition discriminate.
  - intros s _. now right.
  - cbn. lia.
  - exists m'. split; [exact H1|]. split; [exact H2 | exact H3].
Defined.

End ManagerOpsSamples.

(** ** The hook over a trace of events *)

Section HookTrace.
Import Reconciler ReconcilerSpec Stream.

Variable opts : Options.

Lemma flush_without_batching (h : Hook) :
  batchUpdates opts && has_onUpdate opts = false -> flush opts h = [].
Proof. intros H. unfold flush. now rewrite H. Qed.

Lemma processMessage_calls (h : Hook) (message : WebSocketMessage) :
  calls (processMessage opts h message)
  = calls h
    ++ (if negb (batchUpdates opts) && has_onUpdate opts
        then option_list (stored message) else []).
Proof.
  unfold processMessage, stored, make_update.
  destruct (m_type message), (m_data message);
    cbn [try_catch bind calls];
    destruct (negb (batchUpdates opts) && has_onUpdate opts);
    cbn [option_list]; now rewrite ?app_nil_r.
Qed.

Lemma stored_updates_cons (e : Event) (events : list Event) :
  stored_updates (e :: events)
  = match e with Message message => option_list (stored message) | Tick => [] end
    ++ stored_updates events.
Proof.
  unfold stored_updates. destruct e as [message|]; simpl; [|reflexivity].
  now destruct (stored message).
Qed.

Lemma calls_from (events : list Event) :
  forall h,
    calls (foldl (step opts) h events)
    = calls h
      ++ (if has_onUpdate opts
          then if batchUpdates opts then concat (flushes opts h events)
               else stored_updates events
          else []).
Proof.
  induction events as [|[message|] events IH]; intros h; cbn [foldl step].
  - cbn [flushes concat]. destruct (has_onUpdate opts), (batchUpdates opts);
      now rewrite app_nil_r.
  - rewrite IH, processMessage_calls, stored_updates_cons. cbn [flushes].
    destruct (has_onUpdate opts), (batchUpdates opts); cbn [negb andb];
      rewrite <- ?app_assoc, ?app_nil_r; reflexivity.
  - rewrite IH, stored_updates_cons. cbn [flushes concat tick calls app].
    destruct (has_onUpdate opts) eqn:Ho, (batchUpdates opts) eqn:Hb;
      rewrite <- ?app_assoc, ?app_nil_r; try reflexivity;
      rewrite flush_without_batching by (rewrite Ho, Hb; reflexivity);
      now rewrite ?app_nil_r.
Qed.

(** X16: the callback is served in exactly one of two ways.  With
    [onUpdate] and batching, the calls are the flushes of the trace, one
    after the other, and a message by itself calls nothing; with
    [onUpdate] and no batching, the calls are the stored updates of the
    messages, one per message in order of arrival, and the interval
    delivers nothing; without [onUpdate] nothing is called. *)
Theorem calls_by_mode (events : list Event) :
  calls (run opts events)
  = if has_onUpdate opts
    then if batchUpdates opts then concat (flushes opts mount events)
         else stored_updates events
    else [].
Proof. unfold run. now rewrite calls_from. Qed.

Lemma first_seen_snoc (l : list string) (s : string) :
  first_seen (l ++ [s]) = WS.queue_add s (first_seen l).
Proof. unfold first_seen. now rewrite foldl_app. Qed.

Lemma stored_updates_snoc (events : list Event) (e : Event) :
  stored_updates (events ++ [e])
  = stored_updates events
    ++ match e with Message message => option_list (stored message) | Tick => [] end.
Proof.
  unfold stored_updates. rewrite omap_app. f_equal.
  destruct e as [message|]; simpl; [|reflexivity].
  now destruct (stored message).
Qed.

Lemma run_snoc (events : list Event) (e : Event) :
  run opts (events ++ [e]) = step opts (run opts events) e.
Proof. unfold run. now rewrite foldl_app. Qed.

Lemma keys_run (events : list Event) :
  map fst (updates (run opts events)) = first_seen (map symbol (stored_updates events)).
Proof.
  induction events as [|e events IH] using rev_ind; [reflexivity|].
  rewrite run_snoc, stored_updates_snoc, map_app.
  destruct e as [message|]; cbn [step].
  - rewrite processMessage_updates.
    destruct (stored message) as [u|] eqn:E; simpl.
    + rewrite first_seen_snoc, keys_map_set, IH.
      rewrite (stored_symbol message u E). reflexivity.
    + now rewrite app_nil_r.
  - cbn [tick updates map]. now rewrite app_nil_r.
Qed.

(** X17: what the accessors return does not depend on the delivery mode:
    [getLatestUpdate] gives the update of the last message that stored one
    for the symbol, and [getAllUpdates] gives exactly these updates, one
    per symbol, the symbols in the order in which each first arrived (a
    later update takes the place of the earlier one). *)
Theorem accessors_return_the_latest (events : list Event) :
  let h := run opts events in
  (forall s, getLatestUpdate h s = latest events s)
  /\ (forall u, u ∈ getAllUpdates h <-> latest events (symbol u) = Some u)
  /\ map symbol (getAllUpdates h) = first_seen (map symbol (stored_updates events)).
Proof.
  cbv zeta. unfold getLatestUpdate, getAllUpdates.
  assert (Hm : well_keyed (updates mount)) by (split; constructor).
  destruct (run_from opts events mount Hm) as [Hw Hget]. fold (run opts events) in *.
  assert (Hl : forall s, map_get s (updates (run opts events)) = latest events s).
  { intros s. rewrite Hget. now destruct (latest events s). }
  split; [exact Hl|]. split.
  - intros u. rewrite (elem_of_values _ u Hw). now rewrite Hl.
  - rewrite (values_symbols _ Hw). apply keys_run.
Qed.

(** A message leaves the error text alone exactly when it stores an
    update. *)
Lemma processMessage_error (h : Hook) (message : WebSocketMessage) :
  match stored message with
  | Some _ => error_text (processMessage opts h message) = error_text h
  | None => is_Some (error_text (processMessage opts h message))
  end.
Proof.
  unfold processMessage, stored, make_update.
  destruct (m_type message), (m_data message); cbn [try_catch bind error_text]; eauto.
Qed.

(** X18: processing messages never clears the error: after a trace the
    error text is unset exactly when every message of the trace stored an
    update, that is, none was of type [error] and none had a payload that
    could not be read. *)
Theorem error_is_never_cleared (events : list Event) :
  error_text (run opts events) = None
  <-> Forall (fun e => match e with
                       | Message message => is_Some (stored message)
                       | Tick => True
                       end) events.
Proof.
  induction events as [|e events IH] using rev_ind.
  - split; [constructor | reflexivity].
  - rewrite run_snoc, Forall_app, Forall_singleton. destruct e as [message|]; cbn [step].
    + pose proof (processMessage_error (run opts events) message) as H.
      destruct (stored message) as [u|].
      * rewrite H, IH. split; [intros ?; split; eauto | tauto].
      * destruct H as [t Ht]. rewrite Ht. split; [discriminate|].
        intros [_ [? ?]]. discriminate.
    + cbn [tick error_text]. rewrite IH. tauto.
Qed.

End HookTrace.

Section StreamToHook.
Import Reconciler ReconcilerSpec Stream.

Lemma truthy_or_else (a b : value) :
  truthy (or_else a b) = truthy a || truthy b.
Proof. unfold or_else. destruct (truthy a) eqn:E; [now rewrite E | reflexivity]. Qed.

(** X19: a frame that [onmessage] passes on is never one the hook fails
    on.  The message carries the socket's symbol and the time of
    arrival; if it is not of type [error], the hook stores an update for
    that symbol with that time and leaves the error text as it was, so
    the text "Failed to process stock update" cannot come from a frame.
    A [trade] has a truthy price, [p] if that is truthy and [price]
    otherwise, a number or not; a [quote] is a frame whose [p] and
    [price] are both falsy, and it takes its price from the field [c],
    whatever that holds. *)
Theorem stream_messages_are_stored
    (opts : Options) (h : Hook) (sym : string) (parsed : result Json) (now : Z)
    (message : WebSocketMessage) :
  onmessage sym parsed now = Some message ->
  m_symbol message = sym
  /\ m_timestamp message = now
  /\ (m_type message <> error ->
      exists u data,
        m_data message = Some data
        /\ stored message = Some u
        /\ symbol u = sym /\ timestamp u = now
        /\ updates (processMessage opts h message) = map_set sym u (updates h)
        /\ error_text (processMessage opts h message) = error_text h
        /\ (m_type message = trade ->
            price u = or_else (d_p data) (d_price data) /\ truthy (price u) = true)
        /\ (m_type message = quote ->
            price u = d_c data
            /\ truthy (d_p data) = false /\ truthy (d_price data) = false)).
Proof.
  unfold onmessage. destruct parsed as [[|is_error fields]|e]; cbn [bind try_catch];
    try discriminate.
  cbn [determineMessageType].
  destruct is_error; cbn [bind try_catch].
  { intros [= <-]. cbn. repeat split. congruence. }
  destruct (truthy (or_else (d_p fields) (d_price fields))) eqn:Et;
    cbn [bind try_catch]; intros [= <-]; cbn [m_symbol m_timestamp m_type];
    (split; [reflexivity|]); (split; [reflexivity|]); intros _.
  - eexists _, fields. split; [reflexivity|].
    split; [reflexivity|]. cbn [symbol timestamp].
    split; [reflexivity|]. split; [reflexivity|].
    split; [reflexivity|]. split; [reflexivity|]. split; [|discriminate].
    intros _. cbn [price]. split; [reflexivity | exact Et].
  - eexists _, fields. split; [reflexivity|].
    split; [reflexivity|]. cbn [symbol timestamp].
    split; [reflexivity|]. split; [reflexivity|].
    split; [reflexivity|]. split; [reflexivity|]. split; [discriminate|].
    intros _. cbn [price]. split; [reflexivity|].
    rewrite truthy_or_else in Et. now apply orb_false_iff in Et.
Qed.

Lemma stream_messages_are_stored_witness :
  exists u,
    stored {| m_type := trade; m_symbol := "AAPL";
              m_data := Some Samples.text_price; m_timestamp := 1 |} = Some u
    /\ symbol u = "AAPL"
    /\ price u = Other "the string 150.5" true (Fin 150.5).
Proof.
  destruct (stream_messages_are_stored Samples.batching mount "AAPL"
              (Return (JValue false Samples.text_price)) 1
              {| m_type := trade; m_symbol := "AAPL";
                 m_data := Some Samples.text_price; m_timestamp := 1 |} eq_refl)
    as (_ & _ & H).
  destruct H as (u & data & Hd & Hs & Hsym & _ & _ & _ & Ht & _); [discriminate|].
  exists u. split; [exact Hs|]. split; [exact Hsym|].
  destruct (Ht eq_refl) as [Hp _]. rewrite Hp.
  injection Hd as <-. reflexivity.
Defined.

End StreamToHook.

(** ** The scanner page *)

Section Page.
Import ScannerPage.

Lemma ceil_step (n : nat) : (0 < n)%nat -> ((n + 2) / 3 = S ((n - 3 + 2) / 3))%nat.
Proof.
  intros Hn. destruct (le_lt_dec 3 n) as [Hge|Hlt].
  - replace (n + 2)%nat with ((n - 3 + 2) + 1 * 3)%nat by lia.
    rewrite Nat.div_add by lia. lia.
  - destruct n as [|[|[|n]]]; try lia; reflexivity.
Qed.

(** The loop only appends. *)
Lemma split_batches_keeps (selected : list string) (fuel : nat) :
  forall (j : nat) (acc : list (list string)) (x : list string) (n : nat),
    acc !! n = Some x -> split_batches fuel j selected acc !! n = Some x.
Proof.
  induction fuel as [|fuel IH]; intros j acc x n Hn; cbn [split_batches]; [exact Hn|].
  destruct (j <? length selected)%nat; [|exact Hn].
  apply IH. unfold push. now apply lookup_app_l_Some.
Qed.

Lemma split_batches_spec (selected : list string) (fuel : nat) :
  forall (i : nat) (acc : list (list string)),
    (length selected - i <= fuel)%nat ->
    let bs := split_batches fuel i selected acc in
    concat bs = concat acc ++ drop i selected
    /\ (Forall (fun b => (1 <= length b <= batchSize)%nat) acc ->
        Forall (fun b => (1 <= length b <= batchSize)%nat) bs)
    /\ length bs = (length acc + (length selected - i + 2) / 3)%nat
    /\ (forall k b, bs !! k = Some b -> (k + 1 < length bs)%nat ->
          (length acc <= k)%nat -> length b = batchSize).
Proof.
  induction fuel as [|fuel IH]; intros i acc Hf; cbv zeta.
  - assert (Hd : drop i selected = []) by (apply drop_ge; lia).
    cbn [split_batches]. rewrite Hd, app_nil_r.
    replace (length selected - i)%nat with 0%nat by lia.
    cbn. rewrite Nat.add_0_r. repeat split; [tauto|].
    intros k b Hk Hlt Hle. lia.
  - cbn [split_batches].
    destruct (Nat.ltb_spec i (length selected)) as [Hlt|Hge].
    + set (chunk := slice i (i + batchSize) selected).
      assert (Hlen : length chunk = Nat.min batchSize (length selected - i)).
      { unfold chunk, slice. rewrite length_take, length_drop. unfold batchSize. lia. }
      destruct (IH (i + batchSize)%nat (push acc chunk)) as (H1 & H2 & H3 & H4);
        [unfold batchSize; lia|].
      split; [|split; [|split]].
      * rewrite H1. unfold push. rewrite concat_app. cbn [concat].
        rewrite app_nil_r, <- app_assoc. f_equal.
        unfold chunk, slice.
        replace (i + batchSize - i)%nat with batchSize by lia.
        rewrite <- (take_drop batchSize (drop i selected)) at 2.
        f_equal. rewrite drop_drop. reflexivity.
      * intros Hacc. apply H2. unfold push. apply Forall_app. split; [exact Hacc|].
        constructor; [|constructor]. rewrite Hlen. unfold batchSize. lia.
      * rewrite H3. unfold push. rewrite length_app. cbn [length]. unfold batchSize.
        rewrite (ceil_step (length selected - i)) by lia.
        replace (length selected - (i + 3))%nat with (length selected - i - 3)%nat by lia.
        lia.
      * intros k b Hk Hk1 Hle.
        destruct (decide (k = length acc)) as [->|Hne].
        -- assert (Hb : b = chunk).
           { pose proof (split_batches_keeps selected fuel (i + batchSize)
                           (push acc chunk) chunk (length acc)) as Hpre.
             rewrite Hpre in Hk; [congruence|].
             unfold push. now rewrite list_lookup_middle. }
           subst b. rewrite Hlen.
           rewrite H3 in Hk1. unfold push in Hk1. rewrite length_app in Hk1.
           cbn [length] in Hk1.
           assert (Hpos : (0 < (length selected - (i + batchSize) + 2) / 3)%nat) by lia.
           assert (Hge3 : (3 <= length selected - (i + batchSize) + 2)%nat).
           { destruct (Nat.le_gt_cases 3 (length selected - (i + batchSize) + 2)) as [?|Hs];
               [assumption|]. rewrite Nat.div_small in Hpos by exact Hs. lia. }
           unfold batchSize in *. lia.
        -- apply (H4 k b Hk Hk1). unfold push. rewrite length_app. cbn [length]. lia.
    + rewrite drop_ge by lia. rewrite app_nil_r.
      replace (length selected - i)%nat with 0%nat by lia. cbn. rewrite Nat.add_0_r.
      repeat split; [tauto|]. intros k b Hk Hlt Hle. lia.
Qed.

(** X20: the batches of a scan partition the selected symbols: put one
    after the other they give the selection back, each holds between one
    and three symbols, all but the last hold exactly three, and there are
    [ceil(n / 3)] of them; the loop ends by its own condition within [n]
    turns. *)
Theorem batches_partition_the_selection (selected : list string) (fuel : nat) :
  (length selected <= fuel)%nat ->
  let batches := split_batches fuel 0 selected [] in
  concat batches = selected
  /\ Forall (fun b => (1 <= length b <= batchSize)%nat) batches
  /\ length batches = ((length selected + 2) / 3)%nat
  /\ (forall k b, batches !! k = Some b -> (k + 1 < length batches)%nat ->
        length b = batchSize).
Proof.
  intros Hf. cbv zeta.
  destruct (split_batches_spec selected fuel 0 []) as (H1 & H2 & H3 & H4); [lia|].
  rewrite drop_0 in H1. rewrite Nat.sub_0_r in H3. cbn [concat app length Nat.add] in *.
  split; [exact H1|]. split; [apply H2; constructor|]. split; [exact H3|].
  intros k b Hk Hlt. apply (H4 k b Hk Hlt). lia.
Qed.

Lemma batches_partition_the_selection_witness :
  concat (split_batches 4 0 ["AAPL"; "MSFT"; "GOOGL"; "AMZN"] [])
  = ["AAPL"; "MSFT"; "GOOGL"; "AMZN"].
Proof.
  apply (batches_partition_the_selection ["AAPL"; "MSFT"; "GOOGL"; "AMZN"] 4).
  cbn. lia.
Defined.

(** *** Merging scan results *)

Lemma existsb_symbol (opp : StockOpportunity) (l : list StockOpportunity) :
  existsb (fun existing => String.eqb (symbol existing) (symbol opp)) l = true
  <-> symbol opp ∈ map symbol l.
Proof.
  rewrite existsb_exists, list_elem_of_fmap. split.
  - intros (x & Hx & E). apply String.eqb_eq in E. exists x.
    split; [congruence | now apply list_elem_of_In].
  - intros (x & E & Hx). exists x. split; [now apply list_elem_of_In|].
    apply String.eqb_eq. congruence.
Qed.

Lemma add_all_spec (res : list StockOpportunity) :
  forall acc : list StockOpportunity,
    let l := foldl add_new acc res in
    (NoDup (map symbol acc) -> NoDup (map symbol l))
    /\ (forall opp, opp ∈ acc -> opp ∈ l)
    /\ (forall opp, opp ∈ l -> opp ∈ acc \/ (opp ∈ res /\ symbol opp ∉ map symbol acc))
    /\ (forall opp, opp ∈ res -> symbol opp ∈ map symbol l).
Proof.
  induction res as [|x res IH]; intros acc; cbv zeta; cbn [foldl].
  - repeat split; auto. intros opp H. inversion H.
  - destruct (IH (add_new acc x)) as (H1 & H2 & H3 & H4).
    assert (Hsub : forall opp, opp ∈ acc -> opp ∈ add_new acc x).
    { intros opp Hin. unfold add_new. destruct (existsb _ acc); [exact Hin|].
      unfold push. apply elem_of_app. now left. }
    assert (Hx : symbol x ∈ map symbol (add_new acc x)).
    { unfold add_new. destruct (existsb _ acc) eqn:E.
      - now apply existsb_symbol.
      - unfold push. rewrite map_app. apply elem_of_app. right. cbn. left. }
    split; [|split; [|split]].
    + intros Hnd. apply H1. unfold add_new. destruct (existsb _ acc) eqn:E; [exact Hnd|].
      unfold push. rewrite map_app. apply NoDup_app. split; [exact Hnd|].
      split; [|apply NoDup_singleton].
      intros s Hs Hs'. cbn in Hs'. apply list_elem_of_singleton in Hs'. subst s.
      apply existsb_symbol in Hs. congruence.
    + intros opp Hin. apply H2, Hsub, Hin.
    + intros opp Hin. destruct (H3 opp Hin) as [Ha|[Hr Hn]].
      * unfold add_new in Ha. destruct (existsb _ acc) eqn:E; [now left|].
        unfold push in Ha. apply elem_of_app in Ha as [Ha|Ha]; [now left|].
        apply list_elem_of_singleton in Ha. subst opp. right. split; [left|].
        intros Hs. apply existsb_symbol in Hs. congruence.
      * right. split; [now right|]. intros Hs. apply Hn.
        apply list_elem_of_fmap in Hs as (y & E & Hy).
        apply list_elem_of_fmap. exists y. split; [exact E | now apply Hsub].
    + intros opp Hin. apply elem_of_cons in Hin as [->|Hin]; [|now apply H4].
      apply list_elem_of_fmap in Hx as (y & E & Hy).
      apply list_elem_of_fmap. exists y. split; [exact E | now apply H2].
Qed.

(** X21: merging a scan into the opportunities shown keeps every entry
    that is shown: a result of the scan is added only if its symbol is not
    shown yet (so a newer result for a shown symbol is dropped), no symbol
    comes to be shown twice, every scanned symbol is shown afterwards,
    and the list is in descending order of gain when every gain is a
    number. *)
Theorem merge_keeps_what_is_shown (scanResults prev : list StockOpportunity) :
  NoDup (map symbol prev) ->
  let l := merge scanResults prev in
  NoDup (map symbol l)
  /\ (forall opp, opp ∈ prev -> opp ∈ l)
  /\ (forall opp, opp ∈ l ->
        opp ∈ prev \/ (opp ∈ scanResults /\ symbol opp ∉ map symbol prev))
  /\ (forall opp, opp ∈ scanResults -> symbol opp ∈ map symbol l)
  /\ (Forall (fun opp => JS.is_NaN (ToNumber (potential_gain opp)) = false)
        (prev ++ scanResults) ->
      StronglySorted (fun a b => JS.ge (ToNumber (potential_gain a))
                                       (ToNumber (potential_gain b)) = true) l).
Proof.
  intros Hnd. cbv zeta. unfold merge.
  destruct (add_all_spec scanResults prev) as (H1 & H2 & H3 & H4).
  set (newOpps := foldl add_new prev scanResults) in *.
  pose proof (js_sort_perm (fun o => ToNumber (potential_gain o)) newOpps) as Hp.
  cbn beta in Hp.
  set (l := js_sort _ newOpps) in *.
  assert (Hin : forall opp, opp ∈ l <-> opp ∈ newOpps)
    by (intros opp; now rewrite Hp).
  split; [|split; [|split; [|split]]].
  - rewrite Hp. now apply H1.
  - intros opp Ho. apply Hin. now apply H2.
  - intros opp Ho. apply H3. now apply Hin.
  - intros opp Ho. rewrite Hp. now apply H4.
  - intros Hn. apply (js_sort_sorted (fun o => ToNumber (potential_gain o))).
    apply Forall_forall. intros opp Ho. rewrite Forall_forall in Hn.
    apply Hn. apply elem_of_app. destruct (H3 opp Ho) as [?|[? _]]; [now left | now right].
Qed.

(** *** Applying updates *)

Lemma deliver_map (batch : list Reconciler.StockUpdate) :
  forall prev, deliver batch prev = map (deliver1 batch) prev.
Proof.
  unfold deliver, deliver1. induction batch as [|u batch IH]; intros prev; cbn [foldl].
  - now rewrite map_id.
  - rewrite IH. unfold onUpdate. rewrite map_map. reflexivity.
Qed.

Lemma with_price_twice (opp : StockOpportunity) (p q : value) :
  with_price (with_price opp p) q = with_price opp q.
Proof. reflexivity. Qed.

Lemma deliver1_spec (batch : list Reconciler.StockUpdate) (opp : StockOpportunity) :
  deliver1 batch opp
  = match last_price batch (symbol opp) with
    | Some p => with_price opp p
    | None => opp
    end.
Proof.
  unfold deliver1, last_price.
  induction batch as [|u batch IH] using rev_ind; [reflexivity|].
  rewrite !foldl_app. cbn [foldl]. rewrite IH.
  set (lp := foldl _ None batch).
  assert (Hs : symbol (match lp with Some p => with_price opp p | None => opp end)
               = symbol opp) by (now destruct lp).
  rewrite Hs. destruct (String.eqb (symbol opp) (Reconciler.symbol u)); [|reflexivity].
  now destruct lp.
Qed.

(** X22: delivering the same updates a second time changes nothing on the
    page, so the repeated flushes of the hook are harmless for it; a
    delivery changes neither the symbols shown, nor their order, nor the
    target prices, and each opportunity ends with the price of the last
    update of the batch for its symbol. *)
Theorem delivery_is_idempotent
    (batch : list Reconciler.StockUpdate) (prev : list StockOpportunity) :
  deliver batch (deliver batch prev) = deliver batch prev
  /\ map symbol (deliver batch prev) = map symbol prev
  /\ map target_price (deliver batch prev) = map target_price prev
  /\ (forall opp p, opp ∈ prev -> last_price batch (symbol opp) = Some p ->
        with_price opp p ∈ deliver batch prev).
Proof.
  rewrite !deliver_map, !map_map. repeat split.
  - apply map_ext. intros opp. rewrite !deliver1_spec.
    destruct (last_price batch (symbol opp)) as [p|] eqn:E.
    + cbn [symbol with_price]. rewrite E. apply with_price_twice.
    + now rewrite E.
  - apply map_ext. intros opp. rewrite deliver1_spec.
    now destruct (last_price batch (symbol opp)).
  - apply map_ext. intros opp. rewrite deliver1_spec.
    now destruct (last_price batch (symbol opp)).
  - intros opp p Hin E. apply list_elem_of_fmap. exists opp.
    split; [|exact Hin]. rewrite deliver1_spec. now rewrite E.
Qed.

End Page.

Section PageSamples.
Import ScannerPage.

Lemma merge_keeps_what_is_shown_witness :
  shown "AAPL" 7 ∈ merge [shown "AAPL" 9; shown "MSFT" 8] [shown "AAPL" 7].
Proof.
  destruct (merge_keeps_what_is_shown [shown "AAPL" 9; shown "MSFT" 8] [shown "AAPL" 7])
    as (_ & H & _).
  - cbn. apply NoDup_singleton.
  - apply H. left.
Defined.

End PageSamples.

(** ** Historical data *)

Section SortAnyComparator.
Context {A : Type}.

Lemma sort_insert_perm_any (cmp : A -> A -> num) (x : A) (l : list A) :
  sort_insert cmp x l ≡ₚ x :: l.
Proof.
  induction l as [|y l IH]; cbn [sort_insert]; [reflexivity|].
  destruct (JS.gt _ _); [|reflexivity].
  rewrite IH. apply Permutation_swap.
Qed.

Lemma js_sort_perm_any (cmp : A -> A -> num) (l : list A) : js_sort cmp l ≡ₚ l.
Proof.
  unfold js_sort. induction l as [|x l IH]; cbn [foldr]; [reflexivity|].
  rewrite sort_insert_perm_any. now rewrite IH.
Qed.

Lemma sort_insert_ext (cmp cmp' : A -> A -> num) (x : A) (l : list A) :
  (forall y, y ∈ l -> JS.gt (cmp x y) (Fin 0) = JS.gt (cmp' x y) (Fin 0)) ->
  sort_insert cmp x l = sort_insert cmp' x l.
Proof.
  induction l as [|y l IH]; intros H; cbn [sort_insert]; [reflexivity|].
  rewrite (H y) by left. rewrite IH by (intros z Hz; apply H; now right).
  reflexivity.
Qed.

(** The sort only depends on the sign tests of the comparator on the
    elements sorted. *)
Lemma js_sort_ext (cmp cmp' : A -> A -> num) (l : list A) :
  (forall x y, x ∈ l -> y ∈ l -> JS.gt (cmp x y) (Fin 0) = JS.gt (cmp' x y) (Fin 0)) ->
  js_sort cmp l = js_sort cmp' l.
Proof.
  unfold js_sort. induction l as [|x l IH]; intros H; cbn [foldr]; [reflexivity|].
  rewrite IH by (intros a b Ha Hb; apply H; now right).
  apply sort_insert_ext. intros y Hy. apply H; [left|]. right.
  fold (js_sort cmp' l) in Hy. now rewrite js_sort_perm_any in Hy.
Qed.

End SortAnyComparator.

Section History.
Import DataService.

Lemma validate_Some (bar : option RawBar) (b : RawBar) :
  validate bar = Some b -> bar = Some b /\ numeric (to_bar b).
Proof.
  destruct bar as [r|]; [|discriminate]. cbn [validate].
  destruct (r_t r) eqn:E1, (r_o r) eqn:E2, (r_h r) eqn:E3, (r_l r) eqn:E4,
           (r_c r) eqn:E5, (r_v r) eqn:E6; cbn; try discriminate.
  intros [= <-]. split; [reflexivity|]. unfold numeric. cbn.
  rewrite E1, E2, E3, E4, E5, E6. repeat split; eauto.
Qed.

Lemma validBars_numeric (results : list (option RawBar)) :
  Forall (fun b => numeric (to_bar b)) (omap validate results).
Proof.
  apply Forall_forall. intros b Hb. apply list_elem_of_omap in Hb as (bar & _ & Hv).
  now apply validate_Some in Hv.
Qed.

(** The comparator [a.t - b.t] sorts validated bars by ascending
    timestamp. *)
Lemma sort_by_timestamp (l : list RawBar) :
  Forall (fun b => numeric (to_bar b)) l ->
  StronglySorted (fun a b => not_after (to_bar a) (to_bar b))
    (js_sort (fun a b => t_of a - t_of b)%js l).
Proof.
  intros Hl.
  set (key := fun b : RawBar => JS.neg (t_of b)).
  assert (Ht : forall b, b ∈ l -> exists t, r_t b = Some t).
  { intros b Hb. rewrite Forall_forall in Hl. destruct (Hl b Hb) as ([t Ht] & _).
    exists t. exact Ht. }
  rewrite (js_sort_ext _ (fun a b => key b - key a)%js).
  - pose proof (js_sort_sorted key l) as Hs.
    assert (Hn : Forall (fun y => JS.is_NaN (key y) = false) l).
    { apply Forall_forall. intros b Hb. destruct (Ht b Hb) as [t E].
      unfold key, t_of. now rewrite E. }
    specialize (Hs Hn).
    assert (Hin : forall b, b ∈ js_sort (fun a b => key b - key a)%js l -> b ∈ l)
      by (intros b Hb; now rewrite js_sort_perm_any in Hb).
    revert Hs Hin. generalize (js_sort (fun a b => key b - key a)%js l). intros s Hs.
    induction Hs as [|a s Hs IH Ha]; intros Hin; constructor.
    + apply IH. intros b Hb. apply Hin. now right.
    + rewrite Forall_forall in Ha. apply Forall_forall. intros b Hb.
      specialize (Ha b Hb). cbn beta in Ha.
      destruct (Ht a (Hin a ltac:(left))) as [x Ex].
      destruct (Ht b (Hin b ltac:(now right))) as [y Ey].
      unfold key, t_of, JS.ge in Ha. rewrite Ex, Ey in Ha. cbn in Ha.
      apply Qle_bool_iff in Ha.
      intros x' y'. cbn [to_bar timestamp]. rewrite Ex, Ey. intros [= <-] [= <-]. lra.
  - intros a b Ha Hb. destruct (Ht a Ha) as [x Ex]. destruct (Ht b Hb) as [y Ey].
    unfold key, t_of. rewrite Ex, Ey. cbn. unfold JS.gt. cbn.
    destruct (JS.Qltb 0 (x + - y)) eqn:E1, (JS.Qltb 0 (- y + - - x)) eqn:E2; qbool;
      try reflexivity; lra.
Qed.

(** What an attempt that does not throw returns. *)
Lemma attempt_body_Some (cache cache' : Cache) (key : string) (got : Got)
    (bars : list Bar) :
  attempt_body cache key got = Some (bars, cache') ->
  (bars = [] /\ cache' = cache)
  \/ (exists results,
        got = Resolves (Results results)
        /\ bars = map to_bar (js_sort (fun a b => t_of a - t_of b)%js
                                (omap validate results))
        /\ bars <> []
        /\ cache' = <[key := bars]> cache).
Proof.
  destruct got as [|[| |results]]; cbn [attempt_body]; try discriminate.
  - intros [= <- <-]. now left.
  - destruct (Nat.eqb_spec (length (omap validate results)) 0) as [E|Hne].
    + intros [= <- <-]. now left.
    + set (bars' := map to_bar _).
      assert (Hlen : length bars' = length (omap validate results)).
      { unfold bars'. rewrite length_map. apply Permutation_length, js_sort_perm_any. }
      destruct (Nat.ltb_spec 0 (length bars')) as [_|Hz]; [|lia].
      intros [= <- <-]. right. exists results. repeat split.
      intros E. rewrite E in Hlen. cbn in Hlen. lia.
Qed.

Lemma attempt_body_sorted (cache cache' : Cache) (key : string) (got : Got)
    (bars : list Bar) :
  attempt_body cache key got = Some (bars, cache') ->
  Forall numeric bars /\ StronglySorted not_after bars.
Proof.
  intros H. apply attempt_body_Some in H as [[-> _]|(results & _ & -> & _ & _)].
  - split; constructor.
  - pose proof (validBars_numeric results) as Hv. split.
    + apply Forall_forall. intros bar Hbar.
      apply list_elem_of_fmap in Hbar as (b & -> & Hb).
      rewrite js_sort_perm_any in Hb. rewrite Forall_forall in Hv. now apply Hv.
    + pose proof (sort_by_timestamp _ Hv) as Hs. revert Hs.
      generalize (js_sort (fun a b => t_of a - t_of b)%js (omap validate results)).
      intros l Hs. induction Hs as [|a l Hs IH Ha]; cbn [map]; constructor.
      * exact IH.
      * apply Forall_forall. intros bar Hbar.
        apply list_elem_of_fmap in Hbar as (b & -> & Hb).
        rewrite Forall_forall in Ha. now apply Ha.
Qed.

(** The three attempts, one by one. *)
Lemma retry_cases (get : nat -> Got) (cache : Cache) (key : string) :
  let r := retry maxRetries 0 get cache key [] in
  (exists k, (k < 3)%nat
     /\ attempt_body cache key (get k) = Some (returned r, cache_after r)
     /\ (forall j, (j < k)%nat -> attempt_body cache key (get j) = None)
     /\ requests r = S k
     /\ waits r = take k [1000; 2000]%Z)
  \/ ((forall j, (j < 3)%nat -> attempt_body cache key (get j) = None)
      /\ returned r = [] /\ cache_after r = cache
      /\ requests r = 3%nat /\ waits r = [1000; 2000]%Z).
Proof.
  cbv zeta. unfold maxRetries. cbn [retry].
  destruct (attempt_body cache key (get 0%nat)) as [[b0 c0]|] eqn:E0.
  { left. exists 0%nat. cbn. split; [lia|]. split; [exact E0|].
    split; [intros j Hj; lia|]. split; reflexivity. }
  destruct (attempt_body cache key (get 1%nat)) as [[b1 c1]|] eqn:E1.
  { left. exists 1%nat. cbn. split; [lia|]. split; [exact E1|].
    split; [|split; reflexivity].
    intros j Hj. now replace j with 0%nat by lia. }
  destruct (attempt_body cache key (get 2%nat)) as [[b2 c2]|] eqn:E2.
  { left. exists 2%nat. cbn. split; [lia|]. split; [exact E2|].
    split; [|split; reflexivity].
    intros j Hj. destruct j as [|[|j]]; [assumption | assumption | lia]. }
  right. cbn. split; [|repeat split].
  intros j Hj. destruct j as [|[|[|j]]]; [assumption | assumption | assumption | lia].
Qed.

(** X23: what [getHistoricalData] fetches is in ascending order of
    timestamp and holds only bars whose six fields are numbers: a
    non-empty result is the validated bars of the first response that did
    not make the attempt throw, sorted, every bar of it kept once. *)
Theorem fetched_history_is_sorted
    (cache : Cache) (get : nat -> Got) (symbol range interval : string) :
  cache !! cacheKey symbol range interval = None ->
  let r := getHistoricalData cache get symbol range interval in
  Forall numeric (returned r)
  /\ StronglySorted not_after (returned r)
  /\ (returned r <> [] ->
      exists k results,
        (k < 3)%nat
        /\ get k = Resolves (Results results)
        /\ (forall j, (j < k)%nat ->
              get j = Rejects \/ get j = Resolves NotAnObject)
        /\ returned r ≡ₚ map to_bar (omap validate results)).
Proof.
  intros Hmiss. cbv zeta. unfold getHistoricalData. rewrite Hmiss.
  destruct (retry_cases get cache (cacheKey symbol range interval))
    as [(k & Hk & Hb & Hprev & _)|(_ & -> & _)].
  - destruct (attempt_body_sorted _ _ _ _ _ Hb) as [Hn Hs].
    split; [exact Hn|]. split; [exact Hs|]. intros Hne.
    apply attempt_body_Some in Hb as [[E _]|(results & Hg & E & _ & _)];
      [contradiction|].
    exists k, results. split; [exact Hk|]. split; [exact Hg|]. split.
    + intros j Hj. specialize (Hprev j Hj).
      destruct (get j) as [|[| |res]]; cbn [attempt_body] in Hprev;
        [now left | now right | discriminate |].
      destruct (length (omap validate res) =? 0)%nat; discriminate.
    + rewrite E. now rewrite js_sort_perm_any.
  - split; [constructor|]. split; [constructor|]. intros H. contradiction.
Qed.

(** X24: a call makes at most three requests (none when the cache holds
    the key), waits 1 s after the first failed attempt and 2 s after the
    second and nothing after the third, so the cap of 10 s is never
    reached; when all three attempts throw it returns the empty list. *)
Theorem history_gives_up_after_three
    (cache : Cache) (get : nat -> Got) (symbol range interval : string) :
  let r := getHistoricalData cache get symbol range interval in
  (requests r <= 3)%nat
  /\ waits r = take (requests r - 1) [1000; 2000]%Z
  /\ (requests r = 0%nat <-> is_Some (cache !! cacheKey symbol range interval))
  /\ ((forall j, (j < 3)%nat -> get j = Rejects \/ get j = Resolves NotAnObject) ->
      cache !! cacheKey symbol range interval = None ->
      returned r = [] /\ requests r = 3%nat /\ cache_after r = cache).
Proof.
  cbv zeta. unfold getHistoricalData.
  destruct (cache !! cacheKey symbol range interval) as [cached|] eqn:Ec.
  - cbn. split; [lia|]. split; [reflexivity|]. split; [split; eauto|].
    intros _ H. discriminate.
  - destruct (retry_cases get cache (cacheKey symbol range interval))
      as [(k & Hk & Hb & Hprev & Hr & Hw)|(Hall & Hret & Hc & Hr & Hw)].
    + rewrite Hr, Hw. replace (S k - 1)%nat with k by lia.
      split; [lia|]. split; [reflexivity|]. split.
      * split; [discriminate | intros [? ?]; discriminate].
      * intros H _. exfalso. destruct (H k Hk) as [E|E]; rewrite E in Hb; discriminate.
    + rewrite Hr, Hw, Hret, Hc. cbn. split; [lia|]. split; [reflexivity|]. split.
      * split; [discriminate | intros [? ?]; discriminate].
      * intros _ _. repeat split.
Qed.

Lemma getHistoricalData_hit (cache : Cache) (get : nat -> Got)
    (symbol range interval : string) (cached : list Bar) :
  cache !! cacheKey symbol range interval = Some cached ->
  getHistoricalData cache get symbol range interval
  = {| returned := cached; requests := 0; waits := []; cache_after := cache |}.
Proof. intros H. unfold getHistoricalData. now rewrite H. Qed.

Lemma getHistoricalData_cache (cache : Cache) (get : nat -> Got)
    (symbol range interval : string) :
  let r := getHistoricalData cache get symbol range interval in
  (returned r <> [] ->
   cache_after r !! cacheKey symbol range interval = Some (returned r))
  /\ (returned r = [] -> cache_after r = cache).
Proof.
  cbv zeta.
  destruct (cache !! cacheKey symbol range interval) as [cached|] eqn:Ec.
  - rewrite (getHistoricalData_hit _ _ _ _ _ cached Ec). cbn. split; auto.
  - unfold getHistoricalData. rewrite Ec.
    destruct (retry_cases get cache (cacheKey symbol range interval))
      as [(k & Hk & Hb & _)|(_ & Hret & Hc & _)].
    + apply attempt_body_Some in Hb as [[E Hc]|(results & _ & _ & Hne & Hc)].
      * split; [intros H; contradiction | intros _; exact Hc].
      * split; [|intros E; contradiction]. intros _.
        rewrite Hc at 1. apply lookup_insert_eq.
    + split; [intros H; contradiction | intros _; exact Hc].
Qed.

(** X25: the cache holds what was fetched: after a call that returned
    bars, a further call for the same symbol, range and interval returns
    the same bars without a request, whatever the provider would answer;
    a call that returned nothing leaves the cache as it was, so an empty
    or failed fetch is fetched again. *)
Theorem history_is_served_from_the_cache
    (cache : Cache) (get get' : nat -> Got) (symbol range interval : string) :
  let r := getHistoricalData cache get symbol range interval in
  let r' := getHistoricalData (cache_after r) get' symbol range interval in
  (returned r <> [] ->
   returned r' = returned r /\ requests r' = 0%nat /\ cache_after r' = cache_after r)
  /\ (returned r = [] -> cache_after r = cache).
Proof.
  cbv zeta.
  destruct (getHistoricalData_cache cache get symbol range interval) as [H1 H2].
  split; [|exact H2]. intros Hne.
  rewrite (getHistoricalData_hit _ get' _ _ _ _ (H1 Hne)). cbn. repeat split.
Qed.

End History.

Section HistorySamples.
Import DataService.

Lemma fetched_history_is_sorted_witness :
  StronglySorted not_after
    (returned (getHistoricalData ∅ fails_once "AAPL" "1M" "1day")).
Proof.
  apply (fetched_history_is_sorted ∅ fails_once "AAPL" "1M" "1day" (lookup_empty _)).
Defined.

End HistorySamples.

(** ** The list of blue-chip stocks *)

Section BlueChipList.
Import BlueChips.

Lemma static_NoDup : NoDup (map symbol staticBlueChips).
Proof. apply (bool_decide_unpack _). vm_compute. reflexivity. Qed.

Lemma static_by_cap : by_cap staticBlueChips.
Proof.
  unfold by_cap, staticBlueChips.
  repeat (constructor; [|repeat (constructor; [vm_compute; reflexivity|]); constructor]).
  constructor.
Qed.

Lemma has_symbol_elem (stocks : list Stock) (s : string) :
  has_symbol stocks s = true <-> s ∈ map symbol stocks.
Proof.
  unfold has_symbol. rewrite existsb_exists, list_elem_of_fmap. split.
  - intros (x & Hx & E). apply String.eqb_eq in E. exists x.
    split; [congruence | now apply list_elem_of_In].
  - intros (x & E & Hx). exists x. split; [now apply list_elem_of_In|].
    apply String.eqb_eq. congruence.
Qed.

Lemma process_listed (st : State) (entry : Ticker * Details) :
  listed st -> listed (process st entry).
Proof.
  intros (Hs & Hnd & Hc & Hcache). destruct entry as [stock details].
  cbn [process].
  destruct (has_symbol (blueChipStocks st) (ticker stock)) eqn:E;
    [now repeat split|].
  assert (Hd : forall ms, listed (delay ms (delay 2000 st))
                          /\ listed (delay 2000 st)).
  { intros ms. now repeat split. }
  destruct details as [[code|]|cap]; try apply (Hd 0%Z).
  - destruct (code =? 429)%Z; apply (Hd 10000%Z).
  - destruct (truthy cap); [|apply (Hd 0%Z)].
    cbn [symbol delay blueChipStocks]. rewrite E. cbn [negb].
    set (newStock := {| symbol := ticker stock; name := t_name stock;
                        market_cap := cap;
                        primary_exchange := t_primary_exchange stock |}).
    pose proof (js_sort_perm (fun s => ToNumber (market_cap s))
                  (push (blueChipStocks st) newStock)) as Hp.
    cbn beta in Hp.
    split; [|split; [|split]]; cbn [blueChipStocks cache].
    + intros s H. rewrite Hp. unfold push. apply elem_of_app. left. now apply Hs.
    + rewrite Hp. unfold push. rewrite map_app. apply NoDup_app.
      split; [exact Hnd|]. split; [|apply NoDup_singleton].
      intros s H H'. cbn in H'. apply list_elem_of_singleton in H'. subst s.
      apply has_symbol_elem in H. congruence.
    + intros Hn. apply (js_sort_sorted (fun s => ToNumber (market_cap s))).
      unfold numeric_caps in Hn. now rewrite Hp in Hn.
    + split; [reflexivity|]. rewrite Hp. unfold push. rewrite length_app. cbn [length].
      assert (Hle : (length staticBlueChips <= length (blueChipStocks st))%nat).
      { destruct (cache st) as [stocks|]; [destruct Hcache; lia | now rewrite Hcache]. }
      lia.
Qed.

(** X26: when the cache does not hold the list, [getBlueChipStocks]
    returns a list that contains the ten static stocks whatever the
    provider answers and holds no symbol twice.  The cache entry is
    written exactly when a stock was added to the ten: then it holds the
    list returned, which is longer than the static list, and otherwise
    the list returned is the static list.  The list is in descending
    order of market capitalisation when every market capitalisation in it
    converts to a number; the code admits any truthy value. *)
Theorem blue_chips_contain_the_static_list (listing : Listing) :
  let st := getBlueChipStocks None listing in
  (forall s, s ∈ staticBlueChips -> s ∈ blueChipStocks st)
  /\ NoDup (map symbol (blueChipStocks st))
  /\ (numeric_caps (blueChipStocks st) -> by_cap (blueChipStocks st))
  /\ match cache st with
     | Some stocks =>
         stocks = blueChipStocks st
         /\ (length staticBlueChips < length (blueChipStocks st))%nat
     | None => blueChipStocks st = staticBlueChips
     end.
Proof.
  cbv zeta.
  assert (H0 : listed {| blueChipStocks := staticBlueChips; cache := None; delays := [] |}).
  { split; [auto|]. split; [apply static_NoDup|]. split; [intros _; apply static_by_cap|].
    reflexivity. }
  change (listed (getBlueChipStocks None listing)).
  unfold getBlueChipStocks. destruct listing as [|[results|]]; try exact H0.
  revert H0. generalize {| blueChipStocks := staticBlueChips; cache := None; delays := [] |}.
  induction results as [|[entry|] results IH]; intros st H; cbn [process_all];
    [exact H | | exact H].
  apply IH. now apply process_listed.
Qed.

End BlueChipList.
